(** * Token-optimization pipeline: the token-aware stage and its orchestrator

    A shallow embedding of

    - [token-optimizer/scripts/03_token_aware.py] ([TokenAwareOptimizer]:
      the candidate table, [_build_efficient_map], [optimize_text],
      [analyze_text]), and
    - [token-optimizer/pipeline.py] ([TokenOptimizationPipeline]:
      [run_stage], [run_pipeline], [analyze_text]),

    followed by the properties of the specification, stated and settled on
    these definitions.

    Modelling choices.

    - Text is a list of 8-bit characters and stands for 7-bit ASCII text:
      the character classes below ([\w], [\s], case) are Python's on code
      points below 128; a code from 128 up is taken as a symbol (not a word
      character, not white space, without case).
    - A tokenizer is the function [encode : text -> list nat] of the loaded
      model ([add_special_tokens=False]); the optimizer and the pipeline
      take it as a field, as the classes do.
    - A [dict] is an association list in insertion order, which is the
      order Python iterates it in.
    - Exceptions are the constructors of [exn]; a function that can raise
      returns an [outcome], and what it prints to the diagnostic stream is
      returned beside it as a list of [log_event]s.  Wall-clock times are
      left out of the events. *)

From Stdlib Require Import List Ascii String ZArith NArith QArith Bool Lia.
From Stdlib Require Import Permutation Sorted DecimalString.
Import ListNotations.

Set Implicit Arguments.

(** ** Text and character classes *)

Definition text := list ascii.

Definition txt (s : string) : text := list_ascii_of_string s.

Definition code (c : ascii) : N := N_of_ascii c.

Definition in_range (lo hi : N) (c : ascii) : bool :=
  ((lo <=? code c) && (code c <=? hi))%N.

Definition char_isupper (c : ascii) : bool := in_range 65 90 c.
Definition char_islower (c : ascii) : bool := in_range 97 122 c.
Definition char_isdigit (c : ascii) : bool := in_range 48 57 c.

(** [str.isalnum] on one character. *)
Definition char_isalnum (c : ascii) : bool :=
  char_isupper c || char_islower c || char_isdigit c.

(** The class [\w] of [re]: alphanumerics and the underscore. *)
Definition char_isword (c : ascii) : bool :=
  char_isalnum c || (code c =? 95)%N.

(** The class [\s] of [re] and the characters [str.strip] removes:
    tab to carriage return, the four separators 28..31, and the space. *)
Definition char_isspace (c : ascii) : bool :=
  in_range 9 13 c || in_range 28 32 c.

Definition char_lower (c : ascii) : ascii :=
  if char_isupper c then ascii_of_N (code c + 32) else c.

Definition char_upper (c : ascii) : ascii :=
  if char_islower c then ascii_of_N (code c - 32) else c.

(** [str.upper], [str.lower]. *)
Definition str_upper (s : text) : text := map char_upper s.
Definition str_lower (s : text) : text := map char_lower s.

(** [str.isupper]: at least one cased character and no lower-case one. *)
Definition str_isupper (s : text) : bool :=
  existsb char_isupper s && negb (existsb char_islower s).

Fixpoint text_eqb (a b : text) : bool :=
  match a, b with
  | [], [] => true
  | x :: a', y :: b' => Ascii.eqb x y && text_eqb a' b'
  | _, _ => false
  end.

(** ** The compiled pattern [\b + re.escape(phrase) + \b], [re.IGNORECASE] *)

Definition opt_isword (o : option ascii) : bool :=
  match o with
  | Some c => char_isword c
  | None => false
  end.

(** [\b] between the character before a position and the one after it;
    the ends of the string count as non-word. *)
Definition word_boundary (before after : option ascii) : bool :=
  xorb (opt_isword before) (opt_isword after).

(** The escaped phrase matches itself, letter case ignored.  Returns the
    matched characters of the subject and what follows them. *)
Fixpoint match_literal (phrase s : text) : option (text * text) :=
  match phrase with
  | [] => Some ([], s)
  | p :: phrase' =>
      match s with
      | [] => None
      | c :: s' =>
          if Ascii.eqb (char_lower c) (char_lower p) then
            match match_literal phrase' s' with
            | Some (m, rest) => Some (c :: m, rest)
            | None => None
            end
          else None
      end
  end.

(** The last character seen once [m] has been read after [prev]. *)
Fixpoint last_seen (prev : option ascii) (m : text) : option ascii :=
  match m with
  | [] => prev
  | c :: m' => last_seen (Some c) m'
  end.

(** One attempt of the pattern at a position: [prev] is the character
    before it, [s] the subject from it on. *)
Definition match_at (phrase : text) (prev : option ascii) (s : text)
  : option (text * text) :=
  if word_boundary prev (hd_error s) then
    match match_literal phrase s with
    | Some (m, rest) =>
        if word_boundary (last_seen prev m) (hd_error rest)
        then Some (m, rest) else None
    | None => None
    end
  else None.

(** The scan [re] does for [findall] and [sub]: left to right, matches do
    not overlap; the subject is cut into the characters left alone and the
    matches.  [skip] counts the characters of the current match still to be
    passed over. *)
Inductive segment : Type :=
| Lit (c : ascii)
| Hit (m : text).

Fixpoint re_scan (phrase : text) (prev : option ascii) (skip : nat) (s : text)
  : list segment :=
  match s with
  | [] =>
      match skip with
      | O => match match_at phrase prev [] with
             | Some _ => [Hit []]
             | None => []
             end
      | S _ => []
      end
  | c :: s' =>
      match skip with
      | S k => re_scan phrase (Some c) k s'
      | O =>
          match match_at phrase prev s with
          | Some ([], _) => Hit [] :: Lit c :: re_scan phrase (Some c) 0 s'
          | Some ((_ :: m') as m, _) =>
              Hit m :: re_scan phrase (Some c) (List.length m') s'
          | None => Lit c :: re_scan phrase (Some c) 0 s'
          end
      end
  end.

Definition seg_hits (segs : list segment) : list text :=
  flat_map (fun g => match g with Lit _ => [] | Hit m => [m] end) segs.

Definition seg_text (segs : list segment) : text :=
  flat_map (fun g => match g with Lit c => [c] | Hit m => m end) segs.

Definition seg_subst (f : text -> text) (segs : list segment) : text :=
  flat_map (fun g => match g with Lit c => [c] | Hit m => f m end) segs.

(** [pattern.findall(s)]: the matched texts, in order. *)
Definition findall (phrase s : text) : list text :=
  seg_hits (re_scan phrase None 0 s).

(** [pattern.sub(f, s)] with a function [f] of the matched text. *)
Definition sub (phrase : text) (f : text -> text) (s : text) : text :=
  seg_subst f (re_scan phrase None 0 s).

(** [pattern.sub(replacement, s)] with a replacement string: a template
    without backslash (none of the table's has one) stands for itself. *)
Definition sub_template (phrase replacement s : text) : text :=
  sub phrase (fun _ => replacement) s.

(** ** The white-space cleanup of [optimize_text] *)

(** [re.sub(r"\s+", " ", s)]: every maximal run of white space becomes one
    space.  [in_run] says that the previous character was white space. *)
Fixpoint collapse_from (in_run : bool) (s : text) : text :=
  match s with
  | [] => []
  | c :: s' =>
      if char_isspace c then
        if in_run then collapse_from true s'
        else " "%char :: collapse_from true s'
      else c :: collapse_from false s'
  end.

Definition collapse_spaces (s : text) : text := collapse_from false s.

(** The class [[,.!?;:]]. *)
Definition char_ispunct (c : ascii) : bool :=
  existsb (Ascii.eqb c) (txt ",.!?;:").

Fixpoint skip_spaces (s : text) : text :=
  match s with
  | [] => []
  | c :: s' => if char_isspace c then skip_spaces s' else s
  end.

(** The white space from here on ends at one of the six marks. *)
Definition spaces_then_punct (s : text) : bool :=
  match skip_spaces s with
  | p :: _ => char_ispunct p
  | [] => false
  end.

(** [re.sub(r"\s+([,.!?;:])", r"\1", s)]: [\s+] is greedy and can give
    nothing back (the character after a shorter run is white space, not a
    mark), so a run of white space is deleted exactly when a mark follows
    it, and stays whole otherwise. *)
Fixpoint unspace_punct (s : text) : text :=
  match s with
  | [] => []
  | c :: s' =>
      if char_isspace c && spaces_then_punct s'
      then unspace_punct s'
      else c :: unspace_punct s'
  end.

(** [str.strip()]. *)
Definition lstrip (s : text) : text := skip_spaces s.
Definition rstrip (s : text) : text := rev (skip_spaces (rev s)).
Definition strip (s : text) : text := rstrip (lstrip s).

(** ** Dictionaries *)

Definition dict (V : Type) : Type := list (text * V).

(** [d[k] = v]: an existing key keeps its place and takes the new value, a
    new key goes to the end. *)
Fixpoint dict_set {V : Type} (k : text) (v : V) (d : dict V) : dict V :=
  match d with
  | [] => [(k, v)]
  | (k', v') :: d' =>
      if text_eqb k k' then (k', v) :: d' else (k', v') :: dict_set k v d'
  end.

Fixpoint dict_get {V : Type} (k : text) (d : dict V) : option V :=
  match d with
  | [] => None
  | (k', v') :: d' => if text_eqb k k' then Some v' else dict_get k d'
  end.

Definition dict_keys {V : Type} (d : dict V) : list text := map fst d.

(** [sorted(l, key=key, reverse=True)] and [l.sort(key=key, reverse=True)]:
    descending and stable (equal keys keep their order). *)
Fixpoint insert_desc {A : Type} (key : A -> Z) (x : A) (l : list A) : list A :=
  match l with
  | [] => [x]
  | y :: l' =>
      if (key y <? key x)%Z then x :: l else y :: insert_desc key x l'
  end.

Definition sorted_desc {A : Type} (key : A -> Z) (l : list A) : list A :=
  fold_left (fun acc x => insert_desc key x acc) l [].

(** ** Tokenizers *)

Definition tokenizer : Type := text -> list nat.

(** The [MockTokenizer] of [tests/conftest.py]:
    [re.findall(r'\w+|[^\w\s]', text.lower())], one dummy id per token.
    [in_word] says that the previous character continued a [\w+] run. *)
Fixpoint mock_count (in_word : bool) (s : text) : nat :=
  match s with
  | [] => 0
  | c :: s' =>
      if char_isword c then
        (if in_word then 0 else 1) + mock_count true s'
      else if char_isspace c then mock_count false s'
      else 1 + mock_count false s'
  end.

Definition MockTokenizer : tokenizer :=
  fun s => seq 0 (mock_count false (str_lower s)).

(** The fallback of the [CustomMockTokenizer] of [tests/unit/
    test_token_aware.py]: [list(range(len(text.split())))]. *)
Fixpoint split_count (in_word : bool) (s : text) : nat :=
  match s with
  | [] => 0
  | c :: s' =>
      if char_isspace c then split_count false s'
      else (if in_word then 0 else 1) + split_count true s'
  end.

Definition SplitTokenizer : tokenizer :=
  fun s => seq 0 (split_count false s).

(** ** [TokenAwareOptimizer] *)

Record EfficientReplacement : Type := {
  replacement : text;
  savings : Z;
  original_tokens : Z;
  replacement_tokens : Z
}.

Record TokenAwareOptimizer : Type := {
  encode : tokenizer;
  min_savings : Z;
  replacement_candidates : dict text;
  token_efficient_map : dict EfficientReplacement
}.

(** The table of [__init__], in the order it is written. *)
Definition default_candidates : dict text :=
  map (fun kv => (txt (fst kv), txt (snd kv)))
    [ ("it is", "it's"); ("you are", "you're"); ("we are", "we're");
      ("they are", "they're"); ("i am", "i'm"); ("do not", "don't");
      ("does not", "doesn't"); ("did not", "didn't"); ("will not", "won't");
      ("can not", "can't"); ("cannot", "can't");
      ("should not", "shouldn't"); ("would not", "wouldn't");
      ("could not", "couldn't"); ("have not", "haven't");
      ("has not", "hasn't"); ("had not", "hadn't");
      ("going to", "gonna"); ("want to", "wanna"); ("got to", "gotta");
      ("approximately", "~"); ("equals", "="); ("greater than", ">");
      ("less than", "<"); ("and/or", "or");
      ("version", "v"); ("versus", "vs"); ("example", "e.g.");
      ("that is", "i.e."); ("et cetera", "etc"); ("number", "#");
      ("basically", ""); ("actually", ""); ("really", ""); ("very", "");
      ("just", ""); ("quite", ""); ("rather", "") ]%string.

(** [_count_tokens], given the tokenizer. *)
Definition count_with (tok : tokenizer) (s : text) : Z :=
  Z.of_nat (List.length (tok s)).

Definition nonempty (s : text) : bool :=
  match s with [] => false | _ :: _ => true end.

Definition nonempty_list {A : Type} (l : list A) : bool :=
  match l with [] => false | _ :: _ => true end.

(** One candidate seen by the loop of [_build_efficient_map]. *)
Definition candidate_info (tok : tokenizer) (original repl : text)
  : EfficientReplacement :=
  let orig_tokens := count_with tok original in
  let repl_tokens := if nonempty repl then count_with tok repl else 0%Z in
  {| replacement := repl;
     savings := orig_tokens - repl_tokens;
     original_tokens := orig_tokens;
     replacement_tokens := repl_tokens |}.

(** [_build_efficient_map], on the fields it reads. *)
Definition build_efficient_map (tok : tokenizer) (min : Z)
    (candidates : dict text) : dict EfficientReplacement :=
  fold_left
    (fun efficient_map kv =>
       let info := candidate_info tok (fst kv) (snd kv) in
       if (savings info >=? min)%Z
       then dict_set (fst kv) info efficient_map
       else efficient_map)
    candidates [].

(** [TokenAwareOptimizer(model_name, min_savings)], the tokenizer of the
    model given loaded. *)
Definition TokenAwareOptimizer_init (tok : tokenizer) (min : Z)
  : TokenAwareOptimizer :=
  {| encode := tok;
     min_savings := min;
     replacement_candidates := default_candidates;
     token_efficient_map := build_efficient_map tok min default_candidates |}.

Definition _count_tokens (self : TokenAwareOptimizer) (s : text) : Z :=
  count_with (encode self) s.

Definition _build_efficient_map (self : TokenAwareOptimizer)
  : dict EfficientReplacement :=
  build_efficient_map (encode self) (min_savings self)
    (replacement_candidates self).

(** [replace_func] of [optimize_text]; [repl] is the [replacement] of the
    enclosing loop. *)
Definition replace_func (repl : text) (matched_text : text) : text :=
  if negb (nonempty repl) then []
  else if str_isupper matched_text && (1 <? List.length repl)%nat then
    str_upper repl
  else if
    match matched_text with
    | c :: _ => char_isupper c
    | [] => false
    end && (1 <? List.length repl)%nat
  then
    match repl with
    | r0 :: r' => char_upper r0 :: r'
    | [] => []
    end
  else repl.

Record ReplacementMade : Type := {
  rm_original : text;
  rm_replacement : text;
  rm_count : Z;
  rm_tokens_saved : Z
}.

Record OptimizationReport : Type := {
  total_tokens_saved : Z;
  replacements : list ReplacementMade;
  report_original_tokens : Z;
  report_optimized_tokens : Z
}.

(** The variables the loop of [optimize_text] updates. *)
Record LoopState : Type := {
  optimized_text : text;
  total_savings : Z;
  replacements_made : list ReplacementMade
}.

(** The savings measured on the sample: [matches[0]] against
    [pattern.sub(replacement, matches[0])]. *)
Definition actual_savings (self : TokenAwareOptimizer)
    (original repl sample_match : text) : Z :=
  let before_sample := sub_template original repl sample_match in
  (_count_tokens self sample_match - _count_tokens self before_sample)%Z.

(** The body of the loop for one entry of [sorted_replacements]. *)
Definition optimize_step (self : TokenAwareOptimizer) (st : LoopState)
    (entry : text * EfficientReplacement) : LoopState :=
  let original := fst entry in
  let repl := replacement (snd entry) in
  let matches := findall original (optimized_text st) in
  match matches with
  | [] => st
  | sample_match :: _ =>
      let saved := actual_savings self original repl sample_match in
      if (saved >=? min_savings self)%Z then
        let n := Z.of_nat (List.length matches) in
        {| optimized_text := sub original (replace_func repl) (optimized_text st);
           total_savings := (total_savings st + saved * n)%Z;
           replacements_made :=
             replacements_made st ++
             [ {| rm_original := original;
                  rm_replacement := repl;
                  rm_count := n;
                  rm_tokens_saved := (saved * n)%Z |} ] |}
      else st
  end.

Definition sorted_replacements (self : TokenAwareOptimizer)
  : list (text * EfficientReplacement) :=
  sorted_desc (fun x => savings (snd x)) (token_efficient_map self).

Definition optimize_loop (self : TokenAwareOptimizer) (s : text) : LoopState :=
  fold_left (optimize_step self) (sorted_replacements self)
    {| optimized_text := s; total_savings := 0; replacements_made := [] |}.

(** The two [re.sub] calls after the loop. *)
Definition cleanup (s : text) : text := unspace_punct (collapse_spaces s).

Definition optimize_text (self : TokenAwareOptimizer) (s : text)
  : text * OptimizationReport :=
  let st := optimize_loop self s in
  let cleaned := cleanup (optimized_text st) in
  (strip cleaned,
   {| total_tokens_saved := total_savings st;
      replacements := replacements_made st;
      report_original_tokens := _count_tokens self s;
      report_optimized_tokens := _count_tokens self cleaned |}).

Record PotentialOptimization : Type := {
  po_phrase : text;
  po_suggested : text;
  po_occurrences : Z;
  po_tokens_per_occurrence : Z;
  po_total_savings : Z
}.

(** The entry [analyze_text] appends for a phrase that matches. *)
Definition potential_of (s : text) (entry : text * EfficientReplacement)
  : list PotentialOptimization :=
  let matches := findall (fst entry) s in
  if nonempty_list matches then
    [ {| po_phrase := fst entry;
         po_suggested := replacement (snd entry);
         po_occurrences := Z.of_nat (List.length matches);
         po_tokens_per_occurrence := savings (snd entry);
         po_total_savings :=
           (savings (snd entry) * Z.of_nat (List.length matches))%Z |} ]
  else [].

Definition analyze_text (self : TokenAwareOptimizer) (s : text)
  : list PotentialOptimization :=
  sorted_desc po_total_savings
    (flat_map (potential_of s) (token_efficient_map self)).

(** ** [TokenOptimizationPipeline] *)

Module Pipeline.

(** The exceptions the orchestrator can meet. *)
Inductive exn : Type :=
| ZeroDivisionError
| JSONDecodeError
| TypeError
| KeyError
| CalledProcessError (returncode : Z) (stderr : text).

Inductive outcome (A : Type) : Type :=
| Return (a : A)
| Raise (e : exn).

Arguments Return {A} a.
Arguments Raise {A} e.

(** A value decoded by [json.loads].  Numbers are the integers (the
    analyzer prints no other). *)
#[warnings="-register-all"]
Inductive json : Type :=
| JNull
| JBool (b : bool)
| JInt (n : Z)
| JStr (s : text)
| JArr (items : list json)
| JObj (members : list (text * json)).

Inductive StageName : Type :=
| spell_check
| abbreviations
| token_aware
| ml_paraphrase.

Definition StageName_eqb (a b : StageName) : bool :=
  match a, b with
  | spell_check, spell_check
  | abbreviations, abbreviations
  | token_aware, token_aware
  | ml_paraphrase, ml_paraphrase => true
  | _, _ => false
  end.

(** The lines printed to [sys.stderr], without the elapsed times. *)
Inductive log_event : Type :=
| LogSkipping (stage_name : StageName)
| LogStageOk (stage_name : StageName) (input_tokens output_tokens delta : Z)
| LogStageFailed (stage_name : StageName) (stderr : text)
| LogStarting
| LogOriginal (chars tokens : Z)
| LogRule
| LogFinal (chars tokens : Z)
| LogTotalReduction (reduction : Z) (percent : Q)
| LogAnalyzing
| LogPotentialHeader
| LogPotential (phrase suggested occurrences total_savings : json)
| LogTotalPotential (total_savings : Z)
| LogNoneFound.

(** The configuration file, loaded.  [max_length_ratio] is a float in the
    file and is kept as the text [str()] gives for it. *)
Record Config : Type := {
  tokenizer_model : string;
  enabled : StageName -> bool;
  max_edit_distance : Z;
  custom_dict_path : string;
  min_token_savings : Z;
  paraphrase_model : string;
  max_length_ratio : string
}.

(** [subprocess.CompletedProcess]. *)
Record CompletedProcess : Type := {
  returncode : Z;
  stdout : text;
  stderr : text
}.

(** What the process runs in: the interpreter path, the outcome of running
    a command line on an input (the interpreter itself starts and its
    output is text), and the decoder of the [json] module ([None] for a
    document it rejects). *)
Record Host : Type := {
  sys_executable : string;
  subprocess_run : list string -> text -> CompletedProcess;
  json_loads : text -> option json
}.

Record TokenOptimizationPipeline : Type := {
  host : Host;
  config : Config;
  pipeline_tokenizer : tokenizer;
  scripts_dir : string
}.

(** Computations that print and may raise. *)
Definition M (A : Type) : Type := outcome A * list log_event.

Definition ret {A : Type} (a : A) : M A := (Return a, []).

Definition raise {A : Type} (e : exn) : M A := (Raise e, []).

Definition print (ev : log_event) : M unit := (Return tt, [ev]).

Definition bind {A B : Type} (m : M A) (f : A -> M B) : M B :=
  match m with
  | (Return a, l) => let (r, l') := f a in (r, l ++ l')
  | (Raise e, l) => (Raise e, l)
  end.

Notation "x <- m ;; k" := (bind m (fun x => k))
  (at level 61, m at next level, right associativity).
Notation "m ;;; k" := (bind m (fun _ => k))
  (at level 61, right associativity).

Definition count_tokens (self : TokenOptimizationPipeline) (s : text) : Z :=
  Z.of_nat (List.length (pipeline_tokenizer self s)).

Definition len (s : text) : Z := Z.of_nat (List.length s).

(** [str(n)] for an integer. *)
Definition str (n : Z) : string := NilZero.string_of_int (Z.to_int n).

(** [subprocess.run(cmd, input=..., capture_output=True, text=True,
    check=True)]. *)
Definition subprocess_run_check (h : Host) (cmd : list string) (input : text)
  : outcome CompletedProcess :=
  let result := subprocess_run h cmd input in
  if (returncode result =? 0)%Z then Return result
  else Raise (CalledProcessError (returncode result) (stderr result)).

Definition stage_cmd (self : TokenOptimizationPipeline)
    (script_name : string) (extra_args : list string) : list string :=
  let script_path := (scripts_dir self ++ "/" ++ script_name)%string in
  [sys_executable (host self); script_path] ++ extra_args.

Definition run_stage (self : TokenOptimizationPipeline)
    (stage_name : StageName) (script_name : string) (input_text : text)
    (extra_args : list string) : M text :=
  if negb (enabled (config self) stage_name) then
    print (LogSkipping stage_name) ;;;
    ret input_text
  else
    let cmd := stage_cmd self script_name extra_args in
    match subprocess_run_check (host self) cmd input_text with
    | Return result =>
        let output_text := stdout result in
        let input_tokens := count_tokens self input_text in
        let output_tokens := count_tokens self output_text in
        print (LogStageOk stage_name input_tokens output_tokens
                 (input_tokens - output_tokens)) ;;;
        ret output_text
    | Raise (CalledProcessError _ err) =>
        print (LogStageFailed stage_name err) ;;;
        ret input_text
    | Raise e => raise e
    end.

(** The script and the arguments [run_pipeline] gives each stage. *)
Definition stage_script (stage_name : StageName) : string :=
  match stage_name with
  | spell_check => "01_spell_check.py"
  | abbreviations => "02_abbreviations.py"
  | token_aware => "03_token_aware.py"
  | ml_paraphrase => "04_ml_paraphrase.py"
  end.

Definition stage_args (c : Config) (stage_name : StageName) : list string :=
  match stage_name with
  | spell_check => ["-d"; str (max_edit_distance c)]
  | abbreviations => ["-c"; custom_dict_path c]
  | token_aware => ["-m"; tokenizer_model c; "-s"; str (min_token_savings c)]
  | ml_paraphrase => ["-m"; paraphrase_model c; "-r"; max_length_ratio c]
  end%string.

(** One of the four blocks [if ...["enabled"]: current_text = run_stage(...)]. *)
Definition stage_block (self : TokenOptimizationPipeline)
    (stage_name : StageName) (current_text : text) : M text :=
  if enabled (config self) stage_name then
    run_stage self stage_name (stage_script stage_name) current_text
      (stage_args (config self) stage_name)
  else ret current_text.

(** [a / b] on integers. *)
Definition true_div (a b : Z) : outcome Q :=
  if (b =? 0)%Z then Raise ZeroDivisionError
  else Return (inject_Z a / inject_Z b)%Q.

Definition run_pipeline (self : TokenOptimizationPipeline) (input_text : text)
  : M text :=
  print LogStarting ;;;
  let original_tokens := count_tokens self input_text in
  print (LogOriginal (len input_text) original_tokens) ;;;
  print LogRule ;;;
  current_text <- stage_block self spell_check input_text ;;
  current_text <- stage_block self abbreviations current_text ;;
  current_text <- stage_block self token_aware current_text ;;
  current_text <- stage_block self ml_paraphrase current_text ;;
  let final_tokens := count_tokens self current_text in
  print LogRule ;;;
  print (LogFinal (len current_text) final_tokens) ;;;
  ratio <- (true_div final_tokens original_tokens, []) ;;
  print (LogTotalReduction (original_tokens - final_tokens)
           ((1 - ratio) * 100)%Q) ;;;
  ret current_text.

(** Truth value of a decoded document. *)
Definition truthy (v : json) : bool :=
  match v with
  | JNull => false
  | JBool b => b
  | JInt n => negb (n =? 0)%Z
  | JStr s => nonempty s
  | JArr items => nonempty_list items
  | JObj members => nonempty_list members
  end.

(** [optimizations[:10]]: a list is cut to its first ten items; a string
    gives its first ten characters, each a string; anything else cannot be
    sliced. *)
Definition top10 (v : json) : outcome (list json) :=
  match v with
  | JArr items => Return (firstn 10 items)
  | JStr s => Return (map (fun c => JStr [c]) (firstn 10 s))
  | _ => Raise TypeError
  end.

(** [opt[key]] with a string key. *)
Definition getitem (opt : json) (key : string) : outcome json :=
  match opt with
  | JObj members =>
      match dict_get (txt key) members with
      | Some v => Return v
      | None => Raise KeyError
      end
  | _ => Raise TypeError
  end.

(** [acc + v] inside [sum]. *)
Definition add_json (acc : Z) (v : json) : outcome Z :=
  match v with
  | JInt n => Return (acc + n)%Z
  | JBool b => Return (acc + (if b then 1 else 0))%Z
  | _ => Raise TypeError
  end.

Fixpoint sum_total_savings (acc : Z) (opts : list json) : outcome Z :=
  match opts with
  | [] => Return acc
  | opt :: opts' =>
      match getitem opt "total_savings" with
      | Return v =>
          match add_json acc v with
          | Return acc' => sum_total_savings acc' opts'
          | Raise e => Raise e
          end
      | Raise e => Raise e
      end
  end.

Definition print_potential (opt : json) : M unit :=
  phrase <- (getitem opt "phrase", []) ;;
  suggested <- (getitem opt "suggested", []) ;;
  occurrences <- (getitem opt "occurrences", []) ;;
  total <- (getitem opt "total_savings", []) ;;
  print (LogPotential phrase suggested occurrences total).

Fixpoint print_potentials (opts : list json) : M unit :=
  match opts with
  | [] => ret tt
  | opt :: opts' => print_potential opt ;;; print_potentials opts'
  end.

Definition analyze_cmd (self : TokenOptimizationPipeline) : list string :=
  [ sys_executable (host self);
    (scripts_dir self ++ "/" ++ "03_token_aware.py")%string;
    "-a"%string; "-m"%string; tokenizer_model (config self) ].

Definition analyze_text (self : TokenOptimizationPipeline) (s : text)
  : M unit :=
  print LogAnalyzing ;;;
  let result := subprocess_run (host self) (analyze_cmd self) s in
  if (returncode result =? 0)%Z then
    match json_loads (host self) (stdout result) with
    | None => raise JSONDecodeError
    | Some optimizations =>
        if truthy optimizations then
          print LogPotentialHeader ;;;
          top <- (top10 optimizations, []) ;;
          total_savings <- (sum_total_savings 0 top, []) ;;
          print_potentials top ;;;
          print (LogTotalPotential total_savings)
        else print LogNoneFound
    end
  else ret tt.

(** *** A decoder for the examples

    [json_decode] reads the documents of the JSON grammar without
    fractions, exponents and [\u] escapes (it rejects those), which covers
    what the analyzer prints.  The statements below take the decoder from
    the [Host]; this one instantiates it. *)

Definition json_ws (c : ascii) : bool :=
  existsb (N.eqb (code c)) [32; 9; 10; 13]%N.

Fixpoint skip_ws (s : text) : text :=
  match s with
  | [] => []
  | c :: s' => if json_ws c then skip_ws s' else s
  end.

Fixpoint parse_digits (acc : Z) (s : text) : Z * text :=
  match s with
  | [] => (acc, [])
  | c :: s' =>
      if char_isdigit c
      then parse_digits (acc * 10 + Z.of_N (code c - 48)) s'
      else (acc, s)
  end.

Definition starts_fraction (s : text) : bool :=
  match s with
  | c :: _ => existsb (Ascii.eqb c) (txt ".eE")
  | [] => false
  end.

(** The digits of an integer, no leading zero before another digit. *)
Definition parse_nat (s : text) : option (Z * text) :=
  match s with
  | c :: s' =>
      if Ascii.eqb c "0" then
        if starts_fraction s' then None else Some (0%Z, s')
      else if char_isdigit c then
        let (n, rest) := parse_digits 0 s in
        if starts_fraction rest then None else Some (n, rest)
      else None
  | [] => None
  end.

Definition dquote : ascii := ascii_of_N 34.

Definition unescape (e : ascii) : option ascii :=
  if Ascii.eqb e dquote then Some dquote
  else if Ascii.eqb e "\" then Some "\"%char
  else if Ascii.eqb e "/" then Some "/"%char
  else if Ascii.eqb e "b" then Some (ascii_of_N 8)
  else if Ascii.eqb e "f" then Some (ascii_of_N 12)
  else if Ascii.eqb e "n" then Some (ascii_of_N 10)
  else if Ascii.eqb e "r" then Some (ascii_of_N 13)
  else if Ascii.eqb e "t" then Some (ascii_of_N 9)
  else None.

(** The characters of a string up to its closing quote. *)
Fixpoint parse_string (s : text) : option (text * text) :=
  match s with
  | [] => None
  | c :: s' =>
      if Ascii.eqb c dquote then Some ([], s')
      else if Ascii.eqb c "\" then
        match s' with
        | e :: s'' =>
            match unescape e, parse_string s'' with
            | Some ch, Some (body, rest) => Some (ch :: body, rest)
            | _, _ => None
            end
        | [] => None
        end
      else if (code c <? 32)%N then None
      else
        match parse_string s' with
        | Some (body, rest) => Some (c :: body, rest)
        | None => None
        end
  end.

Fixpoint parse_value (fuel : nat) (s : text) : option (json * text) :=
  match fuel with
  | O => None
  | S fuel' =>
      match skip_ws s with
      | "n" :: "u" :: "l" :: "l" :: rest => Some (JNull, rest)
      | "t" :: "r" :: "u" :: "e" :: rest => Some (JBool true, rest)
      | "f" :: "a" :: "l" :: "s" :: "e" :: rest => Some (JBool false, rest)
      | "-" :: rest =>
          match parse_nat rest with
          | Some (n, rest') => Some (JInt (- n), rest')
          | None => None
          end
      | "[" :: rest =>
          match skip_ws rest with
          | "]" :: rest' => Some (JArr [], rest')
          | _ =>
              match parse_items fuel' rest with
              | Some (items, rest') => Some (JArr items, rest')
              | None => None
              end
          end
      | "{" :: rest =>
          match skip_ws rest with
          | "}" :: rest' => Some (JObj [], rest')
          | _ =>
              match parse_members fuel' rest with
              | Some (members, rest') =>
                  Some (JObj (fold_left
                                (fun d kv => dict_set (fst kv) (snd kv) d)
                                members []), rest')
              | None => None
              end
          end
      | [] => None
      | (c :: rest) as other =>
          if Ascii.eqb c dquote then
            match parse_string rest with
            | Some (body, rest') => Some (JStr body, rest')
            | None => None
            end
          else
            match parse_nat other with
            | Some (n, rest') => Some (JInt n, rest')
            | None => None
            end
      end
  end%char

with parse_items (fuel : nat) (s : text) : option (list json * text) :=
  match fuel with
  | O => None
  | S fuel' =>
      match parse_value fuel' s with
      | Some (v, rest) =>
          match skip_ws rest with
          | "," :: rest' =>
              match parse_items fuel' rest' with
              | Some (vs, rest'') => Some (v :: vs, rest'')
              | None => None
              end
          | "]" :: rest' => Some ([v], rest')
          | _ => None
          end
      | None => None
      end
  end%char

with parse_members (fuel : nat) (s : text)
  : option (list (text * json) * text) :=
  match fuel with
  | O => None
  | S fuel' =>
      match skip_ws s with
      | [] => None
      | c :: rest =>
          if negb (Ascii.eqb c dquote) then None else
          match parse_string rest with
          | Some (key, rest1) =>
              match skip_ws rest1 with
              | ":" :: rest2 =>
                  match parse_value fuel' rest2 with
                  | Some (v, rest3) =>
                      match skip_ws rest3 with
                      | "," :: rest4 =>
                          match parse_members fuel' rest4 with
                          | Some (kvs, rest5) => Some ((key, v) :: kvs, rest5)
                          | None => None
                          end
                      | "}" :: rest4 => Some ([(key, v)], rest4)
                      | _ => None
                      end
                  | None => None
                  end
              | _ => None
              end
          | None => None
          end
      end
  end%char.

Definition json_decode (s : text) : option json :=
  match parse_value (2 * List.length s + 2) s with
  | Some (v, rest) =>
      match skip_ws rest with
      | [] => Some v
      | _ :: _ => None
      end
  | None => None
  end.

End Pipeline.



(** * Properties *)

(** ** Characters and the pattern scan *)

Lemma text_eqb_eq (a b : text) : text_eqb a b = true <-> a = b.
Proof.
  revert b; induction a as [|x a IH]; intros [|y b]; simpl;
    try (split; [discriminate | discriminate]); try tauto.
  rewrite andb_true_iff, Ascii.eqb_eq, IH.
  split; [intros [-> ->]; reflexivity | intros H; inversion H; auto].
Qed.

Lemma text_eqb_refl (a : text) : text_eqb a a = true.
Proof. apply text_eqb_eq; reflexivity. Qed.

Lemma text_eqb_neq (a b : text) : a <> b -> text_eqb a b = false.
Proof.
  intros H; destruct (text_eqb a b) eqn:E; auto.
  apply text_eqb_eq in E; contradiction.
Qed.

Lemma char_isalnum_isword (c : ascii) :
  char_isalnum c = true -> char_isword c = true.
Proof. unfold char_isword; intros ->; reflexivity. Qed.

Lemma char_lower_isword (c : ascii) :
  char_isword (char_lower c) = char_isword c.
Proof. destruct c as [[] [] [] [] [] [] [] []]; reflexivity. Qed.

Lemma match_literal_spec (phrase s m rest : text) :
  match_literal phrase s = Some (m, rest) ->
  s = m ++ rest /\ str_lower m = str_lower phrase.
Proof.
  revert s m rest; induction phrase as [|p phrase IH]; intros s m rest; simpl.
  - intros H; inversion H; subst; auto.
  - destruct s as [|c s']; [discriminate|].
    destruct (Ascii.eqb (char_lower c) (char_lower p)) eqn:E; [|discriminate].
    destruct (match_literal phrase s') as [[m' rest']|] eqn:E'; [|discriminate].
    intros H; inversion H; subst; clear H.
    apply IH in E' as [-> Hl]. apply Ascii.eqb_eq in E.
    simpl; split; [reflexivity | congruence].
Qed.

Lemma match_at_spec (phrase : text) (prev : option ascii) (s m rest : text) :
  match_at phrase prev s = Some (m, rest) ->
  s = m ++ rest /\ str_lower m = str_lower phrase /\
  word_boundary prev (hd_error s) = true /\
  word_boundary (last_seen prev m) (hd_error rest) = true.
Proof.
  unfold match_at.
  destruct (word_boundary prev (hd_error s)) eqn:B1; [|discriminate].
  destruct (match_literal phrase s) as [[m' rest']|] eqn:L; [|discriminate].
  destruct (word_boundary (last_seen prev m') (hd_error rest')) eqn:B2;
    [|discriminate].
  intros H; inversion H; subst; clear H.
  apply match_literal_spec in L as [-> Hl]; auto.
Qed.

Lemma last_seen_app (prev : option ascii) (a b : text) :
  last_seen prev (a ++ b) = last_seen (last_seen prev a) b.
Proof. revert prev; induction a as [|x a IH]; intros prev; simpl; auto. Qed.

(** Passing over the rest of a match leads to the scan of what follows. *)
Lemma re_scan_skip (phrase m' rest : text) (prev : option ascii) :
  re_scan phrase prev (List.length m') (m' ++ rest) =
  re_scan phrase (last_seen prev m') 0 rest.
Proof.
  revert prev; induction m' as [|a m' IH]; intros prev; simpl; auto.
Qed.

(** The scan, one attempt at a time. *)
Lemma re_scan_eq (phrase : text) (prev : option ascii) (s : text) :
  re_scan phrase prev 0 s =
  match match_at phrase prev s with
  | Some ((_ :: _) as m, rest) =>
      Hit m :: re_scan phrase (last_seen prev m) 0 rest
  | Some ([], _) =>
      Hit [] :: match s with
                | [] => []
                | c :: s' => Lit c :: re_scan phrase (Some c) 0 s'
                end
  | None =>
      match s with
      | [] => []
      | c :: s' => Lit c :: re_scan phrase (Some c) 0 s'
      end
  end.
Proof.
  destruct s as [|c s']; simpl.
  - destruct (match_at phrase prev []) as [[m rest]|] eqn:E; auto.
    apply match_at_spec in E as [E _].
    destruct m; [reflexivity | discriminate].
  - destruct (match_at phrase prev (c :: s')) as [[[|c0 m'] rest]|] eqn:E; auto.
    apply match_at_spec in E as [E _]. simpl in E. inversion E; subst.
    rewrite re_scan_skip. reflexivity.
Qed.

Lemma seg_text_app (a b : list segment) :
  seg_text (a ++ b) = seg_text a ++ seg_text b.
Proof. apply flat_map_app. Qed.

Lemma seg_hits_app (a b : list segment) :
  seg_hits (a ++ b) = seg_hits a ++ seg_hits b.
Proof. apply flat_map_app. Qed.

(** The scan cuts the subject and loses nothing. *)
Lemma seg_text_re_scan (phrase s : text) (prev : option ascii) :
  seg_text (re_scan phrase prev 0 s) = s.
Proof.
  remember (List.length s) as n eqn:Hn.
  assert (Hle : (List.length s <= n)%nat) by lia. clear Hn.
  revert s prev Hle; induction n as [|n IH]; intros s prev Hle.
  - destruct s; [|simpl in Hle; lia].
    simpl. destruct (match_at phrase prev []); reflexivity.
  - rewrite re_scan_eq.
    destruct (match_at phrase prev s) as [[[|c0 m'] rest]|] eqn:E.
    + destruct s as [|c s']; [reflexivity|].
      simpl. rewrite IH; [reflexivity | simpl in Hle; lia].
    + apply match_at_spec in E as [-> _].
      cbn [seg_text flat_map]. fold (seg_text (re_scan phrase
        (last_seen prev (c0 :: m')) 0 rest)).
      rewrite IH; [reflexivity|].
      rewrite length_app in Hle; simpl in Hle; lia.
    + destruct s as [|c s']; [reflexivity|].
      simpl. rewrite IH; [reflexivity | simpl in Hle; lia].
Qed.

(** Every match the scan reports is a successful attempt of the pattern at
    the place where it stands in the subject. *)
Lemma re_scan_hit (phrase : text) (n : nat) :
  forall (s : text) (prev : option ascii),
    (List.length s <= n)%nat ->
    forall segs1 m segs2,
      re_scan phrase prev 0 s = segs1 ++ Hit m :: segs2 ->
      s = seg_text segs1 ++ m ++ seg_text segs2 /\
      match_at phrase (last_seen prev (seg_text segs1)) (m ++ seg_text segs2)
      = Some (m, seg_text segs2).
Proof.
  induction n as [|n IH]; intros s prev Hle segs1 m segs2 Hscan.
  - destruct s; [|simpl in Hle; lia].
    simpl in Hscan.
    destruct (match_at phrase prev []) as [[m0 rest]|] eqn:E.
    + destruct segs1 as [|g [|g' segs1]]; simpl in Hscan; try discriminate.
      injection Hscan as <- <-. apply match_at_spec in E as E'.
      destruct E' as [E' _]. symmetry in E'. apply app_eq_nil in E' as [-> ->].
      simpl. auto.
    + destruct segs1; discriminate.
  - rewrite re_scan_eq in Hscan.
    destruct (match_at phrase prev s) as [[[|c0 m'] rest]|] eqn:E.
    + apply match_at_spec in E as E'. destruct E' as [E' _].
      simpl in E'; subst rest.
      destruct segs1 as [|g segs1]; simpl in Hscan.
      * injection Hscan as <- <-.
        assert (Hs : seg_text
                  match s with
                  | [] => []
                  | c :: s' => Lit c :: re_scan phrase (Some c) 0 s'
                  end = s).
        { destruct s as [|c s']; [reflexivity|].
          simpl. now rewrite seg_text_re_scan. }
        rewrite Hs. simpl. auto.
      * injection Hscan as <- Hrest.
        destruct s as [|c s']; [destruct segs1; discriminate|].
        destruct segs1 as [|g segs1]; simpl in Hrest; [discriminate|].
        injection Hrest as <- Hrest.
        apply IH in Hrest as [Hs Hm]; [|simpl in Hle; lia].
        simpl. split; [now f_equal|exact Hm].
    + apply match_at_spec in E as E'. destruct E' as [E' _]. subst s.
      destruct segs1 as [|g segs1]; simpl in Hscan.
      * injection Hscan as <- <-.
        rewrite seg_text_re_scan. simpl. auto.
      * injection Hscan as <- Hrest.
        apply IH in Hrest as [Hs Hm];
          [|rewrite length_app in Hle; simpl in Hle; lia].
        cbn [seg_text flat_map]. fold (seg_text segs1).
        rewrite last_seen_app. split; [|exact Hm].
        rewrite <- app_assoc. now f_equal.
    + destruct s as [|c s']; [destruct segs1; discriminate|].
      destruct segs1 as [|g segs1]; simpl in Hscan; [discriminate|].
      injection Hscan as <- Hrest.
      apply IH in Hrest as [Hs Hm]; [|simpl in Hle; lia].
      simpl. split; [now f_equal|exact Hm].
Qed.

Definition opt_isalnum (o : option ascii) : bool :=
  match o with
  | Some c => char_isalnum c
  | None => false
  end.

(** The phrase begins and ends with a word character. *)
Definition word_edged (phrase : text) : bool :=
  opt_isword (hd_error phrase) && opt_isword (last_seen None phrase).

Lemma opt_isalnum_isword (o : option ascii) :
  opt_isword o = false -> opt_isalnum o = false.
Proof.
  destruct o as [c|]; simpl; auto.
  destruct (char_isalnum c) eqn:E; auto.
  now rewrite (char_isalnum_isword _ E).
Qed.

Lemma last_seen_lower (m p : text) (a b : option ascii) :
  opt_isword a = opt_isword b ->
  str_lower m = str_lower p ->
  opt_isword (last_seen a m) = opt_isword (last_seen b p).
Proof.
  revert p a b; induction m as [|x m IH]; intros [|y p] a b Hab H;
    simpl in *; try discriminate; auto.
  inversion H. apply IH; auto. simpl.
  now rewrite <- (char_lower_isword x), <- (char_lower_isword y), H1.
Qed.

Lemma last_seen_cons (prev : option ascii) (m : text) :
  m <> [] -> last_seen prev m = last_seen None m.
Proof. destruct m; [congruence | reflexivity]. Qed.

(** A match of a phrase with word characters at both ends has no word
    character next to it. *)
Lemma match_at_edges (phrase : text) (prev : option ascii) (m post : text) :
  word_edged phrase = true ->
  match_at phrase prev (m ++ post) = Some (m, post) ->
  str_lower m = str_lower phrase /\
  opt_isword prev = false /\ opt_isword (hd_error post) = false.
Proof.
  unfold word_edged. rewrite andb_true_iff. intros [Hh Hl] Hm.
  apply match_at_spec in Hm as (_ & Hlow & B1 & B2).
  assert (Hne : m <> []).
  { intros ->. destruct phrase; [discriminate Hh | discriminate Hlow]. }
  split; [exact Hlow|]. unfold word_boundary in *. split.
  - assert (Hw : opt_isword (hd_error (m ++ post)) = true).
    { destruct m as [|x m]; [congruence|]. destruct phrase as [|y p];
        [discriminate|]. simpl in *. inversion Hlow.
      now rewrite <- (char_lower_isword x), H0, char_lower_isword. }
    rewrite Hw in B1. now destruct (opt_isword prev).
  - rewrite (last_seen_cons prev Hne) in B2.
    rewrite (@last_seen_lower m phrase None None eq_refl Hlow), Hl in B2.
    now destruct (opt_isword (hd_error post)).
Qed.

(** ** Dictionaries and sorting *)

Section Dict.

Context {V : Type}.

Lemma dict_set_fresh (k : text) (v : V) (d : dict V) :
  ~ In k (dict_keys d) -> dict_set k v d = d ++ [(k, v)].
Proof.
  induction d as [|[k' v'] d IH]; simpl; intros Hn; auto.
  rewrite text_eqb_neq by (intros ->; apply Hn; auto).
  rewrite IH; auto.
Qed.

Lemma dict_set_In (k k0 : text) (v v0 : V) (d : dict V) :
  In (k, v) (dict_set k0 v0 d) -> (k = k0 /\ v = v0) \/ In (k, v) d.
Proof.
  induction d as [|[k' v'] d IH]; simpl.
  - intros [H|[]]; inversion H; auto.
  - destruct (text_eqb k0 k') eqn:E; simpl.
    + apply text_eqb_eq in E; subst k'.
      intros [H|H]; [inversion H; auto | auto].
    + intros [H|H]; [auto | apply IH in H; tauto].
Qed.

End Dict.

Fixpoint nodupb (l : list text) : bool :=
  match l with
  | [] => true
  | x :: l' => negb (existsb (text_eqb x) l') && nodupb l'
  end.

Lemma nodupb_NoDup (l : list text) : nodupb l = true -> NoDup l.
Proof.
  induction l as [|x l IH]; simpl; [constructor|].
  rewrite andb_true_iff, negb_true_iff. intros [Hx Hl].
  constructor; auto. intros Hin.
  assert (existsb (text_eqb x) l = true); [|congruence].
  apply existsb_exists. exists x. split; auto. apply text_eqb_refl.
Qed.

Lemma default_candidates_NoDup : NoDup (dict_keys default_candidates).
Proof. apply nodupb_NoDup. vm_compute. reflexivity. Qed.

(** What the loop of [_build_efficient_map] keeps of one candidate. *)
Definition efficient_entry (tok : tokenizer) (min : Z) (kv : text * text)
  : list (text * EfficientReplacement) :=
  let info := candidate_info tok (fst kv) (snd kv) in
  if (savings info >=? min)%Z then [(fst kv, info)] else [].

Lemma flat_map_keys (tok : tokenizer) (min : Z) (cands : dict text) :
  forall k, In k (dict_keys (flat_map (efficient_entry tok min) cands)) ->
            In k (dict_keys cands).
Proof.
  unfold dict_keys. intros k Hk. apply in_map_iff in Hk as [[k' v] [<- Hin]].
  apply in_flat_map in Hin as [[k0 r] [Hc He]].
  unfold efficient_entry in He. cbv zeta in He.
  match type of He with
  | context [if ?b then _ else _] => destruct b
  end; [|contradiction].
  destruct He as [He|[]]. inversion He; subst.
  apply in_map_iff. exists (k', r). auto.
Qed.

(** With keys written once, the map is the table filtered, in order. *)
Lemma build_efficient_map_filter (tok : tokenizer) (min : Z)
    (cands : dict text) :
  NoDup (dict_keys cands) ->
  build_efficient_map tok min cands
  = flat_map (efficient_entry tok min) cands.
Proof.
  unfold build_efficient_map.
  enough (G : forall acc : dict EfficientReplacement,
             NoDup (dict_keys cands) ->
             (forall k, In k (dict_keys acc) -> ~ In k (dict_keys cands)) ->
             fold_left
               (fun efficient_map kv =>
                  let info := candidate_info tok (fst kv) (snd kv) in
                  if (savings info >=? min)%Z
                  then dict_set (fst kv) info efficient_map
                  else efficient_map) cands acc
             = acc ++ flat_map (efficient_entry tok min) cands).
  { intros Hnd. apply (G [] Hnd). intros k []. }
  induction cands as [|[k r] cands IH]; intros acc Hnd Hdisj.
  - simpl. now rewrite app_nil_r.
  - simpl in Hnd. inversion Hnd as [|? ? Hk Hnd']; subst.
    cbn [fold_left flat_map]. unfold efficient_entry at 1.
    cbv zeta. cbn [fst snd].
    destruct (savings (candidate_info tok k r) >=? min)%Z; cbn [app].
    + rewrite dict_set_fresh.
      * rewrite IH; auto.
        -- rewrite <- app_assoc. reflexivity.
        -- intros k' Hk'. unfold dict_keys in Hk'. rewrite map_app in Hk'.
           apply in_app_or in Hk' as [Hk'|[<-|[]]]; auto.
           intros Hc. apply (Hdisj k' Hk'). simpl. auto.
      * intros Hin. apply (Hdisj k Hin). simpl. auto.
    + rewrite IH; auto.
      intros k' Hk' Hc. apply (Hdisj k' Hk'). simpl. auto.
Qed.

Lemma token_efficient_map_eq (tok : tokenizer) (min : Z) :
  token_efficient_map (TokenAwareOptimizer_init tok min)
  = flat_map (efficient_entry tok min) default_candidates.
Proof. apply build_efficient_map_filter, default_candidates_NoDup. Qed.

Lemma _build_efficient_map_eq (tok : tokenizer) (min : Z) :
  _build_efficient_map (TokenAwareOptimizer_init tok min)
  = flat_map (efficient_entry tok min) default_candidates.
Proof.
  unfold _build_efficient_map.
  cbn [encode min_savings replacement_candidates TokenAwareOptimizer_init].
  apply build_efficient_map_filter, default_candidates_NoDup.
Qed.

Section Sorting.

Context {A : Type} (key : A -> Z).

Definition desc (a b : A) : Prop := (key a >= key b)%Z.

Lemma insert_desc_perm (x : A) (l : list A) :
  Permutation (insert_desc key x l) (x :: l).
Proof.
  induction l as [|y l IH]; simpl; auto.
  destruct (key y <? key x)%Z; auto.
  rewrite IH. apply perm_swap.
Qed.

Lemma insert_desc_sorted (x : A) (l : list A) :
  StronglySorted desc l -> StronglySorted desc (insert_desc key x l).
Proof.
  induction l as [|y l IH]; simpl; intros Hs.
  - repeat constructor.
  - inversion Hs as [|? ? Hl Hy]; subst.
    destruct (key y <? key x)%Z eqn:E.
    + constructor; auto. apply Z.ltb_lt in E.
      constructor; [unfold desc; lia|].
      eapply Forall_impl; [|exact Hy]. unfold desc. intros; lia.
    + constructor; auto. apply Z.ltb_ge in E.
      eapply Permutation_Forall; [symmetry; apply insert_desc_perm|].
      constructor; auto. unfold desc; lia.
Qed.

Lemma sorted_desc_perm (l : list A) : Permutation (sorted_desc key l) l.
Proof.
  unfold sorted_desc.
  enough (G : forall acc, Permutation
                (fold_left (fun acc x => insert_desc key x acc) l acc)
                (acc ++ l)) by apply (G []).
  induction l as [|x l IH]; intros acc; simpl.
  - now rewrite app_nil_r.
  - rewrite IH, insert_desc_perm. apply Permutation_middle.
Qed.

Lemma sorted_desc_sorted (l : list A) :
  StronglySorted desc (sorted_desc key l).
Proof.
  unfold sorted_desc.
  enough (G : forall acc, StronglySorted desc acc ->
              StronglySorted desc
                (fold_left (fun acc x => insert_desc key x acc) l acc))
    by (apply G; constructor).
  induction l as [|x l IH]; intros acc Hacc; simpl; auto.
  apply IH, insert_desc_sorted, Hacc.
Qed.

Lemma sorted_desc_In (l : list A) (x : A) :
  In x (sorted_desc key l) <-> In x l.
Proof.
  split; apply Permutation_in;
    [apply sorted_desc_perm | symmetry; apply sorted_desc_perm].
Qed.

End Sorting.

(** ** The optimizer *)

Lemma dict_NoDup_functional {V : Type} (d : dict V) (k : text) (a b : V) :
  NoDup (dict_keys d) -> In (k, a) d -> In (k, b) d -> a = b.
Proof.
  induction d as [|[k' v'] d IH]; simpl; [contradiction|].
  intros Hnd Ha Hb. inversion Hnd as [|? ? Hk Hnd']; subst.
  assert (Hkey : forall v, In (k', v) d -> False).
  { intros v Hv. apply Hk. unfold dict_keys. apply in_map_iff.
    exists (k', v). auto. }
  destruct Ha as [Ha|Ha], Hb as [Hb|Hb].
  - congruence.
  - inversion Ha; subst. destruct (Hkey _ Hb).
  - inversion Hb; subst. destruct (Hkey _ Ha).
  - eauto.
Qed.

Lemma efficient_map_In (tok : tokenizer) (min : Z) (k : text)
    (v : EfficientReplacement) :
  In (k, v) (token_efficient_map (TokenAwareOptimizer_init tok min)) <->
  exists repl, In (k, repl) default_candidates /\
               v = candidate_info tok k repl /\ (savings v >= min)%Z.
Proof.
  rewrite token_efficient_map_eq, in_flat_map. split.
  - intros [[k0 r] [Hc He]]. unfold efficient_entry in He. cbv zeta in He.
    cbn [fst snd] in He.
    destruct (savings (candidate_info tok k0 r) >=? min)%Z eqn:E;
      [|contradiction].
    destruct He as [He|[]]. inversion He; subst.
    exists r. repeat split; auto. apply Z.geb_le in E. lia.
  - intros [repl (Hc & -> & Hs)]. exists (k, repl). split; auto.
    unfold efficient_entry. cbv zeta. cbn [fst snd].
    destruct (savings (candidate_info tok k repl) >=? min)%Z eqn:E.
    + left; reflexivity.
    + rewrite Z.geb_leb, Z.leb_gt in E. lia.
Qed.

Lemma optimize_step_no_match (self : TokenAwareOptimizer) (st : LoopState)
    (entry : text * EfficientReplacement) :
  findall (fst entry) (optimized_text st) = [] ->
  optimize_step self st entry = st.
Proof. unfold optimize_step. cbv zeta. now intros ->. Qed.

(** A buffer no phrase of the map matches goes through the loop as it is,
    and nothing is recorded. *)
Lemma optimize_loop_no_match (self : TokenAwareOptimizer) (s : text) :
  (forall e, In e (token_efficient_map self) -> findall (fst e) s = []) ->
  optimize_loop self s
  = {| optimized_text := s; total_savings := 0; replacements_made := [] |}.
Proof.
  intros H. unfold optimize_loop.
  assert (H' : forall e, In e (sorted_replacements self) ->
                         findall (fst e) s = []).
  { intros e He. apply H. unfold sorted_replacements in He.
    now apply sorted_desc_In in He. }
  clear H. induction (sorted_replacements self) as [|e l IH]; simpl; auto.
  rewrite optimize_step_no_match by (simpl; apply H'; simpl; auto).
  apply IH. intros e' He'. apply H'. simpl; auto.
Qed.

(** No phrase of the table matches in [s]. *)
Definition no_candidate_matches (s : text) : bool :=
  forallb (fun k => negb (nonempty_list (findall k s)))
          (dict_keys default_candidates).

Lemma optimize_text_no_match (tok : tokenizer) (min : Z) (s : text) :
  no_candidate_matches s = true ->
  let r := optimize_text (TokenAwareOptimizer_init tok min) s in
  fst r = strip (cleanup s) /\ replacements (snd r) = [] /\
  total_tokens_saved (snd r) = 0%Z.
Proof.
  intros Hno. unfold optimize_text. cbv zeta.
  rewrite optimize_loop_no_match; [simpl; auto|].
  intros [k v] He. simpl.
  unfold no_candidate_matches in Hno. rewrite forallb_forall in Hno.
  assert (Hk : In k (dict_keys default_candidates)).
  { apply (proj1 (efficient_map_In _ _ _ _)) in He as [repl [Hc _]].
    unfold dict_keys. apply in_map_iff. exists (k, repl). auto. }
  apply Hno in Hk. destruct (findall k s); [reflexivity | discriminate].
Qed.

(** C3.  At construction, the savings of a candidate of the table are the
    tokens of its phrase minus the tokens of its replacement, an empty
    replacement counting for zero tokens; the candidate is an entry of the
    efficient map exactly when these savings reach [min_savings], it is then
    the only entry under its phrase, and every entry of the map built has
    savings of at least [min_savings]. *)
Theorem build_efficient_map_threshold
    (tok : tokenizer) (min : Z) (original repl : text) :
  In (original, repl) default_candidates ->
  let self := TokenAwareOptimizer_init tok min in
  let info := candidate_info tok original repl in
  savings info
  = (_count_tokens self original
     - (if nonempty repl then _count_tokens self repl else 0))%Z /\
  (repl = [] -> replacement_tokens info = 0%Z) /\
  (In (original, info) (token_efficient_map self)
   <-> (savings info >= min_savings self)%Z) /\
  (forall info', In (original, info') (token_efficient_map self) ->
                 info' = info) /\
  (forall k v, In (k, v) (_build_efficient_map self) ->
               (savings v >= min_savings self)%Z).
Proof.
  intros Hc self info.
  split; [reflexivity|]. split; [|split; [split|split]].
  - intros ->. reflexivity.
  - intros Hin.
    apply (proj1 (efficient_map_In _ _ _ _)) in Hin as [r (Hr & Hv & Hs)].
    exact Hs.
  - intros Hs. apply (proj2 (efficient_map_In _ _ _ _)). exists repl. auto.
  - intros info' Hin.
    apply (proj1 (efficient_map_In _ _ _ _)) in Hin as [r (Hr & -> & Hs)].
    now rewrite (@dict_NoDup_functional _ _ _ _ _ default_candidates_NoDup Hr Hc).
  - intros k v Hin. unfold self in Hin.
    rewrite _build_efficient_map_eq, <- token_efficient_map_eq in Hin.
    apply (proj1 (efficient_map_In _ _ _ _)) in Hin as [r (Hr & Hv & Hs)].
    exact Hs.
Qed.

Lemma build_efficient_map_threshold_witness :
  In (txt "greater than", txt ">") default_candidates /\
  In (txt "greater than",
      candidate_info MockTokenizer (txt "greater than") (txt ">"))
     (token_efficient_map (TokenAwareOptimizer_init MockTokenizer 1)).
Proof.
  assert (Hc : In (txt "greater than", txt ">") default_candidates)
    by (apply (nth_error_In _ 22); reflexivity).
  split; [exact Hc|].
  pose proof (@build_efficient_map_threshold MockTokenizer 1 _ _ Hc) as H.
  cbv zeta in H. destruct H as (_ & _ & [_ H] & _).
  apply H. vm_compute. discriminate.
Defined.

(** C9.  Matching is whole-word: wherever the scan behind [findall] and
    [sub] finds a phrase of the table, the matched text is the phrase up to
    letter case and neither the character before it nor the character
    after it is alphanumeric; and [optimize_text] returns "donut shop" as
    it is, with no replacement recorded, whatever the tokenizer and the
    threshold. *)
Theorem whole_word_matching :
  (forall phrase s segs1 m segs2,
      In phrase (dict_keys default_candidates) ->
      re_scan phrase None 0 s = segs1 ++ Hit m :: segs2 ->
      s = seg_text segs1 ++ m ++ seg_text segs2 /\
      str_lower m = str_lower phrase /\
      opt_isalnum (last_seen None (seg_text segs1)) = false /\
      opt_isalnum (hd_error (seg_text segs2)) = false) /\
  (forall tok min,
      let r := optimize_text (TokenAwareOptimizer_init tok min)
                 (txt "donut shop") in
      fst r = txt "donut shop" /\ replacements (snd r) = []).
Proof.
  split.
  - intros phrase s segs1 m segs2 Hin Hscan.
    assert (He : word_edged phrase = true).
    { assert (Hall : forallb word_edged (dict_keys default_candidates) = true)
        by (vm_compute; reflexivity).
      rewrite forallb_forall in Hall. now apply Hall. }
    apply (re_scan_hit phrase (n := List.length s)) in Hscan as [Hs Hm];
      [|lia].
    apply (@match_at_edges _ _ _ _ He) in Hm as (Hlow & Hb & Ha).
    repeat split; auto using opt_isalnum_isword.
  - intros tok min.
    destruct (optimize_text_no_match tok min (txt "donut shop"))
      as (H1 & H2 & _); [vm_compute; reflexivity|].
    cbv zeta. split; [rewrite H1; vm_compute; reflexivity | exact H2].
Qed.

Lemma whole_word_matching_witness :
  txt "Do not, donut" = txt "" ++ txt "Do not" ++ txt ", donut" /\
  opt_isalnum (hd_error (txt ", donut")) = false.
Proof.
  destruct (proj1 whole_word_matching (txt "do not") (txt "Do not, donut")
              [] (txt "Do not")
              (map Lit (txt ", donut")))
    as (H1 & _ & _ & H4).
  - apply (nth_error_In _ 5); reflexivity.
  - vm_compute; reflexivity.
  - split; [reflexivity | exact H4].
Defined.






Lemma char_lower_upper (c : ascii) : char_lower (char_upper c) = char_lower c.
Proof. destruct c as [[] [] [] [] [] [] [] []]; reflexivity. Qed.

Lemma str_lower_upper (s : text) : str_lower (str_upper s) = str_lower s.
Proof.
  unfold str_lower, str_upper. rewrite map_map.
  apply map_ext. apply char_lower_upper.
Qed.

Lemma char_upper_not_lower (c : ascii) : char_islower (char_upper c) = false.
Proof. destruct c as [[] [] [] [] [] [] [] []]; reflexivity. Qed.

Lemma str_upper_no_lower (s : text) :
  existsb char_islower (str_upper s) = false.
Proof.
  induction s as [|c s IH]; [reflexivity|].
  unfold str_upper in *. cbn [map existsb].
  now rewrite char_upper_not_lower, IH.
Qed.

(** The case policy, in the words of the specification. *)
Definition first_isupper (s : text) : bool :=
  match s with
  | c :: _ => char_isupper c
  | [] => false
  end.

Definition capitalize_first (s : text) : text :=
  match s with
  | c :: s' => char_upper c :: s'
  | [] => []
  end.

Definition case_policy (repl matched : text) : text :=
  if str_isupper matched && (1 <? List.length repl)%nat then str_upper repl
  else if first_isupper matched && (1 <? List.length repl)%nat
       then capitalize_first repl
  else repl.

(** C5.  What [optimize_text] puts for a match follows the case policy: the
    replacement in upper case when the match is upper-case and the
    replacement longer than one character, else the replacement with its
    first character in upper case when the match begins in upper case and
    the replacement is longer than one character, else the replacement as
    it is; so a replacement of one character or none is never adjusted.
    Every match of the scan gets this text.  What upper case means is
    stated on the result itself: for an upper-case match the text put has
    no lower-case letter left and is the replacement up to the case of its
    letters; for a match that only begins in upper case the first
    character is no lower-case letter, is the replacement's first up to
    case, and the rest is the replacement's rest.  With the phrase "it is"
    kept, "It Is" becomes "It's" and "IT IS" becomes "IT'S". *)
Theorem replace_func_case_policy :
  (forall repl matched, replace_func repl matched = case_policy repl matched) /\
  (forall repl matched,
      (List.length repl <= 1)%nat -> replace_func repl matched = repl) /\
  (forall original repl s,
      sub original (replace_func repl) s
      = seg_subst (case_policy repl) (re_scan original None 0 s)) /\
  (forall repl matched,
      str_isupper matched = true -> (1 < List.length repl)%nat ->
      existsb char_islower (replace_func repl matched) = false /\
      str_lower (replace_func repl matched) = str_lower repl /\
      List.length (replace_func repl matched) = List.length repl) /\
  (forall r0 r' matched,
      str_isupper matched = false -> first_isupper matched = true ->
      r' <> [] ->
      exists c,
        replace_func (r0 :: r') matched = c :: r' /\
        char_islower c = false /\ char_lower c = char_lower r0) /\
  (forall repl matched,
      str_isupper matched = false -> first_isupper matched = false ->
      replace_func repl matched = repl) /\
  replace_func (txt "it's") (txt "IT IS") = txt "IT'S" /\
  replace_func (txt "it's") (txt "It is") = txt "It's" /\
  replace_func (txt "it's") (txt "it IS") = txt "it's" /\
  fst (optimize_text (TokenAwareOptimizer_init SplitTokenizer 1) (txt "It Is"))
  = txt "It's" /\
  fst (optimize_text (TokenAwareOptimizer_init SplitTokenizer 1) (txt "IT IS"))
  = txt "IT'S".
Proof.
  assert (H : forall repl matched,
             replace_func repl matched = case_policy repl matched).
  { intros repl matched. unfold replace_func, case_policy.
    destruct repl as [|r0 [|r1 repl]]; cbn.
    - now rewrite !andb_false_r.
    - now rewrite !andb_false_r.
    - rewrite !andb_true_r. unfold first_isupper. reflexivity. }
  split; [exact H|].
  split.
  { intros repl matched Hl. rewrite H. unfold case_policy.
    destruct repl as [|r0 [|r1 repl]]; cbn in *; try lia;
      now rewrite !andb_false_r. }
  split.
  { intros original repl s. unfold sub, seg_subst.
    apply flat_map_ext. intros [c|m]; [reflexivity | apply H]. }
  split.
  { intros repl matched Hu Hl. rewrite H. unfold case_policy.
    rewrite Hu. apply Nat.ltb_lt in Hl. rewrite Hl. cbn [andb].
    split; [apply str_upper_no_lower|].
    split; [apply str_lower_upper|].
    unfold str_upper. apply length_map. }
  split.
  { intros r0 r' matched Hu Hf Hr. rewrite H. unfold case_policy.
    rewrite Hu, Hf. cbn [andb].
    destruct r' as [|r1 r']; [contradiction|].
    exists (char_upper r0). cbn.
    split; [reflexivity|].
    split; [apply char_upper_not_lower | apply char_lower_upper]. }
  split.
  { intros repl matched Hu Hf. rewrite H. unfold case_policy.
    now rewrite Hu, Hf. }
  repeat split; vm_compute; reflexivity.
Qed.

Lemma replace_func_case_policy_witness :
  existsb char_islower (replace_func (txt "it's") (txt "IT IS")) = false /\
  str_lower (replace_func (txt "it's") (txt "IT IS")) = txt "it's" /\
  List.length (replace_func (txt "it's") (txt "IT IS")) = 4%nat.
Proof.
  apply (proj1 (proj2 (proj2 (proj2 replace_func_case_policy)))
           (txt "it's") (txt "IT IS")).
  - reflexivity.
  - simpl. lia.
Defined.

(** ** The white-space cleanup *)

Definition starts_space (s : text) : bool :=
  match s with
  | c :: _ => char_isspace c
  | [] => false
  end.

Definition starts_punct (s : text) : bool :=
  match s with
  | c :: _ => char_ispunct c
  | [] => false
  end.

(** Every white-space character is one space, followed neither by white
    space nor by one of the six marks. *)
Fixpoint tidy (s : text) : bool :=
  match s with
  | [] => true
  | c :: s' =>
      (if char_isspace c
       then Ascii.eqb c " " && negb (starts_space s') && negb (starts_punct s')
       else true) && tidy s'
  end.

(** The same without the condition on the marks. *)
Fixpoint single_spaced (s : text) : bool :=
  match s with
  | [] => true
  | c :: s' =>
      (if char_isspace c
       then Ascii.eqb c " " && negb (starts_space s')
       else true) && single_spaced s'
  end.

Lemma collapse_from_spaced (b : bool) (s : text) :
  single_spaced (collapse_from b s) = true /\
  (b = true -> starts_space (collapse_from b s) = false).
Proof.
  revert b; induction s as [|c s IH]; intros b; simpl; [auto|].
  destruct (char_isspace c) eqn:E.
  - destruct b.
    + apply IH.
    + destruct (IH true) as [H1 H2]. simpl. rewrite H1, H2 by reflexivity.
      split; [reflexivity | discriminate].
  - destruct (IH false) as [H1 _]. simpl. rewrite E, H1. auto.
Qed.

Lemma skip_spaces_id (s : text) : starts_space s = false -> skip_spaces s = s.
Proof. destruct s as [|c s]; simpl; auto. now intros ->. Qed.

Lemma unspace_punct_hd (s : text) :
  starts_space s = false -> hd_error (unspace_punct s) = hd_error s.
Proof. destruct s as [|c s]; simpl; auto. now intros ->. Qed.

Lemma unspace_punct_tidy (s : text) :
  single_spaced s = true -> tidy (unspace_punct s) = true.
Proof.
  induction s as [|c s IH]; simpl; auto.
  rewrite andb_true_iff. intros [Hc Hs]. specialize (IH Hs).
  destruct (char_isspace c) eqn:E; simpl.
  - apply andb_true_iff in Hc as [Hc Hn]. apply negb_true_iff in Hn.
    unfold spaces_then_punct. rewrite (skip_spaces_id _ Hn).
    fold (starts_punct s).
    destruct (starts_punct s) eqn:P; simpl; auto.
    rewrite E, Hc, IH. simpl.
    pose proof (unspace_punct_hd _ Hn) as Hh.
    unfold starts_space, starts_punct in *.
    destruct (unspace_punct s) as [|d t], s as [|d' t'];
      simpl in Hh; try discriminate; auto.
    inversion Hh; subst. now rewrite Hn, P.
  - now rewrite E, IH.
Qed.

Lemma tidy_app (a b : text) : tidy (a ++ b) = true ->
  tidy a = true /\ tidy b = true.
Proof.
  induction a as [|c a IH]; simpl; auto.
  rewrite !andb_true_iff. intros [Hc Hab]. destruct (IH Hab) as [Ha Hb].
  repeat split; auto.
  destruct (char_isspace c); auto.
  apply andb_true_iff in Hc as [Hc Hp]. apply andb_true_iff in Hc as [Hc Hs].
  rewrite Hc. destruct a; simpl in *; auto. now rewrite Hs, Hp.
Qed.

Lemma skip_spaces_suffix (s : text) :
  exists a, s = a ++ skip_spaces s /\ forallb char_isspace a = true.
Proof.
  induction s as [|c s (a & Ha & Hsp)]; simpl.
  - exists []. auto.
  - destruct (char_isspace c) eqn:E.
    + exists (c :: a). simpl. rewrite E, Hsp. split; [now f_equal | auto].
    + exists []. auto.
Qed.

Lemma skip_spaces_starts (s : text) : starts_space (skip_spaces s) = false.
Proof.
  induction s as [|c s IH]; simpl; auto.
  destruct (char_isspace c) eqn:E; simpl; auto.
Qed.

(** The last character is white space. *)
Definition ends_space (s : text) : bool := starts_space (rev s).

Lemma strip_ends (s : text) :
  starts_space (strip s) = false /\ ends_space (strip s) = false.
Proof.
  unfold strip, rstrip, lstrip, ends_space. rewrite rev_involutive.
  split; [|apply skip_spaces_starts].
  pose proof (skip_spaces_starts s) as Hs.
  destruct (skip_spaces_suffix (rev (skip_spaces s))) as (a & Ha & Hsp).
  remember (skip_spaces (rev (skip_spaces s))) as t eqn:Ht.
  apply (f_equal (@rev ascii)) in Ha.
  rewrite rev_involutive, rev_app_distr in Ha.
  destruct (rev t) as [|d u] eqn:Er; [reflexivity|].
  rewrite Ha in Hs. simpl in Hs. exact Hs.
Qed.

Lemma strip_tidy (s : text) : tidy s = true -> tidy (strip s) = true.
Proof.
  intros Ht. unfold strip, rstrip, lstrip.
  destruct (skip_spaces_suffix s) as (a & Ha & _).
  rewrite Ha in Ht. apply tidy_app in Ht as [_ Ht].
  destruct (skip_spaces_suffix (rev (skip_spaces s))) as (b & Hb & _).
  apply (f_equal (@rev ascii)) in Hb.
  rewrite rev_involutive, rev_app_distr in Hb.
  rewrite Hb in Ht. now apply tidy_app in Ht as [Ht _].
Qed.

(** A step of the loop either leaves the state alone or records one more
    replacement. *)
Lemma optimize_step_records (self : TokenAwareOptimizer) (st : LoopState)
    (entry : text * EfficientReplacement) :
  optimize_step self st entry = st \/
  exists r, replacements_made (optimize_step self st entry)
            = replacements_made st ++ [r].
Proof.
  unfold optimize_step. cbv zeta.
  destruct (findall (fst entry) (optimized_text st)); auto.
  match goal with |- context [if ?b then _ else _] => destruct b end; auto.
  right. eexists. reflexivity.
Qed.

Lemma optimize_fold_records (self : TokenAwareOptimizer)
    (entries : list (text * EfficientReplacement)) (st : LoopState) :
  let st' := fold_left (optimize_step self) entries st in
  (List.length (replacements_made st)
   <= List.length (replacements_made st'))%nat /\
  (List.length (replacements_made st')
   = List.length (replacements_made st) -> st' = st).
Proof.
  revert st; induction entries as [|e l IH]; intros st; simpl; [auto|].
  destruct (IH (optimize_step self st e)) as [Hle Heq].
  destruct (optimize_step_records self st e) as [Hs|[r Hr]].
  - rewrite Hs in *. auto.
  - rewrite Hr, length_app in *. simpl in *. split; [lia|]. intros; lia.
Qed.

Lemma optimize_loop_unrecorded (self : TokenAwareOptimizer) (s : text) :
  replacements_made (optimize_loop self s) = [] ->
  optimized_text (optimize_loop self s) = s.
Proof.
  intros H. unfold optimize_loop in *.
  destruct (optimize_fold_records self (sorted_replacements self)
              {| optimized_text := s; total_savings := 0;
                 replacements_made := [] |}) as [_ Heq].
  rewrite Heq; [reflexivity|]. now rewrite H.
Qed.

(** C10.  [optimize_text] cleans the white space of whatever buffer the loop
    leaves, replacements or not: in the text returned every white-space
    character is a single space with neither white space nor one of the
    marks , . ! ? ; : after it, and the text neither begins nor ends with
    white space.  With no replacement recorded the text returned is the
    input cleaned, which can differ from the input: "a  b ,c " comes back as
    "a b,c" with an empty list of replacements, whatever the tokenizer and
    the threshold. *)
Theorem cleanup_unconditional :
  (forall self s,
      let r := optimize_text self s in
      fst r = strip (unspace_punct (collapse_spaces
                (optimized_text (optimize_loop self s)))) /\
      tidy (fst r) = true /\
      starts_space (fst r) = false /\ ends_space (fst r) = false /\
      (replacements (snd r) = [] ->
       fst r = strip (unspace_punct (collapse_spaces s)))) /\
  (forall tok min,
      let r := optimize_text (TokenAwareOptimizer_init tok min)
                 (txt "a  b ,c ") in
      fst r = txt "a b,c" /\ replacements (snd r) = [] /\
      fst r <> txt "a  b ,c ").
Proof.
  split.
  - intros self s r. unfold r, optimize_text. cbv zeta.
    cbn [fst snd replacements]. unfold cleanup.
    split; [reflexivity|]. split; [|split; [|split]].
    + apply strip_tidy, unspace_punct_tidy.
      apply (collapse_from_spaced false).
    + apply strip_ends.
    + apply strip_ends.
    + intros H. now rewrite (optimize_loop_unrecorded self s H).
  - intros tok min.
    destruct (optimize_text_no_match tok min (txt "a  b ,c "))
      as (H1 & H2 & _); [vm_compute; reflexivity|].
    cbv zeta. rewrite H1. split; [vm_compute; reflexivity|].
    split; [exact H2|]. vm_compute. discriminate.
Qed.

Lemma cleanup_unconditional_witness :
  fst (optimize_text (TokenAwareOptimizer_init MockTokenizer 1)
         (txt "wait  , what"))
  = txt "wait, what".
Proof.
  destruct (proj1 cleanup_unconditional
              (TokenAwareOptimizer_init MockTokenizer 1)
              (txt "wait  , what")) as (_ & _ & _ & _ & H).
  rewrite H; vm_compute; reflexivity.
Defined.

(** ** Running the optimizer twice *)

Lemma replacement_texts_clear :
  forallb
    (fun kv => no_candidate_matches (snd kv)
               && no_candidate_matches (str_upper (snd kv))
               && no_candidate_matches (capitalize_first (snd kv)))
    default_candidates = true.
Proof. vm_compute. reflexivity. Qed.

(** C7, as stated, fails: with the tokenizer of the test suite and the
    default threshold, the first run turns "greater very than" into
    "greater than" (the filler goes, the cleanup closes the gap), and the
    second run finds the phrase "greater than" there and replaces it. *)
Lemma second_run_finds_match :
  fst (optimize_text (TokenAwareOptimizer_init MockTokenizer 1)
         (txt "greater very than"))
  = txt "greater than" /\
  findall (txt "greater than")
    (fst (optimize_text (TokenAwareOptimizer_init MockTokenizer 1)
            (txt "greater very than")))
  = [txt "greater than"] /\
  replacements
    (snd (optimize_text (TokenAwareOptimizer_init MockTokenizer 1)
            (fst (optimize_text (TokenAwareOptimizer_init MockTokenizer 1)
                    (txt "greater very than")))))
  <> [].
Proof. vm_compute. repeat split; discriminate. Qed.

(** A replacement can also complete its own phrase with the text around
    it: "and/and/or" becomes "and/or", which the second run replaces. *)
Lemma second_run_same_phrase :
  fst (optimize_text (TokenAwareOptimizer_init MockTokenizer 1)
         (txt "and/and/or"))
  = txt "and/or" /\
  fst (optimize_text (TokenAwareOptimizer_init MockTokenizer 1)
         (txt "and/or"))
  = txt "or".
Proof. vm_compute. split; reflexivity. Qed.

(** C7, amended.  No replacement text of the table, as written, in upper
    case or capitalized, contains a whole-word match of a phrase of the
    table; [optimize_text] run on a replacement text alone records no
    replacement, whatever the tokenizer and the threshold. *)
Theorem replacement_text_no_retrigger (tok : tokenizer) (min : Z) :
  Forall
    (fun kv =>
       no_candidate_matches (snd kv) = true /\
       no_candidate_matches (str_upper (snd kv)) = true /\
       no_candidate_matches (capitalize_first (snd kv)) = true /\
       replacements
         (snd (optimize_text (TokenAwareOptimizer_init tok min) (snd kv)))
       = [])
    default_candidates.
Proof.
  apply Forall_forall. intros kv Hin.
  pose proof replacement_texts_clear as H.
  rewrite forallb_forall in H. specialize (H kv Hin).
  apply andb_true_iff in H as [H H3]. apply andb_true_iff in H as [H1 H2].
  repeat split; auto.
  now destruct (optimize_text_no_match tok min (snd kv) H1) as (_ & Hr & _).
Qed.

(** ** The analysis *)

(** C8.  [analyze_text] returns a list and nothing else (the text given is
    read, never rewritten).  The list holds, for each entry of the
    efficient map whose phrase has a match in the text given, and for no
    other, one report with the replacement, the number of matches, the
    savings stored in the map at construction and the product of the two;
    it is in descending order of that product. *)
Theorem analyze_text_report (self : TokenAwareOptimizer) (s : text) :
  let result := analyze_text self s in
  Permutation result
    (flat_map (potential_of s) (token_efficient_map self)) /\
  StronglySorted
    (fun a b => (po_total_savings a >= po_total_savings b)%Z) result /\
  (forall phrase info,
      In (phrase, info) (token_efficient_map self) ->
      findall phrase s <> [] ->
      In {| po_phrase := phrase;
            po_suggested := replacement info;
            po_occurrences := Z.of_nat (List.length (findall phrase s));
            po_tokens_per_occurrence := savings info;
            po_total_savings :=
              (savings info * Z.of_nat (List.length (findall phrase s)))%Z |}
         result) /\
  (forall po,
      In po result ->
      exists info,
        In (po_phrase po, info) (token_efficient_map self) /\
        findall (po_phrase po) s <> [] /\
        po_suggested po = replacement info /\
        po_occurrences po
        = Z.of_nat (List.length (findall (po_phrase po) s)) /\
        po_tokens_per_occurrence po = savings info /\
        po_total_savings po
        = (po_tokens_per_occurrence po * po_occurrences po)%Z).
Proof.
  intros result. unfold result, analyze_text.
  split; [apply sorted_desc_perm|].
  split; [apply (sorted_desc_sorted po_total_savings)|].
  split.
  - intros phrase info Hin Hm. apply sorted_desc_In, in_flat_map.
    exists (phrase, info). split; [exact Hin|].
    unfold potential_of. cbv zeta. cbn [fst snd].
    destruct (findall phrase s); [congruence|]. left. reflexivity.
  - intros po Hin. apply sorted_desc_In, in_flat_map in Hin.
    destruct Hin as ([phrase info] & Hin & Hpo).
    unfold potential_of in Hpo. cbv zeta in Hpo. cbn [fst snd] in Hpo.
    destruct (findall phrase s) as [|m ms] eqn:E; [contradiction|].
    destruct Hpo as [<-|[]]. cbn [po_phrase po_suggested po_occurrences
      po_tokens_per_occurrence po_total_savings].
    exists info. rewrite E. repeat split; auto. discriminate.
Qed.

Lemma analyze_text_report_witness :
  In {| po_phrase := txt "very";
        po_suggested := [];
        po_occurrences := 2;
        po_tokens_per_occurrence := 1;
        po_total_savings := 2 |}
     (analyze_text (TokenAwareOptimizer_init MockTokenizer 1)
        (txt "very, very good")).
Proof.
  destruct (@analyze_text_report (TokenAwareOptimizer_init MockTokenizer 1)
              (txt "very, very good")) as (_ & _ & H & _).
  apply (H (txt "very") (candidate_info MockTokenizer (txt "very") [])).
  - vm_compute. do 10 right. left. reflexivity.
  - vm_compute. discriminate.
Defined.

(** ** The orchestrator *)

(** The four blocks of [run_pipeline], one after the other. *)
Fixpoint run_blocks (self : Pipeline.TokenOptimizationPipeline)
    (stages : list Pipeline.StageName) (buf : text) : Pipeline.M text :=
  match stages with
  | [] => Pipeline.ret buf
  | stage :: rest =>
      Pipeline.bind (Pipeline.stage_block self stage buf)
        (fun buf' => run_blocks self rest buf')
  end.

Definition all_stages : list Pipeline.StageName :=
  [Pipeline.spell_check; Pipeline.abbreviations; Pipeline.token_aware;
   Pipeline.ml_paraphrase].

(** The command line [run_pipeline] runs for a stage. *)
Definition pipeline_cmd (self : Pipeline.TokenOptimizationPipeline)
    (stage : Pipeline.StageName) : list string :=
  Pipeline.stage_cmd self (Pipeline.stage_script stage)
    (Pipeline.stage_args (Pipeline.config self) stage).

(** The configuration of [tests/conftest.py]. *)
Definition test_config : Pipeline.Config :=
  {| Pipeline.tokenizer_model := "gpt2";
     Pipeline.enabled := fun _ => true;
     Pipeline.max_edit_distance := 2;
     Pipeline.custom_dict_path := "config/abbreviations.json";
     Pipeline.min_token_savings := 1;
     Pipeline.paraphrase_model := "t5-small";
     Pipeline.max_length_ratio := "0.8" |}.

(** A host on which every command exits with the given status and
    output. *)
Definition fixed_host (code : Z) (out err : string) : Pipeline.Host :=
  {| Pipeline.sys_executable := "python3";
     Pipeline.subprocess_run :=
       fun _ _ => {| Pipeline.returncode := code;
                     Pipeline.stdout := txt out;
                     Pipeline.stderr := txt err |};
     Pipeline.json_loads := Pipeline.json_decode |}.

Definition test_pipeline (h : Pipeline.Host)
  : Pipeline.TokenOptimizationPipeline :=
  {| Pipeline.host := h;
     Pipeline.config := test_config;
     Pipeline.pipeline_tokenizer := MockTokenizer;
     Pipeline.scripts_dir := "token-optimizer/scripts" |}.

Lemma run_stage_failure (self : Pipeline.TokenOptimizationPipeline)
    (stage : Pipeline.StageName) (script : string) (input_text : text)
    (args : list string) :
  Pipeline.enabled (Pipeline.config self) stage = true ->
  Pipeline.returncode
    (Pipeline.subprocess_run (Pipeline.host self)
       (Pipeline.stage_cmd self script args) input_text) <> 0%Z ->
  Pipeline.run_stage self stage script input_text args
  = (Pipeline.Return input_text,
     [Pipeline.LogStageFailed stage
        (Pipeline.stderr
           (Pipeline.subprocess_run (Pipeline.host self)
              (Pipeline.stage_cmd self script args) input_text))]).
Proof.
  intros He Hr. unfold Pipeline.run_stage. rewrite He. cbn [negb].
  unfold Pipeline.subprocess_run_check.
  apply Z.eqb_neq in Hr. rewrite Hr. reflexivity.
Qed.

(** [run_stage] never raises: the only exception [subprocess.run] raises
    in it is the one it catches. *)
Lemma run_stage_returns (self : Pipeline.TokenOptimizationPipeline)
    (stage : Pipeline.StageName) (script : string) (input_text : text)
    (args : list string) :
  exists out log,
    Pipeline.run_stage self stage script input_text args
    = (Pipeline.Return out, log).
Proof.
  unfold Pipeline.run_stage.
  destruct (negb (Pipeline.enabled (Pipeline.config self) stage)).
  - do 2 eexists. reflexivity.
  - unfold Pipeline.subprocess_run_check.
    destruct (Pipeline.returncode _ =? 0)%Z; do 2 eexists; reflexivity.
Qed.

Lemma stage_block_returns (self : Pipeline.TokenOptimizationPipeline)
    (stage : Pipeline.StageName) (buf : text) :
  exists out log,
    Pipeline.stage_block self stage buf = (Pipeline.Return out, log).
Proof.
  unfold Pipeline.stage_block.
  destruct (Pipeline.enabled (Pipeline.config self) stage).
  - apply run_stage_returns.
  - do 2 eexists. reflexivity.
Qed.

Lemma run_blocks_returns (self : Pipeline.TokenOptimizationPipeline)
    (stages : list Pipeline.StageName) (buf : text) :
  exists out log, run_blocks self stages buf = (Pipeline.Return out, log).
Proof.
  revert buf; induction stages as [|stage rest IH]; intros buf; simpl.
  - do 2 eexists. reflexivity.
  - destruct (stage_block_returns self stage buf) as (out & log & ->).
    destruct (IH out) as (out' & log' & E).
    unfold Pipeline.bind. rewrite E. do 2 eexists. reflexivity.
Qed.

(** The outcome of [run_pipeline]: the text the four blocks leave, unless
    the summary divides by zero. *)
Lemma run_pipeline_outcome (self : Pipeline.TokenOptimizationPipeline)
    (input_text : text) :
  fst (Pipeline.run_pipeline self input_text)
  = if (Pipeline.count_tokens self input_text =? 0)%Z
    then Pipeline.Raise Pipeline.ZeroDivisionError
    else fst (run_blocks self all_stages input_text).
Proof.
  unfold Pipeline.run_pipeline, all_stages, run_blocks.
  cbv beta iota zeta delta [Pipeline.bind Pipeline.print Pipeline.ret].
  destruct (stage_block_returns self Pipeline.spell_check input_text)
    as (b1 & l1 & ->). cbv beta iota.
  destruct (stage_block_returns self Pipeline.abbreviations b1)
    as (b2 & l2 & ->). cbv beta iota.
  destruct (stage_block_returns self Pipeline.token_aware b2)
    as (b3 & l3 & ->). cbv beta iota.
  destruct (stage_block_returns self Pipeline.ml_paraphrase b3)
    as (b4 & l4 & ->). cbv beta iota.
  unfold Pipeline.true_div.
  destruct (Pipeline.count_tokens self input_text =? 0)%Z; reflexivity.
Qed.

(** C6.  A stage whose transform fails (the script exits with a status
    other than zero, as the interpreter does for a script it cannot open)
    makes [run_stage] print the failure and return the text it was given;
    in [run_pipeline] the next block then runs on that same text; and
    [run_pipeline] as a whole raises nothing on account of a stage: its
    outcome is the text the blocks leave, the one exception it can raise
    being the division of the final summary on an input of zero tokens. *)
Theorem stage_failure_passthrough
    (self : Pipeline.TokenOptimizationPipeline) :
  (forall stage script args input_text,
      Pipeline.enabled (Pipeline.config self) stage = true ->
      Pipeline.returncode
        (Pipeline.subprocess_run (Pipeline.host self)
           (Pipeline.stage_cmd self script args) input_text) <> 0%Z ->
      Pipeline.run_stage self stage script input_text args
      = (Pipeline.Return input_text,
         [Pipeline.LogStageFailed stage
            (Pipeline.stderr
               (Pipeline.subprocess_run (Pipeline.host self)
                  (Pipeline.stage_cmd self script args) input_text))])) /\
  (forall stage rest buf,
      Pipeline.enabled (Pipeline.config self) stage = true ->
      Pipeline.returncode
        (Pipeline.subprocess_run (Pipeline.host self)
           (pipeline_cmd self stage) buf) <> 0%Z ->
      run_blocks self (stage :: rest) buf
      = (fst (run_blocks self rest buf),
         Pipeline.LogStageFailed stage
           (Pipeline.stderr
              (Pipeline.subprocess_run (Pipeline.host self)
                 (pipeline_cmd self stage) buf))
         :: snd (run_blocks self rest buf))) /\
  (forall input_text,
      fst (Pipeline.run_pipeline self input_text)
      = if (Pipeline.count_tokens self input_text =? 0)%Z
        then Pipeline.Raise Pipeline.ZeroDivisionError
        else fst (run_blocks self all_stages input_text)) /\
  (forall input_text e,
      fst (Pipeline.run_pipeline self input_text) = Pipeline.Raise e ->
      e = Pipeline.ZeroDivisionError /\
      Pipeline.count_tokens self input_text = 0%Z).
Proof.
  split; [|split; [|split]].
  - intros stage script args input_text. apply run_stage_failure.
  - intros stage rest buf He Hr. cbn [run_blocks].
    unfold Pipeline.stage_block. rewrite He.
    unfold pipeline_cmd in Hr.
    rewrite (run_stage_failure self stage _ buf _ He Hr).
    unfold Pipeline.bind, pipeline_cmd.
    destruct (run_blocks self rest buf) as [r l]. reflexivity.
  - apply run_pipeline_outcome.
  - intros input_text e. rewrite run_pipeline_outcome.
    destruct (Pipeline.count_tokens self input_text =? 0)%Z eqn:E.
    + intros H. inversion H. split; [reflexivity | now apply Z.eqb_eq].
    + destruct (run_blocks_returns self all_stages input_text)
        as (out & log & ->). discriminate.
Qed.

Lemma stage_failure_passthrough_witness :
  Pipeline.run_stage (test_pipeline (fixed_host 2 "" "can't open file"))
    Pipeline.spell_check "nonexistent.py" (txt "test input") []
  = (Pipeline.Return (txt "test input"),
     [Pipeline.LogStageFailed Pipeline.spell_check
        (txt "can't open file")]).
Proof.
  apply (proj1 (stage_failure_passthrough
                  (test_pipeline (fixed_host 2 "" "can't open file")))).
  - reflexivity.
  - simpl. lia.
Defined.

(** C1 fails on the code.  On an input of zero tokens [run_pipeline] runs
    the blocks and then raises [ZeroDivisionError] while it formats the
    percentage of the summary: no text is returned.  (On any other input it
    returns the text of the blocks.) *)
Theorem run_pipeline_zero_tokens
    (self : Pipeline.TokenOptimizationPipeline) (input_text : text) :
  Pipeline.count_tokens self input_text = 0%Z ->
  fst (Pipeline.run_pipeline self input_text)
  = Pipeline.Raise Pipeline.ZeroDivisionError.
Proof.
  intros H0. rewrite run_pipeline_outcome, H0. reflexivity.
Qed.

Lemma run_pipeline_zero_tokens_witness :
  fst (Pipeline.run_pipeline (test_pipeline (fixed_host 0 "" "")) (txt ""))
  = Pipeline.Raise Pipeline.ZeroDivisionError.
Proof.
  apply run_pipeline_zero_tokens. reflexivity.
Defined.

(** C2, as stated, fails: when the analyzer exits with status zero and an
    output that is no JSON document (here a truncated one),
    [analyze_text] raises the error of the decoder. *)
Lemma analyze_text_malformed_raises :
  Pipeline.analyze_text (test_pipeline (fixed_host 0 "[{" ""))
    (txt "it is a test")
  = (Pipeline.Raise Pipeline.JSONDecodeError, [Pipeline.LogAnalyzing]).
Proof. vm_compute. reflexivity. Qed.

(** What a computation prints comes from one of its two parts. *)
Lemma bind_log_In (A B : Type) (m : Pipeline.M A) (f : A -> Pipeline.M B)
    (ev : Pipeline.log_event) :
  In ev (snd (Pipeline.bind m f)) ->
  In ev (snd m) \/ exists a, In ev (snd (f a)).
Proof.
  destruct m as [[a|e] l]; cbn [Pipeline.bind snd]; [|now left].
  destruct (f a) as [r l'] eqn:E. cbn [snd]. intros Hin.
  apply in_app_or in Hin as [Hin|Hin]; [now left | right].
  exists a. now rewrite E.
Qed.

Lemma print_potentials_lines (opts : list Pipeline.json)
    (ev : Pipeline.log_event) :
  In ev (snd (Pipeline.print_potentials opts)) ->
  exists phrase suggested occurrences total,
    ev = Pipeline.LogPotential phrase suggested occurrences total.
Proof.
  induction opts as [|opt opts IH]; cbn [Pipeline.print_potentials].
  - intros [].
  - intros Hin. apply bind_log_In in Hin as [Hin | [_ Hin]]; [|now apply IH].
    unfold Pipeline.print_potential in Hin.
    apply bind_log_In in Hin as [[] | [phrase Hin]].
    apply bind_log_In in Hin as [[] | [suggested Hin]].
    apply bind_log_In in Hin as [[] | [occurrences Hin]].
    apply bind_log_In in Hin as [[] | [total Hin]].
    destruct Hin as [<- | []]. now exists phrase, suggested, occurrences, total.
Qed.

(** C2, amended.  After the line that announces the analysis,
    [analyze_text] returns without a word when the analyzer exits with a
    status other than zero; when it exits with zero, an output the decoder
    rejects raises [JSONDecodeError], and an output decoded to an empty
    (false) document is reported as no optimizations found.  That line is
    printed in this one case only: whenever it is among the lines printed,
    the analyzer has exited with zero and its output has decoded to a
    false document; for a document that is true the lines printed are the
    announcement, the header and lines of potentials and their total. *)
Theorem analyze_text_outcomes
    (self : Pipeline.TokenOptimizationPipeline) (s : text) :
  let result :=
    Pipeline.subprocess_run (Pipeline.host self)
      (Pipeline.analyze_cmd self) s in
  (Pipeline.returncode result <> 0%Z ->
   Pipeline.analyze_text self s
   = (Pipeline.Return tt, [Pipeline.LogAnalyzing])) /\
  (Pipeline.returncode result = 0%Z ->
   Pipeline.json_loads (Pipeline.host self) (Pipeline.stdout result) = None ->
   Pipeline.analyze_text self s
   = (Pipeline.Raise Pipeline.JSONDecodeError, [Pipeline.LogAnalyzing])) /\
  (forall optimizations,
      Pipeline.returncode result = 0%Z ->
      Pipeline.json_loads (Pipeline.host self) (Pipeline.stdout result)
      = Some optimizations ->
      Pipeline.truthy optimizations = false ->
      Pipeline.analyze_text self s
      = (Pipeline.Return tt,
         [Pipeline.LogAnalyzing; Pipeline.LogNoneFound])) /\
  (In Pipeline.LogNoneFound (snd (Pipeline.analyze_text self s)) ->
   Pipeline.returncode result = 0%Z /\
   exists optimizations,
     Pipeline.json_loads (Pipeline.host self) (Pipeline.stdout result)
     = Some optimizations /\
     Pipeline.truthy optimizations = false) /\
  (forall optimizations,
      Pipeline.returncode result = 0%Z ->
      Pipeline.json_loads (Pipeline.host self) (Pipeline.stdout result)
      = Some optimizations ->
      Pipeline.truthy optimizations = true ->
      forall ev,
        In ev (snd (Pipeline.analyze_text self s)) ->
        ev = Pipeline.LogAnalyzing \/ ev = Pipeline.LogPotentialHeader \/
        (exists phrase suggested occurrences total,
            ev = Pipeline.LogPotential phrase suggested occurrences total) \/
        (exists total, ev = Pipeline.LogTotalPotential total)).
Proof.
  intros result.
  assert (Htrue : forall optimizations,
             Pipeline.returncode result = 0%Z ->
             Pipeline.json_loads (Pipeline.host self) (Pipeline.stdout result)
             = Some optimizations ->
             Pipeline.truthy optimizations = true ->
             forall ev,
               In ev (snd (Pipeline.analyze_text self s)) ->
               ev = Pipeline.LogAnalyzing \/
               ev = Pipeline.LogPotentialHeader \/
               (exists phrase suggested occurrences total,
                   ev = Pipeline.LogPotential phrase suggested occurrences
                          total) \/
               (exists total, ev = Pipeline.LogTotalPotential total)).
  { intros optimizations Hr Hj Ht ev Hin.
    unfold Pipeline.analyze_text in Hin.
    apply bind_log_In in Hin as [[<- | []] | [_ Hin]]; [now left|].
    fold result in Hin. rewrite Hr, Hj, Ht in Hin. cbn [Z.eqb] in Hin.
    apply bind_log_In in Hin as [[<- | []] | [_ Hin]]; [now right; left|].
    apply bind_log_In in Hin as [[] | [top Hin]].
    apply bind_log_In in Hin as [[] | [total Hin]].
    apply bind_log_In in Hin as [Hin | [_ Hin]].
    - right; right; left. now apply (print_potentials_lines top).
    - destruct Hin as [<- | []]. right; right; right. now exists total. }
  unfold Pipeline.analyze_text.
  cbv beta iota zeta delta [Pipeline.bind Pipeline.print Pipeline.ret
                              Pipeline.raise].
  fold result. split; [|split; [|split; [|split]]].
  - intros Hr. apply Z.eqb_neq in Hr. rewrite Hr. reflexivity.
  - intros Hr Hj. rewrite Hr, Hj. reflexivity.
  - intros optimizations Hr Hj Ht. rewrite Hr, Hj, Ht. reflexivity.
  - intros Hin.
    destruct (Pipeline.returncode result =? 0)%Z eqn:Hr.
    + apply Z.eqb_eq in Hr. split; [exact Hr|].
      destruct (Pipeline.json_loads (Pipeline.host self)
                  (Pipeline.stdout result)) as [optimizations|] eqn:Hj.
      * exists optimizations. split; [reflexivity|].
        destruct (Pipeline.truthy optimizations) eqn:Ht; [|reflexivity].
        exfalso.
        assert (Hin' : In Pipeline.LogNoneFound
                         (snd (Pipeline.analyze_text self s))).
        { unfold Pipeline.analyze_text.
          cbv beta iota zeta delta [Pipeline.bind Pipeline.print Pipeline.ret
                                      Pipeline.raise].
          fold result. rewrite (proj2 (Z.eqb_eq _ _) Hr), Hj, Ht.
          exact Hin. }
        destruct (Htrue optimizations Hr eq_refl Ht _ Hin')
          as [E | [E | [(? & ? & ? & ? & E) | (? & E)]]]; discriminate E.
      * cbn in Hin. destruct Hin as [E | []]. discriminate E.
    + cbn in Hin. destruct Hin as [E | []]. discriminate E.
  - intros optimizations Hr Hj Ht ev Hin.
    apply (Htrue optimizations Hr Hj Ht ev).
    unfold Pipeline.analyze_text.
    cbv beta iota zeta delta [Pipeline.bind Pipeline.print Pipeline.ret
                                Pipeline.raise].
    fold result. exact Hin.
Qed.

Lemma analyze_text_outcomes_witness :
  Pipeline.analyze_text (test_pipeline (fixed_host 0 "[]" ""))
    (txt "nothing to shorten")
  = (Pipeline.Return tt, [Pipeline.LogAnalyzing; Pipeline.LogNoneFound]).
Proof.
  apply (proj1 (proj2 (proj2 (analyze_text_outcomes
                                (test_pipeline (fixed_host 0 "[]" ""))
                                (txt "nothing to shorten"))))
           (Pipeline.JArr []));
    reflexivity.
Defined.

(** * Further properties of the code *)

Unset Implicit Arguments.

(** ** [optimize_text] and [analyze_text] together *)

Lemma potential_of_nil (s : text) (entry : text * EfficientReplacement) :
  potential_of s entry = [] <-> findall (fst entry) s = [].
Proof.
  unfold potential_of. cbv zeta.
  destruct (findall (fst entry) s); simpl; split; congruence.
Qed.

Lemma flat_map_nil {A B : Type} (f : A -> list B) (l : list A) :
  flat_map f l = [] <-> forall x, In x l -> f x = [].
Proof.
  induction l as [|a l IH]; simpl.
  - split; [intros _ x [] | reflexivity].
  - split.
    + intros H. apply app_eq_nil in H as [Ha Hl].
      intros x [<-|Hx]; [exact Ha | now apply IH].
    + intros H. rewrite (H a) by auto. simpl. apply IH. auto.
Qed.

(** The analysis is empty exactly when no phrase of the efficient map has
    a match in the text. *)
Lemma analyze_text_nil (self : TokenAwareOptimizer) (s : text) :
  analyze_text self s = [] <->
  (forall e, In e (token_efficient_map self) -> findall (fst e) s = []).
Proof.
  unfold analyze_text. split.
  - intros H e He. apply potential_of_nil.
    assert (Hf : flat_map (potential_of s) (token_efficient_map self) = []).
    { apply Permutation_nil. rewrite <- H. apply sorted_desc_perm. }
    now apply (proj1 (flat_map_nil _ _) Hf).
  - intros H.
    assert (Hf : flat_map (potential_of s) (token_efficient_map self) = []).
    { apply flat_map_nil. intros e He. apply potential_of_nil. auto. }
    rewrite Hf. reflexivity.
Qed.

(** When [analyze_text] finds nothing, [optimize_text] replaces nothing: it
    returns the text with its white space cleaned, and a report with no
    replacement and no token saved. *)
Theorem analyze_nothing_optimize_noop (self : TokenAwareOptimizer) (s : text) :
  analyze_text self s = [] ->
  optimize_text self s
  = (strip (cleanup s),
     {| total_tokens_saved := 0;
        replacements := [];
        report_original_tokens := _count_tokens self s;
        report_optimized_tokens := _count_tokens self (cleanup s) |}).
Proof.
  intros H. pose proof (proj1 (analyze_text_nil self s) H) as H'.
  unfold optimize_text. cbv zeta.
  rewrite (optimize_loop_no_match self s H'). reflexivity.
Qed.

Lemma analyze_nothing_optimize_noop_witness :
  fst (optimize_text (TokenAwareOptimizer_init MockTokenizer 1)
         (txt "  plain   text ."))
  = txt "plain text.".
Proof.
  rewrite (analyze_nothing_optimize_noop
             (TokenAwareOptimizer_init MockTokenizer 1)
             (txt "  plain   text .")).
  - vm_compute. reflexivity.
  - vm_compute. reflexivity.
Defined.

(** ** The report of [optimize_text] *)

Definition sum_Z (l : list Z) : Z := fold_right Z.add 0%Z l.

Lemma sum_Z_app (a b : list Z) : sum_Z (a ++ b) = (sum_Z a + sum_Z b)%Z.
Proof. induction a as [|x a IH]; simpl; [reflexivity | rewrite IH; lia]. Qed.

(** A record made with at least one match and a measure of at least
    [min]. *)
Definition record_ok (min : Z) (r : ReplacementMade) : Prop :=
  (1 <= rm_count r)%Z /\
  exists saved, (saved >= min)%Z /\ rm_tokens_saved r = (saved * rm_count r)%Z.

Definition loop_inv (min : Z) (st : LoopState) : Prop :=
  total_savings st = sum_Z (map rm_tokens_saved (replacements_made st)) /\
  Forall (record_ok min) (replacements_made st).

Lemma optimize_step_inv (self : TokenAwareOptimizer) (st : LoopState)
    (entry : text * EfficientReplacement) :
  loop_inv (min_savings self) st ->
  loop_inv (min_savings self) (optimize_step self st entry).
Proof.
  intros [Ht Hf]. unfold optimize_step. cbv zeta.
  destruct (findall (fst entry) (optimized_text st)) as [|m ms] eqn:E;
    [split; assumption|].
  destruct (actual_savings self (fst entry) (replacement (snd entry)) m
            >=? min_savings self)%Z eqn:G; [|split; assumption].
  split; cbn [total_savings replacements_made].
  - rewrite map_app, sum_Z_app, Ht. simpl. lia.
  - apply Forall_app. split; [exact Hf|]. constructor; [|constructor].
    split; cbn [rm_count rm_tokens_saved].
    + simpl. lia.
    + eexists. split; [|reflexivity]. apply Z.geb_le in G. lia.
Qed.

Lemma optimize_fold_inv (self : TokenAwareOptimizer)
    (entries : list (text * EfficientReplacement)) (st : LoopState) :
  loop_inv (min_savings self) st ->
  loop_inv (min_savings self) (fold_left (optimize_step self) entries st).
Proof.
  revert st; induction entries as [|e l IH]; intros st H; simpl; auto.
  apply IH, optimize_step_inv, H.
Qed.

Lemma record_ok_sum (min : Z) (l : list ReplacementMade) :
  Forall (record_ok min) l ->
  (min * sum_Z (map rm_count l) <= sum_Z (map rm_tokens_saved l))%Z.
Proof.
  induction 1 as [|r l [Hc (saved & Hs & Hr)] _ IH]; simpl; [lia|].
  rewrite Hr. nia.
Qed.

(** The totals of the report agree with its records: [total_tokens_saved]
    is the sum of the records' [tokens_saved]; every record counts at least
    one match and saves, per match, at least [min_savings]; so the total is
    at least [min_savings] times the number of substitutions. *)
Theorem optimize_report_accounting (self : TokenAwareOptimizer) (s : text) :
  let report := snd (optimize_text self s) in
  total_tokens_saved report
  = sum_Z (map rm_tokens_saved (replacements report)) /\
  Forall (record_ok (min_savings self)) (replacements report) /\
  (min_savings self * sum_Z (map rm_count (replacements report))
   <= total_tokens_saved report)%Z.
Proof.
  cbv zeta. unfold optimize_text. cbv zeta.
  cbn [snd total_tokens_saved replacements].
  destruct (optimize_fold_inv self (sorted_replacements self)
              {| optimized_text := s; total_savings := 0;
                 replacements_made := [] |}) as [Ht Hf].
  { split; [reflexivity | constructor]. }
  fold (optimize_loop self s) in Ht, Hf.
  split; [exact Ht|]. split; [exact Hf|].
  rewrite Ht. now apply record_ok_sum.
Qed.

(** [a] is [b] with some elements left out. *)
Inductive subseq {A : Type} : list A -> list A -> Prop :=
| subseq_nil : subseq [] []
| subseq_skip : forall x a b, subseq a b -> subseq a (x :: b)
| subseq_take : forall x a b, subseq a b -> subseq (x :: a) (x :: b).

Lemma subseq_refl {A : Type} (l : list A) : subseq l l.
Proof. induction l; [apply subseq_nil | apply subseq_take; auto]. Qed.

Lemma subseq_nil_l {A : Type} (l : list A) : subseq [] l.
Proof. induction l; [apply subseq_nil | apply subseq_skip; auto]. Qed.

Lemma subseq_In {A : Type} (a b : list A) (x : A) :
  subseq a b -> In x a -> In x b.
Proof.
  induction 1; simpl; auto.
  intros [->|H']; auto.
Qed.

Lemma subseq_NoDup {A : Type} (a b : list A) :
  subseq a b -> NoDup b -> NoDup a.
Proof.
  induction 1 as [|x a b H IH|x a b H IH]; intros Hb; auto.
  - inversion Hb; auto.
  - inversion Hb as [|? ? Hx Hb']; subst. constructor; auto.
    intros Hin. apply Hx. eapply subseq_In; eauto.
Qed.

Lemma subseq_sorted {A : Type} (R : A -> A -> Prop) (a b : list A) :
  subseq a b -> StronglySorted R b -> StronglySorted R a.
Proof.
  induction 1 as [|x a b H IH|x a b H IH]; intros Hb; auto.
  - inversion Hb; auto.
  - inversion Hb as [|? ? Hs Hall]; subst. constructor; auto.
    apply Forall_forall. intros y Hy. rewrite Forall_forall in Hall.
    apply Hall. eapply subseq_In; eauto.
Qed.

(** What a record says of the entry it was made for. *)
Definition record_entry (r : ReplacementMade) : text * text :=
  (rm_original r, rm_replacement r).

Definition entry_pair (e : text * EfficientReplacement) : text * text :=
  (fst e, replacement (snd e)).

Lemma optimize_step_entry (self : TokenAwareOptimizer) (st : LoopState)
    (e : text * EfficientReplacement) :
  optimize_step self st e = st \/
  exists r, replacements_made (optimize_step self st e)
            = replacements_made st ++ [r] /\
            record_entry r = entry_pair e.
Proof.
  unfold optimize_step. cbv zeta.
  destruct (findall (fst e) (optimized_text st)); auto.
  match goal with |- context [if ?b then _ else _] => destruct b end; auto.
  right. eexists. split; reflexivity.
Qed.

Lemma optimize_fold_subseq (self : TokenAwareOptimizer)
    (entries : list (text * EfficientReplacement)) (st : LoopState) :
  exists recs,
    replacements_made (fold_left (optimize_step self) entries st)
    = replacements_made st ++ recs /\
    subseq (map record_entry recs) (map entry_pair entries).
Proof.
  revert st; induction entries as [|e l IH]; intros st; simpl.
  - exists []. rewrite app_nil_r. split; [reflexivity | apply subseq_nil].
  - destruct (IH (optimize_step self st e)) as (recs & Hr & Hs).
    destruct (optimize_step_entry self st e) as [E|(r & E & Hp)].
    + rewrite E in *. exists recs.
      split; [exact Hr | now apply subseq_skip].
    + rewrite E, <- app_assoc in Hr. exists (r :: recs).
      split; [exact Hr|]. simpl. rewrite Hp. now apply subseq_take.
Qed.

(** The records of the report follow the order of [sorted_replacements]:
    they are made for some of its entries, each at most once and in that
    order, so the savings stored for the recorded phrases never increase
    along the list. *)
Theorem optimize_report_order (self : TokenAwareOptimizer) (s : text) :
  subseq (map record_entry (replacements (snd (optimize_text self s))))
         (map entry_pair (sorted_replacements self)) /\
  exists entries,
    subseq entries (sorted_replacements self) /\
    map entry_pair entries
    = map record_entry (replacements (snd (optimize_text self s))) /\
    StronglySorted (fun a b => (savings (snd a) >= savings (snd b))%Z)
      entries.
Proof.
  unfold optimize_text. cbv zeta. cbn [snd replacements].
  unfold optimize_loop.
  destruct (optimize_fold_subseq self (sorted_replacements self)
              {| optimized_text := s; total_savings := 0;
                 replacements_made := [] |}) as (recs & Hr & Hs).
  cbn [replacements_made app] in Hr. rewrite Hr. split; [exact Hs|].
  assert (G : forall (a : list (text * text))
                     (b : list (text * EfficientReplacement)),
             subseq a (map entry_pair b) ->
             exists es, subseq es b /\ map entry_pair es = a).
  { intros a b. remember (map entry_pair b) as mb eqn:E.
    intros H. revert b E.
    induction H as [|x a b' H IH|x a b' H IH]; intros b E.
    - destruct b; [|discriminate]. exists [].
      split; [apply subseq_nil | reflexivity].
    - destruct b as [|e b]; [discriminate|]. inversion E; subst.
      destruct (IH b eq_refl) as (es & He & Hm).
      exists es. split; [now apply subseq_skip | exact Hm].
    - destruct b as [|e b]; [discriminate|]. inversion E; subst.
      destruct (IH b eq_refl) as (es & He & Hm).
      exists (e :: es).
      split; [now apply subseq_take | simpl; now f_equal]. }
  destruct (G _ _ Hs) as (es & He & Hm).
  exists es. split; [exact He|]. split; [exact Hm|].
  apply (subseq_sorted _ _ _ He).
  apply (sorted_desc_sorted (fun x => savings (snd x))).
Qed.

(** ** The order of [sorted_replacements] *)

Lemma filter_none {A : Type} (f : A -> bool) (l : list A) :
  (forall a, In a l -> f a = false) -> filter f l = [].
Proof.
  induction l as [|x l IH]; simpl; intros H; [reflexivity|].
  rewrite (H x) by auto. apply IH. auto.
Qed.




(** ** The efficient map and the threshold *)

Lemma efficient_entries_subseq (tok : tokenizer) (min min' : Z)
    (cands : dict text) :
  (min <= min')%Z ->
  subseq (flat_map (efficient_entry tok min') cands)
         (flat_map (efficient_entry tok min) cands).
Proof.
  intros Hle. induction cands as [|[k r] cands IH]; simpl.
  - apply subseq_nil.
  - unfold efficient_entry at 1 3. cbv zeta. cbn [fst snd].
    destruct (savings (candidate_info tok k r) >=? min')%Z eqn:E';
      destruct (savings (candidate_info tok k r) >=? min)%Z eqn:E; simpl.
    + now apply subseq_take.
    + apply Z.geb_le in E'. rewrite Z.geb_leb, Z.leb_gt in E. lia.
    + now apply subseq_skip.
    + exact IH.
Qed.

Lemma efficient_keys_subseq (tok : tokenizer) (min : Z) (cands : dict text) :
  subseq (dict_keys (flat_map (efficient_entry tok min) cands))
         (dict_keys cands).
Proof.
  induction cands as [|[k r] cands IH]; simpl.
  - apply subseq_nil.
  - unfold efficient_entry at 1. cbv zeta. cbn [fst snd].
    destruct (savings (candidate_info tok k r) >=? min)%Z; simpl.
    + now apply subseq_take.
    + now apply subseq_skip.
Qed.

(** The efficient map keeps the phrases of the table in the order of the
    table, each at most once; and a higher threshold keeps fewer: the map
    built with the higher threshold is the map built with the lower one
    with some entries left out. *)
Theorem efficient_map_threshold_monotone (tok : tokenizer) (min min' : Z) :
  (min <= min')%Z ->
  subseq (token_efficient_map (TokenAwareOptimizer_init tok min'))
         (token_efficient_map (TokenAwareOptimizer_init tok min)) /\
  subseq (dict_keys (token_efficient_map (TokenAwareOptimizer_init tok min)))
         (dict_keys default_candidates) /\
  NoDup (dict_keys (token_efficient_map (TokenAwareOptimizer_init tok min))).
Proof.
  intros Hle. rewrite !token_efficient_map_eq.
  split; [now apply efficient_entries_subseq|].
  split; [apply efficient_keys_subseq|].
  eapply subseq_NoDup; [apply efficient_keys_subseq|].
  apply default_candidates_NoDup.
Qed.

Lemma efficient_map_threshold_monotone_witness :
  subseq (token_efficient_map (TokenAwareOptimizer_init MockTokenizer 2))
         (token_efficient_map (TokenAwareOptimizer_init MockTokenizer 1)).
Proof.
  apply (efficient_map_threshold_monotone MockTokenizer 1 2). lia.
Defined.

(** ** The case policy *)

Lemma replace_func_shape (repl matched : text) :
  str_lower (replace_func repl matched) = str_lower repl /\
  List.length (replace_func repl matched) = List.length repl.
Proof.
  unfold replace_func. destruct repl as [|r0 repl]; [auto|].
  cbn [nonempty negb].
  destruct (str_isupper matched && (1 <? List.length (r0 :: repl))%nat).
  - split; [apply str_lower_upper | apply length_map].
  - destruct (match matched with
              | [] => false
              | c :: _ => char_isupper c
              end && (1 <? List.length (r0 :: repl))%nat).
    + simpl. now rewrite char_lower_upper.
    + auto.
Qed.

(** Whatever the match, [replace_func] returns the replacement with only
    the case of letters changed: the same length, and the same text once
    both are put in lower case. *)
Theorem replace_func_case_only (repl matched : text) :
  str_lower (replace_func repl matched) = str_lower repl /\
  List.length (replace_func repl matched) = List.length repl.
Proof. apply replace_func_shape. Qed.

(** ** Lengths *)

Lemma str_lower_length (a b : text) :
  str_lower a = str_lower b -> List.length a = List.length b.
Proof.
  intros H. apply (f_equal (@List.length ascii)) in H.
  unfold str_lower in H. now rewrite !length_map in H.
Qed.

Lemma re_scan_hit_length (phrase s m : text) :
  In (Hit m) (re_scan phrase None 0 s) ->
  List.length m = List.length phrase.
Proof.
  intros Hin. apply in_split in Hin as (segs1 & segs2 & Hscan).
  apply (@re_scan_hit phrase (List.length s)) in Hscan as [_ Hm]; [|lia].
  apply match_at_spec in Hm as (_ & Hlow & _).
  now apply str_lower_length.
Qed.

Lemma seg_subst_length (f : text -> text) (k k' : nat)
    (segs : list segment) :
  (forall m, In (Hit m) segs -> List.length m = k) ->
  (forall m, List.length (f m) = k') ->
  (List.length (seg_subst f segs) + List.length (seg_hits segs) * k
   = List.length (seg_text segs) + List.length (seg_hits segs) * k')%nat.
Proof.
  intros Hk Hf. induction segs as [|[c|m] segs IH]; simpl.
  - reflexivity.
  - fold (seg_subst f segs) (seg_hits segs) (seg_text segs).
    rewrite <- IH by (intros m Hm; apply Hk; simpl; auto). simpl. lia.
  - fold (seg_subst f segs) (seg_hits segs) (seg_text segs).
    rewrite !length_app, Hf, (Hk m) by (simpl; auto).
    specialize (IH (fun m' Hm' => Hk m' (or_intror Hm'))). lia.
Qed.

(** The substitution of [optimize_text] changes the length of the buffer by
    the difference between replacement and phrase, once per match. *)
Theorem substitution_length (original repl s : text) :
  (List.length (sub original (replace_func repl) s)
   + List.length (findall original s) * List.length original
   = List.length s
     + List.length (findall original s) * List.length repl)%nat.
Proof.
  unfold sub, findall.
  rewrite <- (seg_text_re_scan original s None) at 3.
  apply seg_subst_length.
  - intros m Hm. eapply re_scan_hit_length; eauto.
  - intros m. apply replace_func_shape.
Qed.

(** ** The empty text *)

Lemma findall_nil (phrase : text) : phrase <> [] -> findall phrase [] = [].
Proof.
  intros Hne. unfold findall. simpl. unfold match_at. simpl.
  destruct phrase; [congruence | reflexivity].
Qed.

(** On the empty text the optimizer, as constructed, returns the empty
    text and a report without replacements, both token counts being what
    the tokenizer gives for the empty text; the analysis is empty. *)
Theorem optimize_empty_text (tok : tokenizer) (min : Z) :
  optimize_text (TokenAwareOptimizer_init tok min) []
  = ([], {| total_tokens_saved := 0;
            replacements := [];
            report_original_tokens := count_with tok [];
            report_optimized_tokens := count_with tok [] |}) /\
  analyze_text (TokenAwareOptimizer_init tok min) [] = [].
Proof.
  assert (H : forall e,
             In e (token_efficient_map (TokenAwareOptimizer_init tok min)) ->
             findall (fst e) [] = []).
  { intros [k v] He. cbn [fst].
    apply (proj1 (efficient_map_In _ _ _ _)) in He as (repl & Hc & _).
    apply findall_nil. intros ->.
    assert (Hk : forallb nonempty (dict_keys default_candidates) = true)
      by (vm_compute; reflexivity).
    rewrite forallb_forall in Hk.
    assert (Hin : In [] (dict_keys default_candidates)).
    { unfold dict_keys. apply in_map_iff. exists ([], repl). auto. }
    apply Hk in Hin. discriminate. }
  split.
  - unfold optimize_text. cbv zeta.
    rewrite (optimize_loop_no_match _ _ H). reflexivity.
  - now apply analyze_text_nil.
Qed.

(** ** Clean text *)

Lemma collapse_from_id (b : bool) (s : text) :
  single_spaced s = true ->
  (b = true -> starts_space s = false) ->
  collapse_from b s = s.
Proof.
  revert b; induction s as [|c s IH]; intros b Hs Hb; simpl; [reflexivity|].
  simpl in Hs. apply andb_true_iff in Hs as [Hc Hs].
  destruct (char_isspace c) eqn:E.
  - apply andb_true_iff in Hc as [Hc Hn].
    apply Ascii.eqb_eq in Hc. apply negb_true_iff in Hn.
    destruct b.
    + specialize (Hb eq_refl). simpl in Hb. congruence.
    + rewrite (IH true Hs (fun _ => Hn)). now subst c.
  - now rewrite (IH false Hs) by discriminate.
Qed.

Lemma tidy_single_spaced (s : text) : tidy s = true -> single_spaced s = true.
Proof.
  induction s as [|c s IH]; simpl; auto.
  rewrite !andb_true_iff. intros [Hc Hs]. split; auto.
  destruct (char_isspace c); auto.
  apply andb_true_iff in Hc as [Hc _]. exact Hc.
Qed.

Lemma unspace_punct_id (s : text) : tidy s = true -> unspace_punct s = s.
Proof.
  induction s as [|c s IH]; simpl; auto.
  rewrite andb_true_iff. intros [Hc Hs]. rewrite (IH Hs).
  destruct (char_isspace c); auto.
  apply andb_true_iff in Hc as [Hc Hp]. apply andb_true_iff in Hc as [_ Hn].
  apply negb_true_iff in Hn, Hp.
  unfold spaces_then_punct. rewrite (skip_spaces_id _ Hn).
  fold (starts_punct s). now rewrite Hp.
Qed.

Lemma strip_id (s : text) :
  starts_space s = false -> ends_space s = false -> strip s = s.
Proof.
  intros Hs He. unfold strip, lstrip, rstrip.
  rewrite (skip_spaces_id _ Hs).
  unfold ends_space in He. rewrite (skip_spaces_id _ He).
  apply rev_involutive.
Qed.

Lemma clean_fixed (s : text) :
  tidy s = true -> starts_space s = false -> ends_space s = false ->
  strip (cleanup s) = s.
Proof.
  intros Ht Hs He. unfold cleanup, collapse_spaces.
  rewrite (collapse_from_id false s (tidy_single_spaced s Ht))
    by discriminate.
  rewrite (unspace_punct_id s Ht). now apply strip_id.
Qed.

Lemma optimize_text_clean (self : TokenAwareOptimizer) (s : text) :
  tidy (fst (optimize_text self s)) = true /\
  starts_space (fst (optimize_text self s)) = false /\
  ends_space (fst (optimize_text self s)) = false.
Proof.
  unfold optimize_text. cbv zeta. cbn [fst]. unfold cleanup.
  split; [|apply strip_ends].
  apply strip_tidy, unspace_punct_tidy.
  apply (collapse_from_spaced false).
Qed.

(** The cleanup of [optimize_text] is idempotent: cleaning the text it
    returns gives that text again.  So a second run in which no phrase of
    the efficient map matches returns its input as it is. *)
Theorem optimize_output_clean_fixed (self : TokenAwareOptimizer) (s : text) :
  let out := fst (optimize_text self s) in
  strip (cleanup out) = out /\
  (analyze_text self out = [] -> fst (optimize_text self out) = out).
Proof.
  cbv zeta. destruct (optimize_text_clean self s) as (Ht & Hs & He).
  pose proof (clean_fixed _ Ht Hs He) as Hfix.
  split; [exact Hfix|].
  intros Ha. pose proof (proj1 (analyze_text_nil self _) Ha) as Hn.
  unfold optimize_text at 1. cbv zeta. cbn [fst].
  rewrite (optimize_loop_no_match self _ Hn). cbn [optimized_text].
  exact Hfix.
Qed.

Lemma optimize_output_clean_fixed_witness :
  fst (optimize_text (TokenAwareOptimizer_init MockTokenizer 1)
         (fst (optimize_text (TokenAwareOptimizer_init MockTokenizer 1)
                 (txt "it is  fine ."))))
  = fst (optimize_text (TokenAwareOptimizer_init MockTokenizer 1)
           (txt "it is  fine .")).
Proof.
  apply (proj2 (optimize_output_clean_fixed
                  (TokenAwareOptimizer_init MockTokenizer 1)
                  (txt "it is  fine ."))).
  vm_compute. reflexivity.
Defined.

(** * The script [03_token_aware.py] *)

Module TokenAwareScript.

(** The parsed command line. *)
Record Args : Type := {
  input : option string;
  output : option string;
  model : string;
  arg_min_savings : Z;
  analyze : bool;
  verbose : bool
}.

(** Where [main] can raise: none of these calls stands in a [try]. *)
Inductive failure : Type :=
| InputFailed
| TokenizerFailed
| OutputFailed
| ZeroDivision.

Inductive status : Type :=
| Done
| Raised (f : failure).

(** What [main] runs in: opening and reading a file, reading the standard
    input, loading a tokenizer, opening a file and writing it.  Each
    gives nothing when the call raises. *)
Record Host : Type := {
  open_read : string -> option text;
  stdin_read : option text;
  from_pretrained : string -> option tokenizer;
  open_write : string -> text -> bool
}.

(** What [main] prints and writes.  A document printed with [json.dumps]
    is kept as the value it encodes. *)
Inductive event : Type :=
| ErrLoading (model_name : string)
| OutJson (doc : Pipeline.json)
| OutText (s : text)
| FileWrite (path : string) (content : text)
| ErrStatsHeader
| ErrOriginalTokens (n : Z)
| ErrOptimizedTokens (n : Z)
| ErrTotalSaved (n : Z)
| ErrReduction (percent : Q)
| ErrReplacementsHeader
| ErrReplacement (original repl : text) (count tokens_saved : Z).

(** The dictionary [analyze_text] builds for one phrase, as a document. *)
Definition po_json (po : PotentialOptimization) : Pipeline.json :=
  Pipeline.JObj
    [ (txt "phrase", Pipeline.JStr (po_phrase po));
      (txt "suggested", Pipeline.JStr (po_suggested po));
      (txt "occurrences", Pipeline.JInt (po_occurrences po));
      (txt "tokens_per_occurrence",
       Pipeline.JInt (po_tokens_per_occurrence po));
      (txt "total_savings", Pipeline.JInt (po_total_savings po)) ].

Definition analysis_json (l : list PotentialOptimization) : Pipeline.json :=
  Pipeline.JArr (map po_json l).

(** [path and path != "-"]. *)
Definition named_file (path : option string) : option string :=
  match path with
  | Some p =>
      if String.eqb p "" || String.eqb p "-" then None else Some p
  | None => None
  end.

(** The text read: the file named, or the standard input. *)
Definition read_input (h : Host) (a : Args) : option text :=
  match named_file (input a) with
  | Some p => open_read h p
  | None => stdin_read h
  end.

(** The output: the event of the text written, or nothing when opening
    or writing the file raises. *)
Definition write_output (h : Host) (a : Args) (s : text) : option event :=
  match named_file (output a) with
  | Some p => if open_write h p s then Some (FileWrite p s) else None
  | None => Some (OutText s)
  end.

Definition replacement_line (r : ReplacementMade) : event :=
  ErrReplacement (rm_original r) (rm_replacement r) (rm_count r)
    (rm_tokens_saved r).

(** The statistics printed with [-v], up to the line that divides. *)
Definition stats_head (stats : OptimizationReport) : list event :=
  [ ErrStatsHeader;
    ErrOriginalTokens (report_original_tokens stats);
    ErrOptimizedTokens (report_optimized_tokens stats);
    ErrTotalSaved (total_tokens_saved stats) ].

Definition stats_tail (stats : OptimizationReport) : list event :=
  match replacements stats with
  | [] => []
  | rs => ErrReplacementsHeader :: map replacement_line rs
  end.

Definition main (h : Host) (a : Args) : status * list event :=
  match read_input h a with
  | None => (Raised InputFailed, [])
  | Some s =>
      match from_pretrained h (model a) with
      | None => (Raised TokenizerFailed, [ErrLoading (model a)])
      | Some tok =>
          let optimizer := TokenAwareOptimizer_init tok (arg_min_savings a) in
          if analyze a then
            (Done,
             [ ErrLoading (model a);
               OutJson (analysis_json (analyze_text optimizer s)) ])
          else
            let result := optimize_text optimizer s in
            let optimized := fst result in
            let stats := snd result in
            match write_output h a optimized with
            | None => (Raised OutputFailed, [ErrLoading (model a)])
            | Some written =>
                if verbose a then
                  match Pipeline.true_div (total_tokens_saved stats)
                          (report_original_tokens stats) with
                  | Pipeline.Return ratio =>
                      (Done,
                       ErrLoading (model a) :: written ::
                       stats_head stats ++ ErrReduction (ratio * 100)%Q ::
                       stats_tail stats)
                  | Pipeline.Raise _ =>
                      (Raised ZeroDivision,
                       ErrLoading (model a) :: written :: stats_head stats)
                  end
                else (Done, [ErrLoading (model a); written])
            end
      end
  end.

End TokenAwareScript.

Lemma optimize_text_original_tokens (self : TokenAwareOptimizer) (s : text) :
  report_original_tokens (snd (optimize_text self s))
  = count_with (encode self) s.
Proof. reflexivity. Qed.

(** A host with the standard input given, every file refused for reading,
    the tokenizer of the tests for every model, and every file accepted
    for writing. *)
Definition stdin_host (s : text) : TokenAwareScript.Host :=
  {| TokenAwareScript.open_read := fun _ => None;
     TokenAwareScript.stdin_read := Some s;
     TokenAwareScript.from_pretrained := fun _ => Some MockTokenizer;
     TokenAwareScript.open_write := fun _ _ => true |}.

Definition is_file_write (ev : TokenAwareScript.event) : bool :=
  match ev with
  | TokenAwareScript.FileWrite _ _ => true
  | _ => false
  end.

(** The runs of [main] of the script.  When the input cannot be read
    it raises before printing anything; when the tokenizer cannot be
    loaded it raises after the loading line.  With the text read and the
    tokenizer loaded: an analysis prints the loading line and the document
    of [analyze_text], and writes no file whatever [-o] says; otherwise,
    when the output file cannot be written, it raises with nothing but the
    loading line printed; and when the output is written, the optimized
    text comes right after the loading line, and [main] then raises
    [ZeroDivisionError] exactly when statistics were asked for ([-v]) and
    the text has no token (the text is written by then), and returns
    otherwise. *)
Theorem token_aware_main_outcome
    (h : TokenAwareScript.Host) (a : TokenAwareScript.Args) :
  (TokenAwareScript.read_input h a = None ->
   TokenAwareScript.main h a
   = (TokenAwareScript.Raised TokenAwareScript.InputFailed, [])) /\
  (forall s,
      TokenAwareScript.read_input h a = Some s ->
      TokenAwareScript.from_pretrained h (TokenAwareScript.model a) = None ->
      TokenAwareScript.main h a
      = (TokenAwareScript.Raised TokenAwareScript.TokenizerFailed,
         [TokenAwareScript.ErrLoading (TokenAwareScript.model a)])) /\
  (forall s tok,
      TokenAwareScript.read_input h a = Some s ->
      TokenAwareScript.from_pretrained h (TokenAwareScript.model a)
      = Some tok ->
      let optimizer :=
        TokenAwareOptimizer_init tok (TokenAwareScript.arg_min_savings a) in
      (TokenAwareScript.analyze a = true ->
       TokenAwareScript.main h a
       = (TokenAwareScript.Done,
          [ TokenAwareScript.ErrLoading (TokenAwareScript.model a);
            TokenAwareScript.OutJson
              (TokenAwareScript.analysis_json (analyze_text optimizer s)) ]))
      /\
      (TokenAwareScript.analyze a = false ->
       TokenAwareScript.write_output h a (fst (optimize_text optimizer s))
       = None ->
       TokenAwareScript.main h a
       = (TokenAwareScript.Raised TokenAwareScript.OutputFailed,
          [TokenAwareScript.ErrLoading (TokenAwareScript.model a)])) /\
      (forall written,
          TokenAwareScript.analyze a = false ->
          TokenAwareScript.write_output h a (fst (optimize_text optimizer s))
          = Some written ->
          fst (TokenAwareScript.main h a)
          = (if TokenAwareScript.verbose a && (count_with tok s =? 0)%Z
             then TokenAwareScript.Raised TokenAwareScript.ZeroDivision
             else TokenAwareScript.Done) /\
          exists rest,
            snd (TokenAwareScript.main h a)
            = TokenAwareScript.ErrLoading (TokenAwareScript.model a)
              :: written :: rest /\
            forallb (fun ev => negb (is_file_write ev)) rest = true)).
Proof.
  unfold TokenAwareScript.main. split; [|split].
  - intros ->. reflexivity.
  - intros s -> ->. reflexivity.
  - intros s tok -> ->.
    set (optimizer :=
           TokenAwareOptimizer_init tok (TokenAwareScript.arg_min_savings a)).
    split; [|split].
    + intros ->. reflexivity.
    + intros -> ->. reflexivity.
    + intros written -> ->.
      destruct (TokenAwareScript.verbose a); cbn [andb].
      * unfold Pipeline.true_div. rewrite optimize_text_original_tokens.
        cbn [encode TokenAwareOptimizer_init optimizer].
        destruct (count_with tok s =? 0)%Z; cbn [fst snd].
        -- split; [reflexivity|]. eexists. split; reflexivity.
        -- split; [reflexivity|]. eexists. split; [reflexivity|].
           generalize (snd (optimize_text optimizer s)). intros stats.
           generalize (count_with tok s). intros n.
           unfold TokenAwareScript.stats_tail.
           destruct (replacements stats) as [|r rs]; [reflexivity|].
           generalize (r :: rs). intros l.
           induction l as [|x l IH]; [reflexivity | exact IH].
      * split; [reflexivity|]. exists []. split; reflexivity.
Qed.

Lemma token_aware_main_outcome_witness :
  fst (TokenAwareScript.main (stdin_host [])
         {| TokenAwareScript.input := None;
            TokenAwareScript.output := Some "out.txt"%string;
            TokenAwareScript.model := "gpt2";
            TokenAwareScript.arg_min_savings := 1;
            TokenAwareScript.analyze := false;
            TokenAwareScript.verbose := true |})
  = TokenAwareScript.Raised TokenAwareScript.ZeroDivision /\
  exists rest,
    snd (TokenAwareScript.main (stdin_host [])
           {| TokenAwareScript.input := None;
              TokenAwareScript.output := Some "out.txt"%string;
              TokenAwareScript.model := "gpt2";
              TokenAwareScript.arg_min_savings := 1;
              TokenAwareScript.analyze := false;
              TokenAwareScript.verbose := true |})
    = TokenAwareScript.ErrLoading "gpt2"
      :: TokenAwareScript.FileWrite "out.txt" [] :: rest /\
    forallb (fun ev => negb (is_file_write ev)) rest = true.
Proof.
  apply (proj2 (proj2 (proj2 (proj2 (token_aware_main_outcome (stdin_host [])
           {| TokenAwareScript.input := None;
              TokenAwareScript.output := Some "out.txt"%string;
              TokenAwareScript.model := "gpt2";
              TokenAwareScript.arg_min_savings := 1;
              TokenAwareScript.analyze := false;
              TokenAwareScript.verbose := true |}))
           [] MockTokenizer eq_refl eq_refl))
           (TokenAwareScript.FileWrite "out.txt" []));
    reflexivity.
Defined.

(** * More on the orchestrator *)

(** The stage an event of [run_stage] reports on. *)
Definition stage_of_event (ev : Pipeline.log_event)
  : option Pipeline.StageName :=
  match ev with
  | Pipeline.LogStageOk stage _ _ _ => Some stage
  | Pipeline.LogStageFailed stage _ => Some stage
  | _ => None
  end.

Lemma stage_block_disabled (self : Pipeline.TokenOptimizationPipeline)
    (stage : Pipeline.StageName) (buf : text) :
  Pipeline.enabled (Pipeline.config self) stage = false ->
  Pipeline.stage_block self stage buf = (Pipeline.Return buf, []).
Proof. intros H. unfold Pipeline.stage_block. now rewrite H. Qed.

Lemma stage_block_enabled (self : Pipeline.TokenOptimizationPipeline)
    (stage : Pipeline.StageName) (buf : text) :
  Pipeline.enabled (Pipeline.config self) stage = true ->
  exists out ev,
    Pipeline.stage_block self stage buf = (Pipeline.Return out, [ev]) /\
    stage_of_event ev = Some stage.
Proof.
  intros H. unfold Pipeline.stage_block, Pipeline.run_stage.
  rewrite H. cbn [negb]. unfold Pipeline.subprocess_run_check.
  destruct (Pipeline.returncode _ =? 0)%Z;
    do 2 eexists; (split; [reflexivity|]); reflexivity.
Qed.

Lemma bind_ret_l {A B : Type} (a : A) (f : A -> Pipeline.M B) :
  Pipeline.bind (Pipeline.ret a) f = f a.
Proof. unfold Pipeline.bind, Pipeline.ret. now destruct (f a). Qed.

Lemma run_blocks_filter (self : Pipeline.TokenOptimizationPipeline)
    (stages : list Pipeline.StageName) (buf : text) :
  run_blocks self stages buf
  = run_blocks self
      (filter (Pipeline.enabled (Pipeline.config self)) stages) buf.
Proof.
  revert buf; induction stages as [|stage rest IH]; intros buf; simpl; auto.
  destruct (Pipeline.enabled (Pipeline.config self) stage) eqn:E.
  - simpl. destruct (Pipeline.stage_block self stage buf) as [[out|e] l];
      simpl; [now rewrite IH | reflexivity].
  - rewrite (stage_block_disabled self stage buf E).
    fold (@Pipeline.ret text buf). rewrite bind_ret_l. apply IH.
Qed.

Lemma run_blocks_events (self : Pipeline.TokenOptimizationPipeline)
    (stages : list Pipeline.StageName) (buf : text) :
  map stage_of_event (snd (run_blocks self stages buf))
  = map Some (filter (Pipeline.enabled (Pipeline.config self)) stages).
Proof.
  revert buf; induction stages as [|stage rest IH]; intros buf; simpl; auto.
  destruct (Pipeline.enabled (Pipeline.config self) stage) eqn:E.
  - destruct (stage_block_enabled self stage buf E) as (out & ev & -> & Hev).
    unfold Pipeline.bind. specialize (IH out).
    destruct (run_blocks self rest out) as [r l]. simpl in *.
    now rewrite Hev, IH.
  - rewrite (stage_block_disabled self stage buf E).
    fold (@Pipeline.ret text buf). rewrite bind_ret_l. apply IH.
Qed.

(** In [run_pipeline] a stage disabled in the configuration leaves no
    trace: the blocks behave as if it were not in the list (not even the
    notice that [run_stage] prints for a disabled stage appears, since the
    block tests the flag first); and each enabled stage prints exactly one
    line, of success or of failure, in the order of the stages. *)
Theorem run_blocks_enabled_only (self : Pipeline.TokenOptimizationPipeline)
    (stages : list Pipeline.StageName) (buf : text) :
  run_blocks self stages buf
  = run_blocks self
      (filter (Pipeline.enabled (Pipeline.config self)) stages) buf /\
  map stage_of_event (snd (run_blocks self stages buf))
  = map Some (filter (Pipeline.enabled (Pipeline.config self)) stages).
Proof. split; [apply run_blocks_filter | apply run_blocks_events]. Qed.

(** The whole of [run_pipeline] on an input of at least one token. *)
Lemma run_pipeline_nonzero (self : Pipeline.TokenOptimizationPipeline)
    (input_text : text) :
  Pipeline.count_tokens self input_text <> 0%Z ->
  exists out,
    fst (run_blocks self all_stages input_text) = Pipeline.Return out /\
    Pipeline.run_pipeline self input_text
    = (Pipeline.Return out,
       [ Pipeline.LogStarting;
         Pipeline.LogOriginal (Pipeline.len input_text)
           (Pipeline.count_tokens self input_text);
         Pipeline.LogRule ]
       ++ snd (run_blocks self all_stages input_text)
       ++ [ Pipeline.LogRule;
            Pipeline.LogFinal (Pipeline.len out)
              (Pipeline.count_tokens self out);
            Pipeline.LogTotalReduction
              (Pipeline.count_tokens self input_text
               - Pipeline.count_tokens self out)
              ((1 - inject_Z (Pipeline.count_tokens self out)
                    / inject_Z (Pipeline.count_tokens self input_text))
               * 100)%Q ]).
Proof.
  intros Hn. apply Z.eqb_neq in Hn.
  unfold Pipeline.run_pipeline, all_stages, run_blocks.
  cbv beta iota zeta delta [Pipeline.bind Pipeline.print Pipeline.ret].
  destruct (stage_block_returns self Pipeline.spell_check input_text)
    as (b1 & l1 & ->). cbv beta iota.
  destruct (stage_block_returns self Pipeline.abbreviations b1)
    as (b2 & l2 & ->). cbv beta iota.
  destruct (stage_block_returns self Pipeline.token_aware b2)
    as (b3 & l3 & ->). cbv beta iota.
  destruct (stage_block_returns self Pipeline.ml_paraphrase b3)
    as (b4 & l4 & ->). cbv beta iota.
  unfold Pipeline.true_div. rewrite Hn. cbn [fst snd].
  exists b4. split; [reflexivity|]. f_equal.
  cbn [app]. rewrite !app_nil_r, <- !app_assoc. reflexivity.
Qed.

(** The summary of [run_pipeline] compares the first buffer with the last:
    on an input of at least one token the text returned is the text the
    blocks leave, the lines of the stages stand between the three opening
    lines and the three closing ones, and the reduction printed is the
    token count of the input minus the token count of the text returned,
    counted afresh. *)
Theorem run_pipeline_summary (self : Pipeline.TokenOptimizationPipeline)
    (input_text : text) :
  Pipeline.count_tokens self input_text <> 0%Z ->
  exists out,
    fst (run_blocks self all_stages input_text) = Pipeline.Return out /\
    Pipeline.run_pipeline self input_text
    = (Pipeline.Return out,
       [ Pipeline.LogStarting;
         Pipeline.LogOriginal (Pipeline.len input_text)
           (Pipeline.count_tokens self input_text);
         Pipeline.LogRule ]
       ++ snd (run_blocks self all_stages input_text)
       ++ [ Pipeline.LogRule;
            Pipeline.LogFinal (Pipeline.len out)
              (Pipeline.count_tokens self out);
            Pipeline.LogTotalReduction
              (Pipeline.count_tokens self input_text
               - Pipeline.count_tokens self out)
              ((1 - inject_Z (Pipeline.count_tokens self out)
                    / inject_Z (Pipeline.count_tokens self input_text))
               * 100)%Q ]).
Proof. apply run_pipeline_nonzero. Qed.

Lemma run_pipeline_summary_witness :
  exists out,
    fst (Pipeline.run_pipeline (test_pipeline (fixed_host 0 "short" ""))
           (txt "a longer text")) = Pipeline.Return out.
Proof.
  destruct (run_pipeline_summary (test_pipeline (fixed_host 0 "short" ""))
              (txt "a longer text")) as (out & _ & E).
  - vm_compute. discriminate.
  - exists out. now rewrite E.
Defined.

Lemma percent_no_change (n : Z) :
  n <> 0%Z -> ((1 - inject_Z n / inject_Z n) * 100 == 0)%Q.
Proof.
  intros Hn. field. intros H. apply Hn.
  unfold Qeq in H. simpl in H. lia.
Qed.

(** With every stage disabled [run_pipeline] runs nothing: on an input of
    at least one token it returns the input, prints the opening and the
    closing lines only, and reports a reduction of zero tokens and zero
    per cent.  ([run_stage] itself, called for a disabled stage, prints
    the notice and returns its input whatever the script.) *)
Theorem run_pipeline_all_disabled
    (self : Pipeline.TokenOptimizationPipeline) (input_text : text) :
  (forall stage, Pipeline.enabled (Pipeline.config self) stage = false) ->
  Pipeline.count_tokens self input_text <> 0%Z ->
  (exists percent,
      Pipeline.run_pipeline self input_text
      = (Pipeline.Return input_text,
         [ Pipeline.LogStarting;
           Pipeline.LogOriginal (Pipeline.len input_text)
             (Pipeline.count_tokens self input_text);
           Pipeline.LogRule;
           Pipeline.LogRule;
           Pipeline.LogFinal (Pipeline.len input_text)
             (Pipeline.count_tokens self input_text);
           Pipeline.LogTotalReduction 0 percent ]) /\
      (percent == 0)%Q) /\
  (forall stage script args,
      Pipeline.run_stage self stage script input_text args
      = (Pipeline.Return input_text, [Pipeline.LogSkipping stage])).
Proof.
  intros Hd Hn. split.
  - destruct (run_pipeline_nonzero self input_text Hn) as (out & Hb & Hr).
    rewrite run_blocks_filter in Hb, Hr.
    assert (Hf : filter (Pipeline.enabled (Pipeline.config self)) all_stages
                 = []).
    { apply filter_none. intros stage _. apply Hd. }
    rewrite Hf in Hb, Hr. simpl in Hb. inversion Hb; subst out.
    eexists. split.
    + rewrite Hr. cbn [run_blocks Pipeline.ret snd app].
      rewrite Z.sub_diag. reflexivity.
    + now apply percent_no_change.
  - intros stage script args. unfold Pipeline.run_stage.
    rewrite (Hd stage). reflexivity.
Qed.

Lemma run_pipeline_all_disabled_witness :
  fst (Pipeline.run_pipeline
         {| Pipeline.host := fixed_host 0 "never run" "";
            Pipeline.config :=
              {| Pipeline.tokenizer_model := "gpt2";
                 Pipeline.enabled := fun _ => false;
                 Pipeline.max_edit_distance := 2;
                 Pipeline.custom_dict_path := "config/abbreviations.json";
                 Pipeline.min_token_savings := 1;
                 Pipeline.paraphrase_model := "t5-small";
                 Pipeline.max_length_ratio := "0.8" |};
            Pipeline.pipeline_tokenizer := MockTokenizer;
            Pipeline.scripts_dir := "token-optimizer/scripts" |}
         (txt "keep me"))
  = Pipeline.Return (txt "keep me").
Proof.
  match goal with
  | |- fst (Pipeline.run_pipeline ?p ?t) = _ =>
      destruct (run_pipeline_all_disabled p t) as [(percent & E & _) _]
  end.
  - reflexivity.
  - vm_compute. discriminate.
  - now rewrite E.
Defined.

(** ** [analyze_text] of the orchestrator on a document of the right shape *)

Definition potential_line (po : PotentialOptimization) : Pipeline.log_event :=
  Pipeline.LogPotential
    (Pipeline.JStr (po_phrase po)) (Pipeline.JStr (po_suggested po))
    (Pipeline.JInt (po_occurrences po))
    (Pipeline.JInt (po_total_savings po)).

Lemma sum_total_savings_po (acc : Z) (l : list PotentialOptimization) :
  Pipeline.sum_total_savings acc (map TokenAwareScript.po_json l)
  = Pipeline.Return (acc + sum_Z (map po_total_savings l))%Z.
Proof.
  revert acc; induction l as [|po l IH]; intros acc; simpl.
  - now rewrite Z.add_0_r.
  - rewrite IH. f_equal. lia.
Qed.

Lemma print_potentials_po (l : list PotentialOptimization) :
  Pipeline.print_potentials (map TokenAwareScript.po_json l)
  = (Pipeline.Return tt, map potential_line l).
Proof.
  induction l as [|po l IH]; simpl; [reflexivity|].
  rewrite IH. reflexivity.
Qed.

(** Fed the document that the analysis mode of the script prints for a
    list of potential optimizations, [analyze_text] of the orchestrator
    reports that nothing was found when the list is empty; otherwise it
    prints the first ten entries, in the order of the list, and a total
    that is the sum of the [total_savings] of those ten only. *)
Theorem analyze_text_top_ten (self : Pipeline.TokenOptimizationPipeline)
    (s : text) (l : list PotentialOptimization) :
  let result :=
    Pipeline.subprocess_run (Pipeline.host self)
      (Pipeline.analyze_cmd self) s in
  Pipeline.returncode result = 0%Z ->
  Pipeline.json_loads (Pipeline.host self) (Pipeline.stdout result)
  = Some (TokenAwareScript.analysis_json l) ->
  Pipeline.analyze_text self s
  = (Pipeline.Return tt,
     Pipeline.LogAnalyzing ::
     match l with
     | [] => [Pipeline.LogNoneFound]
     | _ :: _ =>
         Pipeline.LogPotentialHeader ::
         map potential_line (firstn 10 l) ++
         [Pipeline.LogTotalPotential
            (sum_Z (map po_total_savings (firstn 10 l)))]
     end).
Proof.
  intros result Hr Hj. unfold Pipeline.analyze_text.
  cbv beta iota zeta delta [Pipeline.bind Pipeline.print Pipeline.ret
                              Pipeline.raise].
  fold result. rewrite Hr, Hj. cbn [Z.eqb].
  destruct l as [|po l]; [reflexivity|].
  unfold TokenAwareScript.analysis_json.
  cbn [Pipeline.truthy map nonempty_list Pipeline.top10].
  change (TokenAwareScript.po_json po
          :: map TokenAwareScript.po_json l)
    with (map TokenAwareScript.po_json (po :: l)).
  rewrite (firstn_map TokenAwareScript.po_json).
  rewrite sum_total_savings_po, print_potentials_po.
  cbn [app Z.add]. reflexivity.
Qed.

Lemma analyze_text_top_ten_witness :
  Pipeline.analyze_text (test_pipeline (fixed_host 0 "[]" ""))
    (txt "plain text")
  = (Pipeline.Return tt, [Pipeline.LogAnalyzing; Pipeline.LogNoneFound]).
Proof.
  apply (analyze_text_top_ten (test_pipeline (fixed_host 0 "[]" ""))
           (txt "plain text") []); reflexivity.
Defined.

Definition is_object (v : Pipeline.json) : bool :=
  match v with
  | Pipeline.JObj _ => true
  | _ => false
  end.

(** A document that decodes but has the wrong shape is not tolerated by
    [analyze_text] of the orchestrator: after the heading line it raises
    [TypeError] when the document is a number other than zero or a list
    whose first item is no object, and [KeyError] when the first item is an
    object without "total_savings". *)
Theorem analyze_text_wrong_shape (self : Pipeline.TokenOptimizationPipeline)
    (s : text) (doc : Pipeline.json) :
  let result :=
    Pipeline.subprocess_run (Pipeline.host self)
      (Pipeline.analyze_cmd self) s in
  Pipeline.returncode result = 0%Z ->
  Pipeline.json_loads (Pipeline.host self) (Pipeline.stdout result)
  = Some doc ->
  (forall item items,
      doc = Pipeline.JArr (item :: items) -> is_object item = false ->
      Pipeline.analyze_text self s
      = (Pipeline.Raise Pipeline.TypeError,
         [Pipeline.LogAnalyzing; Pipeline.LogPotentialHeader])) /\
  (forall members items,
      doc = Pipeline.JArr (Pipeline.JObj members :: items) ->
      dict_get (txt "total_savings") members = None ->
      Pipeline.analyze_text self s
      = (Pipeline.Raise Pipeline.KeyError,
         [Pipeline.LogAnalyzing; Pipeline.LogPotentialHeader])) /\
  (forall n,
      doc = Pipeline.JInt n -> n <> 0%Z ->
      Pipeline.analyze_text self s
      = (Pipeline.Raise Pipeline.TypeError,
         [Pipeline.LogAnalyzing; Pipeline.LogPotentialHeader])).
Proof.
  intros result Hr Hj. unfold Pipeline.analyze_text.
  cbv beta iota zeta delta [Pipeline.bind Pipeline.print Pipeline.ret
                              Pipeline.raise].
  fold result. rewrite Hr, Hj. cbn [Z.eqb].
  split; [|split].
  - intros item items -> Hi.
    cbn [Pipeline.truthy nonempty_list Pipeline.top10 firstn
         Pipeline.sum_total_savings].
    destruct item; try discriminate; reflexivity.
  - intros members items -> Hk.
    cbn [Pipeline.truthy nonempty_list Pipeline.top10 firstn
         Pipeline.sum_total_savings Pipeline.getitem].
    rewrite Hk. reflexivity.
  - intros n -> Hn. cbn [Pipeline.truthy Pipeline.top10].
    apply Z.eqb_neq in Hn. rewrite Hn. reflexivity.
Qed.

Lemma analyze_text_wrong_shape_witness :
  Pipeline.analyze_text (test_pipeline (fixed_host 0 "[{}]" ""))
    (txt "any text")
  = (Pipeline.Raise Pipeline.KeyError,
     [Pipeline.LogAnalyzing; Pipeline.LogPotentialHeader]).
Proof.
  apply (proj1 (proj2 (analyze_text_wrong_shape
                         (test_pipeline (fixed_host 0 "[{}]" ""))
                         (txt "any text")
                         (Pipeline.JArr [Pipeline.JObj []])
                         eq_refl eq_refl)) [] []); reflexivity.
Defined.

(** * [main] of [pipeline.py] *)

Module PipelineMain.

(** The parsed command line. *)
Record Args : Type := {
  input : option string;
  output : option string;
  config_path : string;
  verbose : bool;
  analyze : bool;
  count_only : bool;
  stages : option (list Pipeline.StageName)
}.

(** What [main] prints and writes, in order. *)
Inductive event : Type :=
| Err (line : Pipeline.log_event)
| ErrVerboseWarning
| ErrFallingBack
| OutTokens (n : Z)
| OutText (s : text)
| FileWrite (path : string) (content : text).

(** Where [main] can raise: in a method of the pipeline, or in one of its
    own calls, none of which stands in a [try]. *)
Inductive failure : Type :=
| PipelineRaised (e : Pipeline.exn)
| InputFailed
| ConfigFailed
| OutputFailed.

Inductive status : Type :=
| Done
| Raised (f : failure).

(** What [main] runs in: opening and reading a file, reading the standard
    input, building the pipeline from a configuration file (the file is
    opened and parsed and the tokenizer loaded), opening a file and
    writing it.  Each gives nothing when the call raises. *)
Record Host : Type := {
  open_read : string -> option text;
  stdin_read : option text;
  load : string -> option Pipeline.TokenOptimizationPipeline;
  open_write : string -> text -> bool
}.

(** [main] hands over to [main] of [pipeline_verbose.py], or runs to an
    end itself. *)
Inductive result : Type :=
| Delegated
| Ran (r : status) (events : list event).

Definition set_enabled (c : Pipeline.Config)
    (enabled' : Pipeline.StageName -> bool) : Pipeline.Config :=
  {| Pipeline.tokenizer_model := Pipeline.tokenizer_model c;
     Pipeline.enabled := enabled';
     Pipeline.max_edit_distance := Pipeline.max_edit_distance c;
     Pipeline.custom_dict_path := Pipeline.custom_dict_path c;
     Pipeline.min_token_savings := Pipeline.min_token_savings c;
     Pipeline.paraphrase_model := Pipeline.paraphrase_model c;
     Pipeline.max_length_ratio := Pipeline.max_length_ratio c |}.

(** [pipeline.config["pipeline"][stage]["enabled"] = False]. *)
Definition disable (stage : Pipeline.StageName)
    (p : Pipeline.TokenOptimizationPipeline)
  : Pipeline.TokenOptimizationPipeline :=
  {| Pipeline.host := Pipeline.host p;
     Pipeline.config :=
       set_enabled (Pipeline.config p)
         (fun st => if Pipeline.StageName_eqb st stage then false
                    else Pipeline.enabled (Pipeline.config p) st);
     Pipeline.pipeline_tokenizer := Pipeline.pipeline_tokenizer p;
     Pipeline.scripts_dir := Pipeline.scripts_dir p |}.

(** The loop over the four names under [if args.stages:]. *)
Definition restrict_stages (wanted : list Pipeline.StageName)
    (p : Pipeline.TokenOptimizationPipeline)
  : Pipeline.TokenOptimizationPipeline :=
  fold_left
    (fun p stage =>
       if existsb (Pipeline.StageName_eqb stage) wanted then p
       else disable stage p)
    [Pipeline.spell_check; Pipeline.abbreviations; Pipeline.token_aware;
     Pipeline.ml_paraphrase]
    p.

(** [if args.stages:] around the loop. *)
Definition apply_stages (a : Args) (p : Pipeline.TokenOptimizationPipeline)
  : Pipeline.TokenOptimizationPipeline :=
  match stages a with
  | Some wanted =>
      if nonempty_list wanted then restrict_stages wanted p else p
  | None => p
  end.

(** [if args.input:]. *)
Definition read_input (h : Host) (a : Args) : option text :=
  match input a with
  | Some p => if String.eqb p "" then stdin_read h else open_read h p
  | None => stdin_read h
  end.

(** [if args.output:]: the event of the text written, or nothing when
    opening or writing the file raises. *)
Definition write_output (h : Host) (a : Args) (s : text) : option event :=
  match output a with
  | Some p =>
      if String.eqb p "" then Some (OutText s)
      else if open_write h p s then Some (FileWrite p s) else None
  | None => Some (OutText s)
  end.

Definition status_of (r : Pipeline.outcome unit) : status :=
  match r with
  | Pipeline.Return _ => Done
  | Pipeline.Raise e => Raised (PipelineRaised e)
  end.

(** [main], given whether the verbose pipeline could be imported. *)
Definition main (verbose_available : bool) (h : Host) (a : Args) : result :=
  match read_input h a with
  | None => Ran (Raised InputFailed) []
  | Some s =>
      if verbose a && verbose_available then Delegated
      else
        let warnings :=
          if verbose a then [ErrVerboseWarning; ErrFallingBack] else [] in
        match load h (config_path a) with
        | None => Ran (Raised ConfigFailed) warnings
        | Some pipeline =>
            if count_only a then
              Ran Done
                  (warnings ++ [OutTokens (Pipeline.count_tokens pipeline s)])
            else if analyze a then
              let (r, log) := Pipeline.analyze_text pipeline s in
              Ran (status_of r) (warnings ++ map Err log)
            else
              let (r, log) :=
                Pipeline.run_pipeline (apply_stages a pipeline) s in
              match r with
              | Pipeline.Return optimized_text =>
                  match write_output h a optimized_text with
                  | Some written =>
                      Ran Done (warnings ++ map Err log ++ [written])
                  | None => Ran (Raised OutputFailed) (warnings ++ map Err log)
                  end
              | Pipeline.Raise e =>
                  Ran (Raised (PipelineRaised e)) (warnings ++ map Err log)
              end
        end
  end.

End PipelineMain.

(** [--stages] can only switch stages off: after the restriction a stage
    is enabled exactly when the configuration enables it and the option
    names it; nothing else of the pipeline changes. *)
Theorem restrict_stages_only_disables
    (wanted : list Pipeline.StageName)
    (p : Pipeline.TokenOptimizationPipeline) :
  (forall stage,
      Pipeline.enabled (Pipeline.config (PipelineMain.restrict_stages wanted p))
        stage
      = Pipeline.enabled (Pipeline.config p) stage
        && existsb (Pipeline.StageName_eqb stage) wanted) /\
  Pipeline.host (PipelineMain.restrict_stages wanted p) = Pipeline.host p /\
  Pipeline.pipeline_tokenizer (PipelineMain.restrict_stages wanted p)
  = Pipeline.pipeline_tokenizer p /\
  Pipeline.scripts_dir (PipelineMain.restrict_stages wanted p)
  = Pipeline.scripts_dir p /\
  (forall stage,
      Pipeline.stage_args
        (Pipeline.config (PipelineMain.restrict_stages wanted p)) stage
      = Pipeline.stage_args (Pipeline.config p) stage).
Proof.
  unfold PipelineMain.restrict_stages. cbn [fold_left].
  destruct (existsb (Pipeline.StageName_eqb Pipeline.spell_check) wanted)
    eqn:E1;
    destruct (existsb (Pipeline.StageName_eqb Pipeline.abbreviations) wanted)
      eqn:E2;
    destruct (existsb (Pipeline.StageName_eqb Pipeline.token_aware) wanted)
      eqn:E3;
    destruct (existsb (Pipeline.StageName_eqb Pipeline.ml_paraphrase) wanted)
      eqn:E4;
    (split; [intros [| | |]; cbn; rewrite ?E1, ?E2, ?E3, ?E4;
             rewrite ?andb_true_r, ?andb_false_r; reflexivity|]);
    (split; [reflexivity|]); (split; [reflexivity|]);
    (split; [reflexivity|]); intros [| | |]; reflexivity.
Qed.

Definition is_write (ev : PipelineMain.event) : bool :=
  match ev with
  | PipelineMain.OutText _ | PipelineMain.FileWrite _ _ => true
  | _ => false
  end.

Lemma map_Err_no_write (log : list Pipeline.log_event) :
  forallb (fun ev => negb (is_write ev)) (map PipelineMain.Err log) = true.
Proof. induction log; simpl; auto. Qed.

(** A host with the standard input given, every file refused for reading,
    one pipeline for every configuration file, and every file accepted for
    writing. *)
Definition main_host (p : Pipeline.TokenOptimizationPipeline) (s : text)
  : PipelineMain.Host :=
  {| PipelineMain.open_read := fun _ => None;
     PipelineMain.stdin_read := Some s;
     PipelineMain.load := fun _ => Some p;
     PipelineMain.open_write := fun _ _ => true |}.

(** [--stages] with at least one name restricts the stages to the names
    given, all of them; without the option nothing is restricted. *)
Lemma apply_stages_named (a : PipelineMain.Args)
    (p : Pipeline.TokenOptimizationPipeline) (stage : Pipeline.StageName) :
  Pipeline.enabled (Pipeline.config (PipelineMain.apply_stages a p)) stage
  = match PipelineMain.stages a with
    | Some (first :: rest) =>
        Pipeline.enabled (Pipeline.config p) stage
        && existsb (Pipeline.StageName_eqb stage) (first :: rest)
    | _ => Pipeline.enabled (Pipeline.config p) stage
    end.
Proof.
  unfold PipelineMain.apply_stages.
  destruct (PipelineMain.stages a) as [[|first rest]|]; try reflexivity.
  cbn [nonempty_list].
  generalize (first :: rest). intros wanted.
  unfold PipelineMain.restrict_stages. cbn [fold_left].
  destruct (existsb (Pipeline.StageName_eqb Pipeline.spell_check) wanted)
    eqn:E1;
    destruct (existsb (Pipeline.StageName_eqb Pipeline.abbreviations) wanted)
      eqn:E2;
    destruct (existsb (Pipeline.StageName_eqb Pipeline.token_aware) wanted)
      eqn:E3;
    destruct (existsb (Pipeline.StageName_eqb Pipeline.ml_paraphrase) wanted)
      eqn:E4;
    destruct stage; cbn; rewrite ?E1, ?E2, ?E3, ?E4;
    rewrite ?andb_true_r, ?andb_false_r; reflexivity.
Qed.

(** In the mode that runs the pipeline, with the input read and the
    pipeline built, [main] runs [run_pipeline] with the stages restricted
    to those [--stages] names (a stage runs when the configuration enables
    it and the option, if given, names it).  It writes the result at most
    once, as the last thing it does, and only when [run_pipeline] returns:
    when [run_pipeline] raises (an input of zero tokens), [main] raises the
    same exception, and when the output file cannot be written it raises
    at that point; in both cases neither the output file nor the standard
    output receives any text. *)
Theorem main_writes_on_success (verbose_available : bool)
    (h : PipelineMain.Host) (a : PipelineMain.Args) (s : text)
    (loaded : Pipeline.TokenOptimizationPipeline) :
  PipelineMain.read_input h a = Some s ->
  PipelineMain.verbose a && verbose_available = false ->
  PipelineMain.load h (PipelineMain.config_path a) = Some loaded ->
  PipelineMain.count_only a = false ->
  PipelineMain.analyze a = false ->
  let pipeline := PipelineMain.apply_stages a loaded in
  (forall stage,
      Pipeline.enabled (Pipeline.config pipeline) stage
      = Pipeline.enabled (Pipeline.config loaded) stage
        && match PipelineMain.stages a with
           | Some (first :: rest) =>
               existsb (Pipeline.StageName_eqb stage) (first :: rest)
           | _ => true
           end) /\
  exists events,
    forallb (fun ev => negb (is_write ev)) events = true /\
    PipelineMain.main verbose_available h a
    = match fst (Pipeline.run_pipeline pipeline s) with
      | Pipeline.Return optimized_text =>
          match PipelineMain.write_output h a optimized_text with
          | Some written =>
              PipelineMain.Ran PipelineMain.Done (events ++ [written])
          | None =>
              PipelineMain.Ran
                (PipelineMain.Raised PipelineMain.OutputFailed) events
          end
      | Pipeline.Raise e =>
          PipelineMain.Ran
            (PipelineMain.Raised (PipelineMain.PipelineRaised e)) events
      end.
Proof.
  intros Hs Hv Hl Hc Ha pipeline. split.
  - intros stage. unfold pipeline. rewrite apply_stages_named.
    destruct (PipelineMain.stages a) as [[|first rest]|];
      try (now rewrite andb_true_r). reflexivity.
  - unfold PipelineMain.main.
    rewrite Hs, Hv, Hl, Hc, Ha. fold pipeline.
    exists ((if PipelineMain.verbose a
             then [PipelineMain.ErrVerboseWarning; PipelineMain.ErrFallingBack]
             else [])
            ++ map PipelineMain.Err (snd (Pipeline.run_pipeline pipeline s))).
    split.
    + rewrite forallb_app, map_Err_no_write.
      now destruct (PipelineMain.verbose a).
    + destruct (Pipeline.run_pipeline pipeline s) as [[t|e] log];
        cbn [fst snd]; [|reflexivity].
      destruct (PipelineMain.write_output h a t); [|reflexivity].
      now rewrite app_assoc.
Qed.

Lemma main_writes_on_success_witness :
  exists events,
    PipelineMain.main false
      (main_host (test_pipeline (fixed_host 0 "short" "")) (txt "a longer text"))
      {| PipelineMain.input := None;
         PipelineMain.output := Some "out.txt"%string;
         PipelineMain.config_path := "config/pipeline_config.yaml";
         PipelineMain.verbose := false;
         PipelineMain.analyze := false;
         PipelineMain.count_only := false;
         PipelineMain.stages := Some [Pipeline.token_aware] |}
    = PipelineMain.Ran PipelineMain.Done
        (events ++ [PipelineMain.FileWrite "out.txt" (txt "short")]) /\
    forallb (fun ev => negb (is_write ev)) events = true.
Proof.
  destruct (main_writes_on_success false
              (main_host (test_pipeline (fixed_host 0 "short" ""))
                 (txt "a longer text"))
              {| PipelineMain.input := None;
                 PipelineMain.output := Some "out.txt"%string;
                 PipelineMain.config_path := "config/pipeline_config.yaml";
                 PipelineMain.verbose := false;
                 PipelineMain.analyze := false;
                 PipelineMain.count_only := false;
                 PipelineMain.stages := Some [Pipeline.token_aware] |}
              (txt "a longer text")
              (test_pipeline (fixed_host 0 "short" ""))
              eq_refl eq_refl eq_refl eq_refl eq_refl)
    as (_ & events & Hw & E).
  exists events. split; [|exact Hw]. rewrite E. reflexivity.
Defined.

(** * [VerboseTokenOptimizationPipeline], constructed with [verbose=False]

    The object shares its configuration, tokenizer and script directory
    with the plain pipeline and keeps a [stage_history] besides.  With
    [verbose=False] it prints the lines of the plain pipeline and adds no
    [-v] to a command; the statistics [run_stage] extracts from the
    standard error of a stage feed the verbose display only and are left
    out here.  What is modelled is what the methods return, record and
    print in the runs in which they return. *)

Module VerbosePipeline.

Inductive entry_name : Type :=
| Original
| Stage (stage_name : Pipeline.StageName).

Definition history : Type := list (entry_name * Z).

(** The result of a method: what it returns, the [stage_history] it
    leaves, and what it printed. *)
Definition R (A : Type) : Type := A * history * list Pipeline.log_event.

Definition run_stage (self : Pipeline.TokenOptimizationPipeline)
    (stage_history : history) (stage_name : Pipeline.StageName)
    (script_name : string) (input_text : text) (extra_args : list string)
  : R text :=
  if negb (Pipeline.enabled (Pipeline.config self) stage_name) then
    (input_text, stage_history, [Pipeline.LogSkipping stage_name])
  else
    let cmd := Pipeline.stage_cmd self script_name extra_args in
    let result := Pipeline.subprocess_run (Pipeline.host self) cmd input_text in
    if negb (Pipeline.returncode result =? 0)%Z then
      (input_text, stage_history,
       [Pipeline.LogStageFailed stage_name (Pipeline.stderr result)])
    else
      let output_text := Pipeline.stdout result in
      let input_tokens := Pipeline.count_tokens self input_text in
      let output_tokens := Pipeline.count_tokens self output_text in
      let tokens_saved := (input_tokens - output_tokens)%Z in
      (output_text,
       stage_history ++ [(Stage stage_name, output_tokens)],
       [Pipeline.LogStageOk stage_name input_tokens output_tokens
          tokens_saved]).

Definition stage_block (self : Pipeline.TokenOptimizationPipeline)
    (stage_history : history) (stage_name : Pipeline.StageName)
    (current_text : text) : R text :=
  if Pipeline.enabled (Pipeline.config self) stage_name then
    run_stage self stage_history stage_name
      (Pipeline.stage_script stage_name) current_text
      (Pipeline.stage_args (Pipeline.config self) stage_name)
  else (current_text, stage_history, []).

(** One block after what came before. *)
Definition then_block (self : Pipeline.TokenOptimizationPipeline)
    (stage_name : Pipeline.StageName) (r : R text) : R text :=
  match r with
  | (current_text, stage_history, log) =>
      match stage_block self stage_history stage_name current_text with
      | (text', history', log') => (text', history', log ++ log')
      end
  end.

(** [(total_reduction / original_tokens * 100) if original_tokens > 0
    else 0].  The value kept is the exact quotient; the code holds a float
    and prints it with one decimal, so no statement below compares two
    percentages. *)
Definition reduction_pct (total_reduction original_tokens : Z) : Q :=
  if (0 <? original_tokens)%Z
  then (inject_Z total_reduction / inject_Z original_tokens * 100)%Q
  else 0%Q.

Definition run_pipeline (self : Pipeline.TokenOptimizationPipeline)
    (input_text : text) : R text :=
  let original_tokens := Pipeline.count_tokens self input_text in
  let start : R text :=
    (input_text, [(Original, original_tokens)],
     [ Pipeline.LogStarting;
       Pipeline.LogOriginal (Pipeline.len input_text) original_tokens;
       Pipeline.LogRule ]) in
  match
    then_block self Pipeline.ml_paraphrase
      (then_block self Pipeline.token_aware
         (then_block self Pipeline.abbreviations
            (then_block self Pipeline.spell_check start)))
  with
  | (current_text, stage_history, log) =>
      let final_tokens := Pipeline.count_tokens self current_text in
      let total_reduction := (original_tokens - final_tokens)%Z in
      (current_text, stage_history,
       log ++
       [ Pipeline.LogRule;
         Pipeline.LogFinal (Pipeline.len current_text) final_tokens;
         Pipeline.LogTotalReduction total_reduction
           (reduction_pct total_reduction original_tokens) ])
  end.

End VerbosePipeline.

(** The entry a line of success adds to the history. *)
Definition history_of_event (ev : Pipeline.log_event)
  : VerbosePipeline.history :=
  match ev with
  | Pipeline.LogStageOk stage _ output_tokens _ =>
      [(VerbosePipeline.Stage stage, output_tokens)]
  | _ => []
  end.

(** The tokens of the last entry of a history. *)
Definition last_tokens (h : VerbosePipeline.history) : Z :=
  snd (last h (VerbosePipeline.Original, 0%Z)).

Lemma last_tokens_app (h : VerbosePipeline.history)
    (e : VerbosePipeline.entry_name * Z) :
  last_tokens (h ++ [e]) = snd e.
Proof. unfold last_tokens. now rewrite last_last. Qed.

(** A block of the verbose pipeline against the block of the plain one. *)
Lemma verbose_stage_block (self : Pipeline.TokenOptimizationPipeline)
    (h : VerbosePipeline.history) (stage : Pipeline.StageName) (buf : text) :
  exists out log,
    Pipeline.stage_block self stage buf = (Pipeline.Return out, log) /\
    VerbosePipeline.stage_block self h stage buf
    = (out, h ++ flat_map history_of_event log, log) /\
    (last_tokens h = Pipeline.count_tokens self buf ->
     last_tokens (h ++ flat_map history_of_event log)
     = Pipeline.count_tokens self out).
Proof.
  unfold Pipeline.stage_block, VerbosePipeline.stage_block.
  destruct (Pipeline.enabled (Pipeline.config self) stage) eqn:E.
  - unfold Pipeline.run_stage, VerbosePipeline.run_stage.
    rewrite E. cbn [negb]. unfold Pipeline.subprocess_run_check.
    cbv zeta.
    destruct (Pipeline.returncode _ =? 0)%Z; cbn [negb].
    + do 2 eexists. split; [reflexivity|]. split; [reflexivity|].
      intros _. simpl. apply last_tokens_app.
    + do 2 eexists. split; [reflexivity|].
      split; [simpl; now rewrite app_nil_r|].
      simpl. now rewrite app_nil_r.
  - do 2 eexists. split; [reflexivity|].
    split; [simpl; now rewrite app_nil_r|].
    simpl. now rewrite app_nil_r.
Qed.

Definition then_blocks (self : Pipeline.TokenOptimizationPipeline)
    (stages : list Pipeline.StageName) (r : VerbosePipeline.R text)
  : VerbosePipeline.R text :=
  fold_left (fun r stage => VerbosePipeline.then_block self stage r) stages r.

Lemma verbose_blocks (self : Pipeline.TokenOptimizationPipeline)
    (stages : list Pipeline.StageName) :
  forall (buf : text) (h : VerbosePipeline.history)
         (log0 : list Pipeline.log_event),
  exists out log,
    run_blocks self stages buf = (Pipeline.Return out, log) /\
    then_blocks self stages (buf, h, log0)
    = (out, h ++ flat_map history_of_event log, log0 ++ log) /\
    (last_tokens h = Pipeline.count_tokens self buf ->
     last_tokens (h ++ flat_map history_of_event log)
     = Pipeline.count_tokens self out).
Proof.
  induction stages as [|stage rest IH]; intros buf h log0.
  - exists buf, []. simpl. rewrite !app_nil_r. auto.
  - destruct (verbose_stage_block self h stage buf)
      as (out1 & log1 & Hp & Hv & Hl).
    destruct (IH out1 (h ++ flat_map history_of_event log1) (log0 ++ log1))
      as (out & log & Hp' & Hv' & Hl').
    exists out, (log1 ++ log). split; [|split].
    + cbn [run_blocks]. rewrite Hp. unfold Pipeline.bind. now rewrite Hp'.
    + unfold then_blocks in *. cbn [fold_left].
      unfold VerbosePipeline.then_block at 2. rewrite Hv, Hv'.
      now rewrite flat_map_app, !app_assoc.
    + intros H0. rewrite flat_map_app, app_assoc. auto.
Qed.

Ltac use_blocks Hv :=
  match type of Hv with
  | _ = ?rhs =>
      match goal with
      | |- context [then_blocks ?a ?b ?c] =>
          replace (then_blocks a b c) with rhs by (symmetry; exact Hv)
      end
  end.

Lemma verbose_run_pipeline_eq (self : Pipeline.TokenOptimizationPipeline)
    (input_text : text) :
  VerbosePipeline.run_pipeline self input_text
  = match
      then_blocks self all_stages
        (input_text,
         [(VerbosePipeline.Original, Pipeline.count_tokens self input_text)],
         [ Pipeline.LogStarting;
           Pipeline.LogOriginal (Pipeline.len input_text)
             (Pipeline.count_tokens self input_text);
           Pipeline.LogRule ])
    with
    | (current_text, stage_history, log) =>
        (current_text, stage_history,
         log ++
         [ Pipeline.LogRule;
           Pipeline.LogFinal (Pipeline.len current_text)
             (Pipeline.count_tokens self current_text);
           Pipeline.LogTotalReduction
             (Pipeline.count_tokens self input_text
              - Pipeline.count_tokens self current_text)
             (VerbosePipeline.reduction_pct
                (Pipeline.count_tokens self input_text
                 - Pipeline.count_tokens self current_text)
                (Pipeline.count_tokens self input_text)) ])
    end.
Proof. reflexivity. Qed.

(** The whole of the plain [run_pipeline] on an input of zero tokens. *)
Lemma run_pipeline_zero (self : Pipeline.TokenOptimizationPipeline)
    (input_text : text) :
  Pipeline.count_tokens self input_text = 0%Z ->
  exists out,
    fst (run_blocks self all_stages input_text) = Pipeline.Return out /\
    Pipeline.run_pipeline self input_text
    = (Pipeline.Raise Pipeline.ZeroDivisionError,
       [ Pipeline.LogStarting;
         Pipeline.LogOriginal (Pipeline.len input_text) 0;
         Pipeline.LogRule ]
       ++ snd (run_blocks self all_stages input_text)
       ++ [ Pipeline.LogRule;
            Pipeline.LogFinal (Pipeline.len out)
              (Pipeline.count_tokens self out) ]).
Proof.
  intros Hn.
  unfold Pipeline.run_pipeline, all_stages, run_blocks.
  cbv beta iota zeta delta [Pipeline.bind Pipeline.print Pipeline.ret].
  destruct (stage_block_returns self Pipeline.spell_check input_text)
    as (b1 & l1 & ->). cbv beta iota.
  destruct (stage_block_returns self Pipeline.abbreviations b1)
    as (b2 & l2 & ->). cbv beta iota.
  destruct (stage_block_returns self Pipeline.token_aware b2)
    as (b3 & l3 & ->). cbv beta iota.
  destruct (stage_block_returns self Pipeline.ml_paraphrase b3)
    as (b4 & l4 & ->). cbv beta iota.
  unfold Pipeline.true_div. rewrite Hn. cbn [Z.eqb fst snd].
  exists b4. split; [reflexivity|]. f_equal.
  cbn [app]. rewrite !app_nil_r, <- !app_assoc. reflexivity.
Qed.

(** The verbose pipeline built with [verbose=False] against the
    plain one.  The text it returns is the text the four blocks of the
    plain pipeline leave.  On an input of at least one token the plain
    [run_pipeline] returns that same text, and the two print the same
    lines up to the last one, which carries the same reduction in tokens
    (its percentage, computed by another expression, is not compared).  On
    an input of zero tokens the plain one prints those same lines and then
    raises [ZeroDivisionError], where the verbose one, its division
    guarded, prints a last line with a percentage of zero. *)
Theorem verbose_quiet_agrees (self : Pipeline.TokenOptimizationPipeline)
    (input_text : text) :
  let out := fst (fst (VerbosePipeline.run_pipeline self input_text)) in
  let vlog := snd (VerbosePipeline.run_pipeline self input_text) in
  fst (run_blocks self all_stages input_text) = Pipeline.Return out /\
  (Pipeline.count_tokens self input_text <> 0%Z ->
   fst (Pipeline.run_pipeline self input_text) = Pipeline.Return out /\
   exists lines percent percent',
     snd (Pipeline.run_pipeline self input_text)
     = lines ++
       [Pipeline.LogTotalReduction
          (Pipeline.count_tokens self input_text
           - Pipeline.count_tokens self out) percent] /\
     vlog
     = lines ++
       [Pipeline.LogTotalReduction
          (Pipeline.count_tokens self input_text
           - Pipeline.count_tokens self out) percent']) /\
  (Pipeline.count_tokens self input_text = 0%Z ->
   fst (Pipeline.run_pipeline self input_text)
   = Pipeline.Raise Pipeline.ZeroDivisionError /\
   vlog
   = snd (Pipeline.run_pipeline self input_text) ++
     [Pipeline.LogTotalReduction (0 - Pipeline.count_tokens self out) 0]).
Proof.
  cbv zeta. rewrite verbose_run_pipeline_eq.
  match goal with
  | |- context [then_blocks self all_stages (input_text, ?h, ?l)] =>
      destruct (verbose_blocks self all_stages input_text h l)
        as (out & log & Hp & Hv & _)
  end.
  use_blocks Hv. rewrite Hp. cbn [fst snd]. split; [reflexivity|]. split.
  - intros Hn.
    destruct (run_pipeline_nonzero self input_text Hn) as (out' & Hb & Hr).
    rewrite Hp in Hb, Hr. cbn [fst snd] in Hb, Hr.
    inversion Hb; subst out'. rewrite Hr. cbn [fst snd].
    split; [reflexivity|].
    exists ([ Pipeline.LogStarting;
              Pipeline.LogOriginal (Pipeline.len input_text)
                (Pipeline.count_tokens self input_text);
              Pipeline.LogRule ]
            ++ log
            ++ [ Pipeline.LogRule;
                 Pipeline.LogFinal (Pipeline.len out)
                   (Pipeline.count_tokens self out) ]).
    do 2 eexists. split.
    + rewrite <- !app_assoc. cbn [app]. reflexivity.
    + rewrite <- !app_assoc. cbn [app]. reflexivity.
  - intros H0.
    destruct (run_pipeline_zero self input_text H0) as (out' & Hb & Hr).
    rewrite Hp in Hb, Hr. cbn [fst snd] in Hb, Hr.
    inversion Hb; subst out'. rewrite Hr. cbn [fst snd].
    split; [reflexivity|].
    rewrite H0. unfold VerbosePipeline.reduction_pct.
    cbn [Z.ltb Z.compare].
    rewrite <- !app_assoc. cbn [app]. reflexivity.
Qed.

Lemma verbose_quiet_agrees_witness :
  fst (Pipeline.run_pipeline (test_pipeline (fixed_host 0 "" "")) (txt ""))
  = Pipeline.Raise Pipeline.ZeroDivisionError /\
  snd (VerbosePipeline.run_pipeline (test_pipeline (fixed_host 0 "" ""))
         (txt ""))
  = snd (Pipeline.run_pipeline (test_pipeline (fixed_host 0 "" "")) (txt ""))
    ++ [Pipeline.LogTotalReduction 0 0].
Proof.
  destruct (verbose_quiet_agrees (test_pipeline (fixed_host 0 "" ""))
              (txt "")) as (_ & _ & H).
  apply H. reflexivity.
Defined.

(** The [stage_history] of the verbose pipeline after [run_pipeline]: the
    entry of the input first, then one entry for each stage that ran with
    success, in order, with the token count printed on its line; and the
    last entry always carries the token count of the text returned. *)
Theorem verbose_stage_history (self : Pipeline.TokenOptimizationPipeline)
    (input_text : text) :
  let out := fst (fst (VerbosePipeline.run_pipeline self input_text)) in
  let stage_history :=
    snd (fst (VerbosePipeline.run_pipeline self input_text)) in
  let vlog := snd (VerbosePipeline.run_pipeline self input_text) in
  stage_history
  = (VerbosePipeline.Original, Pipeline.count_tokens self input_text)
    :: flat_map history_of_event vlog /\
  last_tokens stage_history = Pipeline.count_tokens self out.
Proof.
  cbv zeta. rewrite verbose_run_pipeline_eq.
  match goal with
  | |- context [then_blocks self all_stages (input_text, ?h, ?l)] =>
      destruct (verbose_blocks self all_stages input_text h l)
        as (out & log & Hp & Hv & Hl)
  end.
  use_blocks Hv. cbn [fst snd]. split.
  - rewrite !flat_map_app. cbn [flat_map history_of_event app].
    now rewrite app_nil_r.
  - apply Hl. reflexivity.
Qed.

(** * The script [02_abbreviations.py] *)

Module Abbreviations.

Record AbbreviationReplacer : Type := {
  abbreviations : dict text
}.

(** [d.update(category)]. *)
Definition dict_update (d category : dict text) : dict text :=
  fold_left (fun d kv => dict_set (fst kv) (snd kv) d) category d.

(** [__init__] once the configuration file is read: the categories of the
    file are flattened into one dictionary (a file that is not there
    leaves it empty, which is the case of no category). *)
Definition init (data : list (dict text)) : AbbreviationReplacer :=
  {| abbreviations := fold_left dict_update data [] |}.

Definition add_custom_abbreviation (self : AbbreviationReplacer)
    (long_form short_form : text) : AbbreviationReplacer :=
  {| abbreviations := dict_set long_form short_form (abbreviations self) |}.

(** [' ' in long_form]. *)
Definition has_space (s : text) : bool := existsb (Ascii.eqb " ") s.

(** [str.capitalize]. *)
Definition capitalize (s : text) : text :=
  match s with
  | [] => []
  | c :: s' => char_upper c :: str_lower s'
  end.

(** [replace_func] of [replace_abbreviations]. *)
Definition replace_func (long_form short_form matched_text : text) : text :=
  if negb (has_space long_form) then
    if str_isupper matched_text then
      if nonempty short_form then str_upper short_form else []
    else if match matched_text with
            | c :: _ => char_isupper c
            | [] => false
            end
    then if nonempty short_form then capitalize short_form else []
    else short_form
  else short_form.

(** The text and the [replacements] list of the loop. *)
Definition state : Type := text * list (text * text * Z).

(** The body of the loop for one abbreviation. *)
Definition step (st : state) (entry : text * text) : state :=
  let long_form := fst entry in
  let short_form := snd entry in
  if negb (nonempty short_form) && negb (has_space long_form) then st
  else
    let matches := findall long_form (fst st) in
    match matches with
    | [] => st
    | _ :: _ =>
        (sub long_form (replace_func long_form short_form) (fst st),
         snd st ++ [(long_form, short_form, Z.of_nat (List.length matches))])
    end.

Definition sorted_abbrevs (self : AbbreviationReplacer)
  : list (text * text) :=
  sorted_desc (fun x => Z.of_nat (List.length (fst x))) (abbreviations self).

Definition replace_abbreviations (self : AbbreviationReplacer) (s : text)
  : text * list (text * text * Z) :=
  let st := fold_left step (sorted_abbrevs self) (s, []) in
  (strip (unspace_punct (collapse_spaces (fst st))), snd st).

End Abbreviations.

(** The replacement an abbreviation is skipped for: nothing, for a single
    word. *)
Definition skipped (entry : text * text) : bool :=
  negb (nonempty (snd entry)) && negb (Abbreviations.has_space (fst entry)).

Lemma abbrev_step_cases (st : Abbreviations.state) (entry : text * text) :
  Abbreviations.step st entry = st \/
  (skipped entry = false /\
   findall (fst entry) (fst st) <> [] /\
   snd (Abbreviations.step st entry)
   = snd st ++ [(fst entry, snd entry,
                 Z.of_nat (List.length (findall (fst entry) (fst st))))]).
Proof.
  unfold Abbreviations.step, skipped. cbv zeta.
  destruct (negb (nonempty (snd entry))
            && negb (Abbreviations.has_space (fst entry))); auto.
  destruct (findall (fst entry) (fst st)) eqn:E; auto.
  right. split; [reflexivity|]. split; [discriminate | reflexivity].
Qed.

Lemma abbrev_fold_records (entries : list (text * text))
    (st : Abbreviations.state) :
  exists recs,
    snd (fold_left Abbreviations.step entries st) = snd st ++ recs /\
    subseq (map (fun r => (fst (fst r), snd (fst r))) recs) entries /\
    Forall (fun r => skipped (fst r) = false /\ (1 <= snd r)%Z) recs.
Proof.
  revert st; induction entries as [|e l IH]; intros st; simpl.
  - exists []. rewrite app_nil_r.
    split; [reflexivity|]. split; [apply subseq_nil | constructor].
  - destruct (IH (Abbreviations.step st e)) as (recs & Hr & Hs & Hf).
    destruct (abbrev_step_cases st e) as [E|(Hk & Hm & E)].
    + rewrite E in *. exists recs.
      split; [exact Hr|]. split; [now apply subseq_skip | exact Hf].
    + rewrite E, <- app_assoc in Hr. eexists. split; [exact Hr|].
      split.
      * simpl. destruct e. now apply subseq_take.
      * constructor; [|exact Hf]. simpl. split.
        -- now destruct e.
        -- destruct (findall (fst e) (fst st)); [congruence | simpl; lia].
Qed.

(** What [replace_abbreviations] records: only abbreviations of the
    dictionary, each at most once, the long forms from the longest to the
    shortest; never an abbreviation that would delete a single word (those
    are passed over); and each with at least one match. *)
Theorem replace_abbreviations_records
    (self : Abbreviations.AbbreviationReplacer) (s : text) :
  let recs := snd (Abbreviations.replace_abbreviations self s) in
  subseq (map (fun r => (fst (fst r), snd (fst r))) recs)
         (Abbreviations.sorted_abbrevs self) /\
  StronglySorted
    (fun a b => (List.length (fst (fst a)) >= List.length (fst (fst b)))%nat)
    recs /\
  Forall (fun r => (snd (fst r) <> [] \/
                    Abbreviations.has_space (fst (fst r)) = true) /\
                   (1 <= snd r)%Z) recs.
Proof.
  cbv zeta. unfold Abbreviations.replace_abbreviations. cbv zeta.
  cbn [snd].
  destruct (abbrev_fold_records (Abbreviations.sorted_abbrevs self) (s, []))
    as (recs & Hr & Hs & Hf).
  cbn [snd app] in Hr. rewrite Hr. split; [exact Hs|]. split.
  - assert (Hsorted :
      StronglySorted
        (fun a b : text * text =>
           (List.length (fst a) >= List.length (fst b))%nat)
        (map (fun r : text * text * Z => (fst (fst r), snd (fst r))) recs)).
    { apply (subseq_sorted _ _ _ Hs).
      pose proof (sorted_desc_sorted
                    (fun x : text * text => Z.of_nat (List.length (fst x)))
                    (Abbreviations.abbreviations self)) as H.
      unfold Abbreviations.sorted_abbrevs.
      eapply StronglySorted_ind with
        (P := fun l => StronglySorted
                (fun a b : text * text =>
                   (List.length (fst a) >= List.length (fst b))%nat) l);
        [constructor | | exact H].
      intros a l _ Hl Ha. constructor; [exact Hl|].
      eapply Forall_impl; [|exact Ha]. unfold desc. intros; lia. }
    clear -Hsorted. induction recs as [|r recs IH]; [constructor|].
    simpl in Hsorted. inversion Hsorted as [|? ? Hl Hh]; subst.
    constructor; [now apply IH|].
    rewrite Forall_map in Hh. exact Hh.
  - eapply Forall_impl; [|exact Hf]. intros [[long short] n] [Hk Hn].
    cbn [fst snd] in *. split; [|exact Hn].
    unfold skipped in Hk. cbn [fst snd] in Hk.
    destruct short; [|left; discriminate].
    right. simpl in Hk. now destruct (Abbreviations.has_space long).
Qed.

Lemma abbrev_fold_unrecorded (entries : list (text * text))
    (st : Abbreviations.state) :
  snd (fold_left Abbreviations.step entries st) = snd st ->
  fold_left Abbreviations.step entries st = st.
Proof.
  revert st; induction entries as [|e l IH]; intros st H; simpl in *; auto.
  destruct (abbrev_step_cases st e) as [E|(_ & _ & E)].
  - rewrite E in *. auto.
  - destruct (abbrev_fold_records l (Abbreviations.step st e))
      as (recs & Hr & _).
    rewrite Hr, E, <- app_assoc in H.
    apply (f_equal (@List.length _)) in H.
    rewrite length_app in H. simpl in H. lia.
Qed.

(** The text [replace_abbreviations] returns is always cleaned as the
    token-aware stage cleans its own: single spaces, none before the marks
    , . ! ? ; : and none at either end.  When nothing is recorded the text
    returned is the input cleaned. *)
Theorem replace_abbreviations_clean
    (self : Abbreviations.AbbreviationReplacer) (s : text) :
  let r := Abbreviations.replace_abbreviations self s in
  tidy (fst r) = true /\
  starts_space (fst r) = false /\ ends_space (fst r) = false /\
  (snd r = [] -> fst r = strip (unspace_punct (collapse_spaces s))).
Proof.
  cbv zeta. unfold Abbreviations.replace_abbreviations. cbv zeta.
  cbn [fst snd]. split; [|split; [|split]].
  - apply strip_tidy, unspace_punct_tidy.
    apply (collapse_from_spaced false).
  - apply strip_ends.
  - apply strip_ends.
  - intros H.
    rewrite (abbrev_fold_unrecorded (Abbreviations.sorted_abbrevs self)
               (s, []) H).
    reflexivity.
Qed.

Lemma replace_abbreviations_clean_witness :
  fst (Abbreviations.replace_abbreviations
         (Abbreviations.init [[(txt "please", txt "")]])
         (txt " please  help , now "))
  = txt "please help, now".
Proof.
  destruct (replace_abbreviations_clean
              (Abbreviations.init [[(txt "please", txt "")]])
              (txt " please  help , now ")) as (_ & _ & _ & H).
  rewrite H; vm_compute; reflexivity.
Defined.

Lemma dict_get_set_same {V : Type} (k : text) (v : V) (d : dict V) :
  dict_get k (dict_set k v d) = Some v.
Proof.
  induction d as [|[k' v'] d IH]; simpl.
  - now rewrite text_eqb_refl.
  - destruct (text_eqb k k') eqn:E; simpl; rewrite E; auto.
Qed.

Lemma dict_get_set_other {V : Type} (k k0 : text) (v : V) (d : dict V) :
  k <> k0 -> dict_get k (dict_set k0 v d) = dict_get k d.
Proof.
  intros Hne. induction d as [|[k' v'] d IH]; simpl.
  - now rewrite (text_eqb_neq Hne).
  - destruct (text_eqb k0 k') eqn:E; simpl.
    + apply text_eqb_eq in E. subst k'. now rewrite (text_eqb_neq Hne).
    + now rewrite IH.
Qed.

Lemma dict_set_keys_present {V : Type} (k : text) (v : V) (d : dict V) :
  In k (dict_keys d) -> dict_keys (dict_set k v d) = dict_keys d.
Proof.
  induction d as [|[k' v'] d IH]; simpl; [contradiction|].
  destruct (text_eqb k k') eqn:E; simpl; [reflexivity|].
  intros [->|H]; [now rewrite text_eqb_refl in E | now rewrite IH].
Qed.

(** After [add_custom_abbreviation] the dictionary gives the new short
    form for the long form and what it gave before for every other; a long
    form already there keeps its place among the keys, a new one goes to
    the end. *)
Theorem add_custom_abbreviation_lookup
    (self : Abbreviations.AbbreviationReplacer) (long_form short_form : text) :
  let self' :=
    Abbreviations.add_custom_abbreviation self long_form short_form in
  dict_get long_form (Abbreviations.abbreviations self') = Some short_form /\
  (forall k, k <> long_form ->
             dict_get k (Abbreviations.abbreviations self')
             = dict_get k (Abbreviations.abbreviations self)) /\
  (In long_form (dict_keys (Abbreviations.abbreviations self)) ->
   dict_keys (Abbreviations.abbreviations self')
   = dict_keys (Abbreviations.abbreviations self)) /\
  (~ In long_form (dict_keys (Abbreviations.abbreviations self)) ->
   Abbreviations.abbreviations self'
   = Abbreviations.abbreviations self ++ [(long_form, short_form)]).
Proof.
  cbv zeta. unfold Abbreviations.add_custom_abbreviation.
  cbn [Abbreviations.abbreviations].
  split; [apply dict_get_set_same|].
  split; [intros k Hk; now apply dict_get_set_other|].
  split; [apply dict_set_keys_present | apply dict_set_fresh].
Qed.

Lemma add_custom_abbreviation_lookup_witness :
  Abbreviations.abbreviations
    (Abbreviations.add_custom_abbreviation
       (Abbreviations.init [[(txt "repository", txt "repo")]])
       (txt "database") (txt "db"))
  = [(txt "repository", txt "repo"); (txt "database", txt "db")].
Proof.
  apply (proj2 (proj2 (proj2 (add_custom_abbreviation_lookup
                                (Abbreviations.init
                                   [[(txt "repository", txt "repo")]])
                                (txt "database") (txt "db"))))).
  simpl. intros [H|[]]. discriminate H.
Defined.

(** * The script [01_spell_check.py] *)

Module SpellCheck.

(** A suggestion of the dictionary: the term and its edit distance. *)
Record Suggestion : Type := {
  term : text;
  distance : nat
}.

(** The checker, with the lookup of its dictionary
    ([sym_spell.lookup(word, Verbosity.CLOSEST, max_edit_distance=2)]). *)
Record SpellChecker : Type := {
  lookup : text -> list Suggestion
}.

(** [text.split("\n")]. *)
Fixpoint split_lines (s : text) : list text :=
  match s with
  | [] => [[]]
  | c :: s' =>
      if Ascii.eqb c (ascii_of_N 10) then [] :: split_lines s'
      else
        match split_lines s' with
        | line :: lines => (c :: line) :: lines
        | [] => [[c]]
        end
  end.

(** [sep.join(parts)]. *)
Fixpoint join (sep : text) (parts : list text) : text :=
  match parts with
  | [] => []
  | [part] => part
  | part :: rest => part ++ sep ++ join sep rest
  end.

(** [line.split()]: the maximal runs of characters that are not white
    space. *)
Fixpoint split_words (s : text) : list text :=
  match s with
  | [] => []
  | c :: s' =>
      if char_isspace c then split_words s'
      else if starts_space s' || negb (nonempty s') then [c] :: split_words s'
      else
        match split_words s' with
        | word :: words => (c :: word) :: words
        | [] => [[c]]
        end
  end.

(** [s.startswith(p)]. *)
Fixpoint startswith (p s : text) : bool :=
  match p, s with
  | [], _ => true
  | _ :: _, [] => false
  | a :: p', b :: s' => Ascii.eqb a b && startswith p' s'
  end.

(** [p in s]. *)
Fixpoint contains (p s : text) : bool :=
  startswith p s ||
  match s with
  | [] => false
  | _ :: s' => contains p s'
  end.

(** The markers of addresses, paths and code. *)
Definition markers : list text :=
  [ txt "/"; txt "\"; txt ".com"; txt ".org"; txt "@"; txt "$";
    txt "{"; txt "}"; txt "["; txt "]"; txt "http" ].

Definition has_marker (word : text) : bool :=
  existsb (fun marker => contains marker word) markers.

(** The first loop on [clean_word]: the punctuation in front goes to
    [prefix]. *)
Fixpoint strip_front (s : text) : text * text :=
  match s with
  | [] => ([], [])
  | c :: s' =>
      if char_isalnum c then ([], s)
      else let (prefix, clean) := strip_front s' in (c :: prefix, clean)
  end.

(** The second loop: the punctuation behind goes to [suffix]. *)
Definition strip_back (s : text) : text * text :=
  let (suffix_rev, clean_rev) := strip_front (rev s) in
  (rev clean_rev, rev suffix_rev).

Definition restore_case (clean_word corrected : text) : text :=
  if str_isupper clean_word then str_upper corrected
  else if match clean_word with
          | c :: _ => char_isupper c
          | [] => false
          end
  then Abbreviations.capitalize corrected
  else corrected.

(** The body of the loop over the words of a line. *)
Definition correct_word (self : SpellChecker) (word : text) : text :=
  if has_marker word then word
  else
    let (prefix, rest) := strip_front word in
    let (clean_word, suffix) := strip_back rest in
    if negb (nonempty clean_word) then word
    else
      match lookup self (str_lower clean_word) with
      | best :: _ =>
          if (distance best <=? 1)%nat
          then prefix ++ restore_case clean_word (term best) ++ suffix
          else word
      | [] => word
      end.

(** The test that keeps a line as it is. *)
Definition is_code_line (line : text) : bool :=
  startswith (txt "```") (strip line) || startswith (txt "    ") (strip line).

Definition correct_line (self : SpellChecker) (line : text) : text :=
  if is_code_line line then line
  else join (txt " ") (map (correct_word self) (split_words line)).

Definition correct_text (self : SpellChecker) (s : text) : text :=
  join [ascii_of_N 10] (map (correct_line self) (split_lines s)).

End SpellCheck.

(** ** Properties of the spell checker *)

Import SpellCheck.

Definition nl : ascii := ascii_of_N 10.

(** No line feed in the text. *)
Definition no_newline (s : text) : bool :=
  forallb (fun c => negb (Ascii.eqb c nl)) s.

(** No white space in the text. *)
Definition no_space (s : text) : bool :=
  forallb (fun c => negb (char_isspace c)) s.

(** No alphanumeric character in the text. *)
Definition no_alnum (s : text) : bool :=
  forallb (fun c => negb (char_isalnum c)) s.

(** The fence test alone. *)
Definition is_fence (line : text) : bool :=
  startswith (txt "```") (strip line).

(** A checker whose dictionary offers nothing. *)
Definition silent : SpellChecker := {| lookup := fun _ => [] |}.

(** A checker that knows one misspelling. *)
Definition helper : SpellChecker :=
  {| lookup := fun w =>
       if text_eqb w (txt "helpp")
       then [ {| term := txt "help"; distance := 1 |} ]
       else [] |}.

Lemma strip_front_spec (s : text) :
  s = fst (strip_front s) ++ snd (strip_front s) /\
  no_alnum (fst (strip_front s)) = true.
Proof.
  induction s as [|c s [IH1 IH2]]; simpl; [auto|].
  destruct (char_isalnum c) eqn:E; simpl; [auto|].
  destruct (strip_front s) as [p r]; simpl in *.
  rewrite E, IH2. split; [now f_equal | reflexivity].
Qed.

Lemma forallb_rev (A : Type) (f : A -> bool) (l : list A) :
  forallb f (rev l) = forallb f l.
Proof.
  induction l as [|a l IH]; simpl; auto.
  rewrite forallb_app, IH. simpl. rewrite andb_true_r. apply andb_comm.
Qed.

Lemma strip_back_spec (s : text) :
  s = fst (strip_back s) ++ snd (strip_back s) /\
  no_alnum (snd (strip_back s)) = true.
Proof.
  unfold strip_back.
  destruct (strip_front_spec (rev s)) as [H1 H2].
  destruct (strip_front (rev s)) as [sr cr]; simpl in *.
  split.
  - rewrite <- rev_app_distr, <- H1. symmetry. apply rev_involutive.
  - unfold no_alnum in *. now rewrite forallb_rev.
Qed.

Lemma indent_test_false (line : text) :
  startswith (txt "    ") (strip line) = false.
Proof.
  destruct (strip_ends line) as [H _].
  destruct (strip line) as [|c t]; [reflexivity|].
  change (startswith (txt "    ") (c :: t))
    with (Ascii.eqb " " c && startswith (txt "   ") t).
  destruct (Ascii.eqb_spec " " c) as [<-|_]; [discriminate H | reflexivity].
Qed.

(** The words are kept when the dictionary offers nothing close. *)
Definition offers_nothing (self : SpellChecker) : Prop :=
  forall w, match lookup self w with
            | best :: _ => (1 < distance best)%nat
            | [] => True
            end.

Lemma correct_word_quiet (self : SpellChecker) (word : text) :
  offers_nothing self -> correct_word self word = word.
Proof.
  intros H. unfold correct_word.
  destruct (has_marker word); [reflexivity|].
  destruct (strip_front word) as [p r].
  destruct (strip_back r) as [cl su].
  destruct (negb (nonempty cl)); [reflexivity|].
  specialize (H (str_lower cl)).
  destruct (lookup self (str_lower cl)) as [|best rest]; [reflexivity|].
  destruct (Nat.leb_spec (distance best) 1); [lia | reflexivity].
Qed.

Lemma correct_line_quiet (self : SpellChecker) (line : text) :
  offers_nothing self ->
  correct_line self line =
  if is_fence line then line else join (txt " ") (split_words line).
Proof.
  intros H. unfold correct_line, is_code_line, is_fence.
  rewrite indent_test_false, orb_false_r.
  destruct (startswith (txt "```") (strip line)); [reflexivity|].
  f_equal. rewrite <- (map_id (split_words line)) at 2.
  apply map_ext. intros w. now apply correct_word_quiet.
Qed.

Lemma split_lines_nonempty (s : text) : split_lines s <> [].
Proof.
  induction s as [|c s IH]; cbn [split_lines]; [discriminate|].
  destruct (Ascii.eqb c (ascii_of_N 10)); [discriminate|].
  destruct (split_lines s); discriminate.
Qed.

Lemma join_cons_hd (sep : text) (c : ascii) (w : text) (ws : list text) :
  join sep ((c :: w) :: ws) = c :: join sep (w :: ws).
Proof. destruct ws; reflexivity. Qed.

Lemma join_cons (sep x : text) (l : list text) :
  l <> [] -> join sep (x :: l) = x ++ sep ++ join sep l.
Proof. destruct l; [contradiction | reflexivity]. Qed.

Lemma join_split_lines (s : text) : join [nl] (split_lines s) = s.
Proof.
  induction s as [|c s IH]; cbn [split_lines]; [reflexivity|].
  destruct (Ascii.eqb c (ascii_of_N 10)) eqn:E.
  - apply Ascii.eqb_eq in E. subst c.
    rewrite join_cons by apply split_lines_nonempty.
    cbn [app]. now rewrite IH.
  - pose proof (split_lines_nonempty s) as Hn.
    destruct (split_lines s) as [|l ls]; [contradiction|].
    rewrite join_cons_hd. now rewrite IH.
Qed.

Lemma ends_space_cons (c : ascii) (s : text) :
  s <> [] -> ends_space (c :: s) = ends_space s.
Proof.
  intros H. unfold ends_space. simpl.
  destruct (rev s) as [|d t] eqn:E; [|reflexivity].
  apply (f_equal (@rev ascii)) in E. rewrite rev_involutive in E.
  contradiction.
Qed.

Lemma join_split_words (line : text) :
  single_spaced line = true -> ends_space line = false ->
  join (txt " ") (split_words line) = skip_spaces line /\
  (line <> [] -> split_words line <> []).
Proof.
  induction line as [|c s IH]; simpl; [intros; split; [reflexivity | auto]|].
  rewrite andb_true_iff. intros [Hc Hs] He.
  destruct s as [|d s'].
  - destruct (char_isspace c) eqn:E.
    + unfold ends_space in He. simpl in He. congruence.
    + simpl. split; [reflexivity | discriminate].
  - rewrite ends_space_cons in He by discriminate.
    destruct (IH Hs He) as [IH1 IH2].
    specialize (IH2 ltac:(discriminate)).
    change (txt " ") with [" "%char] in *.
    destruct (char_isspace c) eqn:E.
    + split; [exact IH1 | intros _; exact IH2].
    + cbn [starts_space nonempty negb orb].
      destruct (char_isspace d) eqn:Ed.
      * cbn [orb]. split; [|discriminate].
        rewrite join_cons by exact IH2. rewrite IH1.
        simpl in Hs. rewrite Ed in Hs.
        apply andb_true_iff in Hs as [Hd _].
        apply andb_true_iff in Hd as [Hd Hn].
        apply Ascii.eqb_eq in Hd. subst d.
        apply negb_true_iff in Hn.
        simpl. simpl in Ed. f_equal. f_equal.
        now apply skip_spaces_id.
      * cbn [orb]. simpl nonempty. cbn [negb].
        destruct (split_words (d :: s')) as [|w ws]; [contradiction|].
        split; [|discriminate].
        rewrite join_cons_hd, IH1. simpl. now rewrite Ed.
Qed.

Definition starts_alnum (s : text) : bool :=
  match s with
  | c :: _ => char_isalnum c
  | [] => false
  end.

Lemma strip_front_starts (s : text) :
  snd (strip_front s) = [] \/ starts_alnum (snd (strip_front s)) = true.
Proof.
  induction s as [|c s IH]; cbn [strip_front]; [now left|].
  destruct (char_isalnum c) eqn:E; [right; exact E|].
  destruct (strip_front s) as [p r]. exact IH.
Qed.

Lemma strip_back_ends (s : text) :
  fst (strip_back s) = [] \/ starts_alnum (rev (fst (strip_back s))) = true.
Proof.
  unfold strip_back.
  pose proof (strip_front_starts (rev s)) as H.
  destruct (strip_front (rev s)) as [sr cr]; cbn [fst snd] in *.
  destruct H as [-> | H]; [now left | right].
  now rewrite rev_involutive.
Qed.

Lemma starts_alnum_app (a b : text) :
  a <> [] -> starts_alnum (a ++ b) = starts_alnum a.
Proof. destruct a; [contradiction | reflexivity]. Qed.

Lemma nonempty_true (s : text) : nonempty s = true -> s <> [].
Proof. destruct s; [discriminate | discriminate]. Qed.

Lemma char_upper_nl (c : ascii) :
  Ascii.eqb (char_upper c) nl = Ascii.eqb c nl.
Proof. destruct c as [[] [] [] [] [] [] [] []]; reflexivity. Qed.

Lemma char_lower_nl (c : ascii) :
  Ascii.eqb (char_lower c) nl = Ascii.eqb c nl.
Proof. destruct c as [[] [] [] [] [] [] [] []]; reflexivity. Qed.

Lemma no_newline_upper (s : text) : no_newline (str_upper s) = no_newline s.
Proof.
  induction s as [|c s IH]; [reflexivity|].
  unfold no_newline, str_upper in *. cbn [map forallb].
  now rewrite char_upper_nl, IH.
Qed.

Lemma no_newline_lower (s : text) : no_newline (str_lower s) = no_newline s.
Proof.
  induction s as [|c s IH]; [reflexivity|].
  unfold no_newline, str_lower in *. cbn [map forallb].
  now rewrite char_lower_nl, IH.
Qed.

Lemma no_newline_capitalize (s : text) :
  no_newline (Abbreviations.capitalize s) = no_newline s.
Proof.
  destruct s as [|c s]; [reflexivity|].
  unfold Abbreviations.capitalize.
  pose proof (no_newline_lower s) as H.
  unfold no_newline in *. cbn [forallb].
  now rewrite char_upper_nl, H.
Qed.

Lemma no_newline_restore_case (clean corrected : text) :
  no_newline (restore_case clean corrected) = no_newline corrected.
Proof.
  unfold restore_case.
  destruct (str_isupper clean); [apply no_newline_upper|].
  destruct clean as [|c t]; [reflexivity|].
  destruct (char_isupper c); [apply no_newline_capitalize | reflexivity].
Qed.

Lemma no_newline_app (a b : text) :
  no_newline (a ++ b) = no_newline a && no_newline b.
Proof. apply forallb_app. Qed.

Lemma no_space_no_newline (s : text) :
  no_space s = true -> no_newline s = true.
Proof.
  induction s as [|c s IH]; [reflexivity|].
  unfold no_space, no_newline in *. cbn [forallb].
  rewrite !andb_true_iff. intros [Hc Hs]. split; [|now apply IH].
  destruct (Ascii.eqb_spec c nl) as [->|_]; [discriminate Hc | reflexivity].
Qed.

Lemma split_words_no_space (s : text) :
  Forall (fun w => no_space w = true) (split_words s).
Proof.
  induction s as [|c s IH]; cbn [split_words]; [constructor|].
  destruct (char_isspace c) eqn:E; [exact IH|].
  assert (Hc : no_space [c] = true)
    by (unfold no_space; cbn [forallb]; now rewrite E).
  destruct (starts_space s || negb (nonempty s)); [now constructor|].
  destruct (split_words s) as [|w ws]; [now repeat constructor|].
  inversion IH as [|? ? Hw Hws]; subst. constructor; [|exact Hws].
  unfold no_space in *. cbn [forallb]. now rewrite E, Hw.
Qed.

(** No first suggestion carries a line feed. *)
Definition plain_terms (self : SpellChecker) : Prop :=
  forall w, match lookup self w with
            | best :: _ => no_newline (term best) = true
            | [] => True
            end.

Lemma correct_word_no_newline (self : SpellChecker) (word : text) :
  plain_terms self -> no_newline word = true ->
  no_newline (correct_word self word) = true.
Proof.
  intros H Hw. unfold correct_word.
  destruct (has_marker word); [exact Hw|].
  destruct (strip_front_spec word) as [H1 _].
  destruct (strip_front word) as [p r]; cbn [fst snd] in H1.
  destruct (strip_back_spec r) as [H2 _].
  destruct (strip_back r) as [cl su]; cbn [fst snd] in H2.
  destruct (negb (nonempty cl)); [exact Hw|].
  specialize (H (str_lower cl)).
  destruct (lookup self (str_lower cl)) as [|best rest]; [exact Hw|].
  destruct (distance best <=? 1)%nat; [|exact Hw].
  subst word r. rewrite !no_newline_app in Hw.
  apply andb_true_iff in Hw as [Hp Hw].
  apply andb_true_iff in Hw as [_ Hs].
  now rewrite !no_newline_app, no_newline_restore_case, Hp, H, Hs.
Qed.

Lemma join_no_newline (sep : text) (parts : list text) :
  no_newline sep = true ->
  Forall (fun p => no_newline p = true) parts ->
  no_newline (join sep parts) = true.
Proof.
  intros Hsep. induction 1 as [|p l Hp Hl IH]; [reflexivity|].
  destruct l as [|q l]; [exact Hp|].
  rewrite join_cons by discriminate.
  now rewrite !no_newline_app, Hp, Hsep, IH.
Qed.

Lemma split_lines_no_newline (s : text) :
  Forall (fun line => no_newline line = true) (split_lines s).
Proof.
  induction s as [|c s IH]; cbn [split_lines]; [now repeat constructor|].
  destruct (Ascii.eqb c (ascii_of_N 10)) eqn:E; [now constructor|].
  destruct (split_lines s) as [|l ls]; [repeat constructor|].
  - unfold no_newline, nl. cbn [forallb]. now rewrite E.
  - inversion IH as [|? ? Hl Hls]; subst. constructor; [|exact Hls].
    unfold no_newline, nl in *. cbn [forallb]. now rewrite E, Hl.
Qed.

Lemma correct_line_no_newline (self : SpellChecker) (line : text) :
  plain_terms self -> no_newline line = true ->
  no_newline (correct_line self line) = true.
Proof.
  intros H Hl. unfold correct_line.
  destruct (is_code_line line); [exact Hl|].
  apply join_no_newline; [reflexivity|].
  apply Forall_map.
  eapply Forall_impl; [|apply split_words_no_space].
  intros w Hw. apply correct_word_no_newline; [exact H|].
  now apply no_space_no_newline.
Qed.

Lemma split_lines_app (x t : text) :
  no_newline x = true -> split_lines (x ++ nl :: t) = x :: split_lines t.
Proof.
  induction x as [|c x IH]; intros Hx.
  - reflexivity.
  - unfold no_newline in Hx. cbn [forallb] in Hx.
    apply andb_true_iff in Hx as [Hc Hx]. apply negb_true_iff in Hc.
    cbn [app split_lines]. unfold nl in Hc. rewrite Hc.
    now rewrite (IH Hx).
Qed.

Lemma split_lines_plain (x : text) :
  no_newline x = true -> split_lines x = [x].
Proof.
  induction x as [|c x IH]; intros Hx; [reflexivity|].
  unfold no_newline in Hx. cbn [forallb] in Hx.
  apply andb_true_iff in Hx as [Hc Hx]. apply negb_true_iff in Hc.
  cbn [split_lines]. unfold nl in Hc. rewrite Hc.
  now rewrite (IH Hx).
Qed.

Lemma split_lines_join (lines : list text) :
  lines <> [] ->
  Forall (fun line => no_newline line = true) lines ->
  split_lines (join [nl] lines) = lines.
Proof.
  intros Hn H. induction H as [|x l Hx Hl IH]; [contradiction|].
  destruct l as [|y l]; [now apply split_lines_plain|].
  rewrite join_cons by discriminate. cbn [app].
  rewrite split_lines_app by exact Hx.
  now rewrite IH by discriminate.
Qed.

(** The second test of the guard on code lines,
    [line.strip().startswith("    ")], never holds, the stripped line
    having no white space in front: a line is kept as it is exactly when
    its stripped form starts with a fence of three backquotes, and an
    indented line is corrected like any other. *)
Theorem spell_indent_guard_dead (line : text) :
  is_code_line line = is_fence line.
Proof.
  unfold is_code_line, is_fence.
  now rewrite indent_test_false, orb_false_r.
Qed.

(** What [correct_text] does to one word.  Either the word is kept,
    or it has no marker of an address, a path or code, it is a non-empty
    core that starts and ends with an alphanumeric character between
    a prefix and a suffix without alphanumerics, the first suggestion for
    the lower-cased core is at distance at most one, and the result is the
    prefix, that suggestion's term in the case of the core, and the
    suffix. *)
Theorem correct_word_affixes (self : SpellChecker) (word : text) :
  correct_word self word = word \/
  exists prefix clean suffix best rest,
    word = prefix ++ clean ++ suffix /\
    no_alnum prefix = true /\ no_alnum suffix = true /\
    starts_alnum clean = true /\ starts_alnum (rev clean) = true /\
    has_marker word = false /\
    lookup self (str_lower clean) = best :: rest /\
    (distance best <= 1)%nat /\
    correct_word self word =
      prefix ++ restore_case clean (term best) ++ suffix.
Proof.
  unfold correct_word.
  destruct (has_marker word) eqn:Hm; [now left|].
  destruct (strip_front_spec word) as [H1 Hp].
  pose proof (strip_front_starts word) as Hr.
  destruct (strip_front word) as [p r]; cbn [fst snd] in *.
  destruct (strip_back_spec r) as [H2 Hs].
  pose proof (strip_back_ends r) as Hc.
  destruct (strip_back r) as [cl su]; cbn [fst snd] in *.
  destruct (nonempty cl) eqn:Hn; cbn [negb]; [|now left].
  apply nonempty_true in Hn.
  destruct (lookup self (str_lower cl)) as [|best rest] eqn:Hl; [now left|].
  destruct (Nat.leb_spec (distance best) 1) as [Hd|_]; [right | now left].
  exists p, cl, su, best, rest.
  destruct Hc as [Hc | Hc]; [contradiction|].
  destruct Hr as [Hr | Hr]; [subst r; now destruct cl|].
  rewrite H2, starts_alnum_app in Hr by exact Hn.
  subst word. rewrite <- H2.
  repeat (split; [assumption || reflexivity|]). reflexivity.
Qed.

(** When the dictionary offers no first suggestion within distance
    one, [correct_text] changes white space only: a fenced line is kept,
    and every other line becomes its words joined by single spaces. *)
Theorem correct_text_whitespace_only (self : SpellChecker) (s : text) :
  offers_nothing self ->
  correct_text self s =
  join [nl]
    (map (fun line =>
            if is_fence line then line
            else join (txt " ") (split_words line))
         (split_lines s)).
Proof.
  intros H. unfold correct_text. fold nl. f_equal.
  apply map_ext. intros line. now apply correct_line_quiet.
Qed.

(** Splitting and joining are a round trip.  When the dictionary
    offers no first suggestion within distance one and every line is
    fenced or has its words separated by single spaces, with no white
    space at either end, [correct_text] returns the text as it is. *)
Theorem correct_text_fixed_point (self : SpellChecker) (s : text) :
  offers_nothing self ->
  Forall (fun line =>
            is_fence line = true \/
            (single_spaced line = true /\ starts_space line = false /\
             ends_space line = false))
         (split_lines s) ->
  correct_text self s = s.
Proof.
  intros H Hl. unfold correct_text. fold nl.
  rewrite <- (join_split_lines s) at 2. f_equal.
  rewrite <- (map_id (split_lines s)) at 2.
  apply map_ext_in. intros line Hin.
  rewrite correct_line_quiet by exact H.
  rewrite Forall_forall in Hl.
  destruct (Hl line Hin) as [-> | (Hs & Hb & He)]; [reflexivity|].
  destruct (is_fence line); [reflexivity|].
  destruct (join_split_words line Hs He) as [-> _].
  now apply skip_spaces_id.
Qed.

(** [correct_text] works line by line.  When no first suggestion
    of the dictionary carries a line feed, the lines of the result are the
    corrected lines of the text, one for one: no line is added, dropped or
    merged. *)
Theorem correct_text_linewise (self : SpellChecker) (s : text) :
  plain_terms self ->
  split_lines (correct_text self s) =
  map (correct_line self) (split_lines s).
Proof.
  intros H. unfold correct_text. fold nl.
  apply split_lines_join.
  - pose proof (split_lines_nonempty s) as Hn.
    destruct (split_lines s); [contradiction | discriminate].
  - apply Forall_map.
    eapply Forall_impl; [|apply split_lines_no_newline].
    intros line Hl. now apply correct_line_no_newline.
Qed.

Lemma silent_offers_nothing : offers_nothing silent.
Proof. intros w. exact I. Defined.

Lemma helper_plain_terms : plain_terms helper.
Proof.
  intros w. unfold helper. cbn [lookup].
  destruct (text_eqb w (txt "helpp")); [reflexivity | exact I].
Defined.

Lemma correct_text_whitespace_only_witness :
  correct_text silent (txt "Please  fix   this" ++ nl :: txt " ```  raw  ")
  = txt "Please fix this" ++ nl :: txt " ```  raw  ".
Proof.
  exact (eq_trans
           (correct_text_whitespace_only silent
              (txt "Please  fix   this" ++ nl :: txt " ```  raw  ")
              silent_offers_nothing)
           eq_refl).
Defined.

Lemma correct_text_fixed_point_witness :
  correct_text silent (txt "Please fix this" ++ nl :: txt " ```  raw  ")
  = txt "Please fix this" ++ nl :: txt " ```  raw  ".
Proof.
  apply (correct_text_fixed_point silent
           (txt "Please fix this" ++ nl :: txt " ```  raw  ")
           silent_offers_nothing).
  change (split_lines (txt "Please fix this" ++ nl :: txt " ```  raw  "))
    with [txt "Please fix this"; txt " ```  raw  "].
  constructor; [right; repeat split; reflexivity|].
  constructor; [left; reflexivity | constructor].
Defined.

Lemma correct_text_linewise_witness :
  split_lines
    (correct_text helper (txt "(Helpp!)  me" ++ nl :: txt "    helpp"))
  = [txt "(Help!) me"; txt "help"].
Proof.
  exact (eq_trans
           (correct_text_linewise helper
              (txt "(Helpp!)  me" ++ nl :: txt "    helpp")
              helper_plain_terms)
           eq_refl).
Defined.
